(** * react-url-params-model-binder: ParamBinder and ModelBinder

    A shallow embedding of [src/ParamBinders/ParamBinder.ts] and of the
    [ModelBinder] class that composes binders, together with the properties
    of decode ([getModelFromUrlParams]) and encode ([getUrlParamsFromModel]).

    Conventions of the embedding.
    - A [URLSearchParams] is an ordered list of name/value pairs; its methods
      follow the WHATWG URL standard.
    - Models and [URLSearchParams] instances are mutable JavaScript objects:
      they live in a [heap] and are passed around by reference ([loc]).
    - Caller supplied callbacks are pure total functions.  A callback that
      receives a [URLSearchParams] sees the content it has when it is called.
    - [await Promise.all(xs.map(async ...))] runs one [task] per element.  A
      task is a sequence of atomic segments separated by [await]; the order
      in which pending tasks are resumed depends on when the promises of the
      callbacks settle, so it is a parameter (a [schedule]) and every theorem
      holds for all schedules.
    - The [ParamBinder] record is a constructed binder: its fields are what
      the constructor stored after its checks.  The object passed to the
      constructor holds, per property, what [typeof] tells apart: a
      string, a function, or anything else. *)

From stdpp Require Import base option list strings.

Set Default Proof Using "Type".
Open Scope string_scope.
Open Scope list_scope.

(** ** Exceptions and results *)

Inductive exn :=
  | Error (message : string)   (* [throw new Error(message)] *)
  | TypeError                  (* a method called on [undefined] *)
  | DanglingReference.         (* a reference outside the heap: no JS value *)

Inductive result (A : Type) :=
  | Ok (a : A)
  | Throw (e : exn).
Arguments Ok {A} a.
Arguments Throw {A} e.

#[global] Instance result_ret : MRet result := @Ok.
#[global] Instance result_bind : MBind result :=
  λ A B f r, match r with Ok a => f a | Throw e => Throw e end.

(** ** URLSearchParams *)

Abbreviation URLSearchParams := (list (string * string)).

(** [Array.from(params.keys())] *)
Definition usp_keys (ps : URLSearchParams) : list string := ps.*1.

(** [params.get(name)]: the value of the first pair named [name], or [null]. *)
Fixpoint usp_get (name : string) (ps : URLSearchParams) : option string :=
  match ps with
  | [] => None
  | (k, v) :: ps' => if decide (k = name) then Some v else usp_get name ps'
  end.

(** [params.delete(name)]: removes every pair named [name]. *)
Definition usp_delete (name : string) (ps : URLSearchParams) : URLSearchParams :=
  filter (λ p, p.1 ≠ name) ps.

(** [params.set(name, value)]: the first pair named [name] takes [value] and
    the other pairs of that name are removed; without such a pair, a new one
    is appended. *)
Fixpoint usp_set (name value : string) (ps : URLSearchParams) : URLSearchParams :=
  match ps with
  | [] => [(name, value)]
  | (k, v) :: ps' =>
      if decide (k = name) then (name, value) :: usp_delete name ps'
      else (k, v) :: usp_set name value ps'
  end.

(** ** Cooperative tasks and [Promise.all] *)

(** Which pending task is resumed next, step after step. *)
Abbreviation schedule := (list nat).

Section Tasks.
Context {S : Type}.

(** A task is what is left to run of an [async] function: either nothing, or
    an atomic segment that runs up to the next [await] and hands its value
    to the rest. *)
Inductive task : Type :=
  | Done
  | Await {A : Type} (segment : S → result (A * S)) (rest : A → task).

Definition atomic (f : S → result S) : task :=
  Await (λ s, s' ← f s; Ok ((), s')) (λ _, Done).

(** Runs a task to its end without interruption. *)
Fixpoint finish (t : task) (s : S) : result S :=
  match t with
  | Done => Ok s
  | Await segment rest =>
      match segment s with
      | Ok (a, s') => finish (rest a) s'
      | Throw e => Throw e
      end
  end.

Fixpoint finish_all (pending : list task) (s : S) : result S :=
  match pending with
  | [] => Ok s
  | t :: pending' => s' ← finish t s; finish_all pending' s'
  end.

(** [promise_all sched pending s]: each entry [n] of the schedule resumes
    the pending task at position [n mod length pending] for one segment.
    When the schedule is used up the remaining tasks run in array order.
    The first rejection rejects the whole. *)
Fixpoint promise_all (sched : schedule) (pending : list task) (s : S) : result S :=
  match sched with
  | [] => finish_all pending s
  | n :: sched' =>
      let i := n `mod` length pending in
      match pending !! i with
      | None => Ok s
      | Some Done => promise_all sched' (delete i pending) s
      | Some (Await segment rest) =>
          match segment s with
          | Ok (a, s') => promise_all sched' (<[i := rest a]> pending) s'
          | Throw e => Throw e
          end
      end
  end.

(** Sequential composition of atomic actions. *)
Fixpoint run_seq (fs : list (S → result S)) (s : S) : result S :=
  match fs with
  | [] => Ok s
  | f :: fs' => s' ← f s; run_seq fs' s'
  end.

(** *** Vocabulary for reasoning about schedules *)

(** [preserves I t]: every segment of [t], run in a state that satisfies
    [I], returns and keeps [I]. *)
Fixpoint preserves (I : S → Prop) (t : task) : Prop :=
  match t with
  | Done => True
  | Await segment rest =>
      ∀ s, I s → ∃ a s', segment s = Ok (a, s') ∧ I s' ∧ preserves I (rest a)
  end.

(** [runs_as I f t]: in states that satisfy [I], all that [t] does to the
    state is [f], in one of its segments; its other segments only read,
    and read a value that does not depend on the state. *)
Fixpoint runs_as (I : S → Prop) (f : S → result S) (t : task) : Prop :=
  match t with
  | Done => ∀ s, I s → f s = Ok s
  | Await segment rest =>
      (∃ a, (∀ s, I s → segment s = Ok (a, s)) ∧ runs_as I f (rest a)) ∨
      (∃ a, (∀ s, I s → segment s = (s' ← f s; Ok (a, s'))) ∧ runs_as I Ok (rest a))
  end.

(** A pending task of [x], before ([false]) or after ([true]) its write. *)
Definition entry_ok {X} (I : S → Prop) (f : X → S → result S)
    (e : X * task * bool) : Prop :=
  if e.2 then runs_as I Ok e.1.2 else runs_as I (f e.1.1) e.1.2.

(** The elements whose task has not written yet. *)
Definition unwritten {X} (e : X * task * bool) : option X :=
  if e.2 then None else Some e.1.1.
End Tasks.
Arguments task S : clear implicits.

(** ** JavaScript values and the heap *)

Abbreviation loc := nat.

(** What a caller can pass where a model is expected. *)
Inductive jsval :=
  | JUndefined
  | JNull
  | JPrimitive (s : string)   (* a string, number or boolean *)
  | JObject (l : loc).        (* a reference to an object of the heap *)

(** [typeof v === 'object' && v !== null] *)
Definition is_object (v : jsval) : bool :=
  match v with JObject _ => true | _ => false end.

Section Binder.
Context {TModel : Type}.

(** The objects that exist: models, [URLSearchParams] instances, and the
    promise rejections nobody awaited. *)
Record heap := Heap {
  objects : list TModel;
  paramObjects : list URLSearchParams;
  unhandledRejections : list exn
}.

Definition set_objects (os : list TModel) (h : heap) : heap :=
  Heap os (paramObjects h) (unhandledRejections h).
Definition set_paramObjects (sps : list URLSearchParams) (h : heap) : heap :=
  Heap (objects h) sps (unhandledRejections h).
Definition reject_unhandled (e : exn) (h : heap) : heap :=
  Heap (objects h) (paramObjects h) (unhandledRejections h ++ [e]).

Definition deref_object (l : loc) (h : heap) : result TModel :=
  match objects h !! l with Some m => Ok m | None => Throw DanglingReference end.
Definition deref_params (l : loc) (h : heap) : result URLSearchParams :=
  match paramObjects h !! l with Some ps => Ok ps | None => Throw DanglingReference end.

(** A new object. *)
Definition alloc_object (m : TModel) (h : heap) : loc * heap :=
  (length (objects h), set_objects (objects h ++ [m]) h).
(** [new URLSearchParams(init)] *)
Definition alloc_params (init : URLSearchParams) (h : heap) : loc * heap :=
  (length (paramObjects h), set_paramObjects (paramObjects h ++ [init]) h).

(** A method of a [URLSearchParams] instance that updates it in place. *)
Definition update_params (l : loc) (f : URLSearchParams → URLSearchParams)
    (h : heap) : result heap :=
  ps ← deref_params l h;
  Ok (set_paramObjects (<[l := f ps]> (paramObjects h)) h).

(** The content of the object a value refers to; property access on
    [undefined] or [null] is a [TypeError]. *)
Definition deref_value (v : jsval) (h : heap) : result TModel :=
  match v with
  | JObject l => deref_object l h
  | _ => Throw TypeError
  end.

(** [structuredClone(model)]: an independent deep copy. *)
Definition structuredClone (l : loc) (h : heap) : result (jsval * heap) :=
  m ← deref_object l h;
  let '(l', h') := alloc_object m h in Ok (JObject l', h').

(** ** ParamBinder *)

Record ParamBinder := {
  urlParamName : string;
  (* a string, or a function of the optional [allParams] *)
  defaultParamValue : string + (option URLSearchParams → string);
  (* mutates the model it is given: here, its new content *)
  setValueToModelFunc : TModel → string → TModel;
  (* [None]: the accessor returned [undefined] or [null] *)
  getUrlParamValueFunc : TModel → option string;
  (* [None]: no [isModelConsistent] function was supplied *)
  isModelConsistentFunc : option (TModel → bool);
  isUrlParamValueValidFunc : string → option URLSearchParams → bool
}.

Definition getDefaultParamValue (pb : ParamBinder)
    (allParams : option URLSearchParams) : string :=
  match defaultParamValue pb with
  | inr f => f allParams
  | inl s => s
  end.

Definition isUrlParamValid (pb : ParamBinder) (str : string)
    (allParams : option URLSearchParams) : bool :=
  isUrlParamValueValidFunc pb str allParams.

Definition parseUrlParamValue (pb : ParamBinder) (value : string)
    (allParams : option URLSearchParams) : string :=
  if negb (isUrlParamValid pb value allParams)
  then getDefaultParamValue pb allParams
  else value.

Definition getUrlParamValue (pb : ParamBinder) (model : TModel) : string :=
  match getUrlParamValueFunc pb model with
  | None => getDefaultParamValue pb None
  | Some valToReturn => valToReturn
  end.

Definition setToModel (pb : ParamBinder) (model : jsval) (urlParamValue : string)
    (h : heap) : result heap :=
  match model with
  | JObject l =>
      m ← deref_object l h;
      Ok (set_objects (<[l := setValueToModelFunc pb m urlParamValue]> (objects h)) h)
  | _ => Throw (Error "model must be a non-null object")
  end.

Definition isModelConsistent (pb : ParamBinder) (model : TModel) : bool :=
  match isModelConsistentFunc pb with
  | Some f => f model
  | None => true
  end.
End Binder.
Arguments heap TModel : clear implicits.
Arguments ParamBinder TModel : clear implicits.

(** ** The constructor of ParamBinder *)

(** A property of the object passed to the constructor, as [typeof] sees
    it: a string, a function, or anything else ([undefined] for a property
    that is missing, [null], a number, a boolean, an object). *)
Inductive property (F : Type) :=
  | AString (s : string)
  | AFunction (f : F)
  | AnythingElse.
Arguments AString {F} s.
Arguments AFunction {F} f.
Arguments AnythingElse {F}.

(** [typeof value === 'function'] *)
Definition is_function {F} (value : property F) : bool :=
  match value with AFunction _ => true | _ => false end.

(** The function a property holds, if it holds one. *)
Definition as_function {F} (value : property F) : option F :=
  match value with AFunction f => Some f | _ => None end.

(** [!value || typeof value !== 'string'] *)
Definition not_a_name {F} (value : property F) : bool :=
  match value with AString s => bool_decide (s = "") | _ => true end.

(** [typeof value !== 'string' && typeof value !== 'function'] *)
Definition not_a_default {F} (value : property F) : bool :=
  match value with AnythingElse => true | _ => false end.

Module Params.
(** The argument of the constructor.  A function passed as [urlParamName]
    is a function of no interest. *)
Record ParamBinderConstructorParams (TModel : Type) := {
  urlParamName : property unit;
  defaultParamValue : property (option URLSearchParams → string);
  setValueToModel : property (TModel → string → TModel);
  getUrlParamValue : property (TModel → option string);
  isModelConsistent : property (TModel → bool);
  isUrlParamValueValid : property (string → option URLSearchParams → bool)
}.
Arguments urlParamName {TModel} _.
Arguments defaultParamValue {TModel} _.
Arguments setValueToModel {TModel} _.
Arguments getUrlParamValue {TModel} _.
Arguments isModelConsistent {TModel} _.
Arguments isUrlParamValueValid {TModel} _.
End Params.

Section Constructor.
Context {TModel : Type}.

(** [protected set urlParamName(value)]: its check, and what it stores in
    [#urlParamName]. *)
Definition set_urlParamName {F} (value : property F) : result string :=
  match value with
  | AString s =>
      if decide (s = "") then Throw (Error "urlParamName must be non empty string")
      else Ok s
  | _ => Throw (Error "urlParamName must be non empty string")
  end.

(** [protected set defaultParamValue(value)]: its check, and what it stores
    in [#defaultParamValue]. *)
Definition set_defaultParamValue (value : property (option URLSearchParams → string))
    : result (string + (option URLSearchParams → string)) :=
  match value with
  | AString s => Ok (inl s)
  | AFunction f => Ok (inr f)
  | AnythingElse => Throw (Error "defaultValue must be string or function")
  end.

(** [new ParamBinder({urlParamName, defaultParamValue, setValueToModel,
    isModelConsistent, isUrlParamValueValid, getUrlParamValue})]: the checks
    of the constructor in their order, each followed by its assignment. *)
Definition newParamBinder (p : Params.ParamBinderConstructorParams TModel)
    : result (ParamBinder TModel) :=
  if not_a_name (Params.urlParamName p)
  then Throw (Error "urlParamName must be non empty string")
  else
    name ← set_urlParamName (Params.urlParamName p);
    if not_a_default (Params.defaultParamValue p)
    then Throw (Error "defaultValue must be string or function")
    else
      dflt ← set_defaultParamValue (Params.defaultParamValue p);
      match Params.setValueToModel p with
      | AFunction setValueToModel =>
          let consistent := as_function (Params.isModelConsistent p) in
          match Params.isUrlParamValueValid p with
          | AFunction isUrlParamValueValid =>
              match Params.getUrlParamValue p with
              | AFunction getUrlParamValue =>
                  Ok {| urlParamName := name;
                        defaultParamValue := dflt;
                        setValueToModelFunc := setValueToModel;
                        getUrlParamValueFunc := getUrlParamValue;
                        isModelConsistentFunc := consistent;
                        isUrlParamValueValidFunc := isUrlParamValueValid |}
              | _ => Throw (Error "getUrlParamValue must be function")
              end
          | _ => Throw (Error "isUrlParamValueValid must be function")
          end
      | _ => Throw (Error "setValueToModel must be function")
      end.
End Constructor.

(** ** ModelBinder *)

Section ModelBinder.
Context {TModel : Type}.
(** The content of the object literal [{}]. *)
Context (emptyObject : TModel).

Record ModelBinder := { paramBinders : list (ParamBinder TModel) }.

(** [new ModelBinder()] *)
Definition newModelBinder : ModelBinder := {| paramBinders := [] |}.

(** What a caller can pass to [addParamBinder]. *)
Inductive argument :=
  | NotAParamBinder (v : jsval)
  | AParamBinder (pb : ParamBinder TModel).

(** [this.#paramBinders.find((pb) => pb.urlParamName === key)] *)
Definition find_binder (this : ModelBinder) (key : string) : option (ParamBinder TModel) :=
  snd <$> list_find (λ pb, urlParamName pb = key) (paramBinders this).

(** [addParamBinder] returns the value it returns or throws, and the
    [ModelBinder] as the call leaves it. *)
Definition addParamBinder (paramBinder : argument) (this : ModelBinder)
    : result ModelBinder * ModelBinder :=
  match paramBinder with
  | NotAParamBinder _ =>
      (Throw (Error "paramBinder must be instance of BaseParamBinder"), this)
  | AParamBinder pb =>
      let name := urlParamName pb in
      if existsb (λ pb', bool_decide (urlParamName pb' = name)) (paramBinders this)
      then (Throw (Error ("paramBinder with urlParamName " +:+ name
                            +:+ " already exists")), this)
      else
        let this := {| paramBinders := paramBinders this ++ [pb] |} in
        (Ok this, this)
  end.

(** The [ModelBinder] objects a program can build: [#paramBinders] is
    private, and only [addParamBinder] adds to it. *)
Inductive reachable : ModelBinder → Prop :=
  | reachable_new : reachable newModelBinder
  | reachable_add paramBinder this :
      reachable this → reachable (addParamBinder paramBinder this).2.

(** *** Decode: [getModelFromUrlParams] *)

Record ModelParseResult := {
  model : option jsval;
  newParams : option loc
}.

(** What the tasks of one decode call share: the heap and the local
    variable [hasErrors]. *)
Record shared := Shared {
  sh_heap : heap TModel;
  hasErrors : bool
}.

(** The task of a registered key that [urlParams] lacks:
    [const defaultParamValue = await paramBinder.getDefaultParamValue(urlParams);
     await paramBinder.setToModel(model, defaultParamValue);] *)
Definition defaultTask (this : ModelBinder) (urlParams : loc) (model : jsval)
    (key : string) : task shared :=
  match find_binder this key with
  | None => atomic (λ _, Throw TypeError)
  | Some paramBinder =>
      Await (λ s, allParams ← deref_params urlParams (sh_heap s);
                  Ok (getDefaultParamValue paramBinder (Some allParams), s))
        (λ defaultParamValue,
           atomic (λ s,
             h ← setToModel paramBinder model defaultParamValue (sh_heap s);
             Ok (Shared h (hasErrors s))))
  end.

(** The task of a key of [urlParams]:
    [if (!paramBinder) return;
     if (!(await paramBinder.isUrlParamValid(urlParams.get(key), urlParams)))
       { hasErrors = true; newParams.delete(key); return; }
     const parsedValue = await paramBinder.parseUrlParamValue(urlParams.get(key), urlParams);
     paramBinder.setToModel(model, parsedValue);]
    The promise of that [setToModel] is not awaited: a rejection would stay
    unhandled.  [urlParams.get(key)] is [None] for a key that [urlParams]
    lacks; no task is created for such a key. *)
Definition paramTask (this : ModelBinder) (urlParams : loc) (model : jsval)
    (newParams : loc) (key : string) : task shared :=
  match find_binder this key with
  | None => Done
  | Some paramBinder =>
      Await (λ s, allParams ← deref_params urlParams (sh_heap s);
                  Ok ((λ value, isUrlParamValid paramBinder value (Some allParams))
                        <$> usp_get key allParams, s))
        (λ valid,
           match valid with
           | None => Done
           | Some false =>
               atomic (λ s,
                 h ← update_params newParams (usp_delete key) (sh_heap s);
                 Ok (Shared h true))
           | Some true =>
               Await (λ s, allParams ← deref_params urlParams (sh_heap s);
                           Ok ((λ value, parseUrlParamValue paramBinder value (Some allParams))
                                 <$> usp_get key allParams, s))
                 (λ parsedValue,
                    match parsedValue with
                    | None => Done
                    | Some parsedValue =>
                        atomic (λ s,
                          match setToModel paramBinder model parsedValue (sh_heap s) with
                          | Ok h => Ok (Shared h (hasErrors s))
                          | Throw e =>
                              Ok (Shared (reject_unhandled e (sh_heap s)) (hasErrors s))
                          end)
                    end)
           end)
  end.

(** The task that resets one key of [newParams] to its default:
    [const defaultParamValue = await pb.getDefaultParamValue(urlParams);
     newParams.set(pb.urlParamName, defaultParamValue);] *)
Definition resetTask (urlParams newParams : loc) (pb : ParamBinder TModel)
    : task (heap TModel) :=
  Await (λ h, allParams ← deref_params urlParams h;
              Ok (getDefaultParamValue pb (Some allParams), h))
    (λ defaultParamValue,
       atomic (update_params newParams (usp_set (urlParamName pb) defaultParamValue))).

(** The orders in which the three [Promise.all] of decode resume their tasks. *)
Record decode_schedule := {
  sched_defaults : schedule;
  sched_params : schedule;
  sched_reset : schedule
}.

(** [model = {}] or [model = structuredClone(model)] *)
Definition own_model (model : jsval) (h : heap TModel) : result (jsval * heap TModel) :=
  match model with
  | JObject l => structuredClone l h
  | _ => let '(l', h') := alloc_object emptyObject h in Ok (JObject l', h')
  end.

(** Decode from its first [Promise.all] up to its test of [hasErrors]. *)
Definition decode_keys (sc : decode_schedule) (this : ModelBinder)
    (urlParams : loc) (urlParamsKeys : list string) (model : jsval) (newParams : loc)
    (h : heap TModel) : result shared :=
  let paramBindersKeys := urlParamName <$> paramBinders this in
  s ← promise_all (sched_defaults sc)
        (defaultTask this urlParams model <$>
           filter (λ key, key ∉ urlParamsKeys) paramBindersKeys)
        (Shared h false);
  promise_all (sched_params sc)
    (paramTask this urlParams model newParams <$> urlParamsKeys) s.

(** [urlParams] is [None] when the caller passed no [URLSearchParams]
    instance. *)
Definition getModelFromUrlParams (sc : decode_schedule) (this : ModelBinder)
    (urlParams : option loc) (model : jsval) (h : heap TModel)
    : result (ModelParseResult * heap TModel) :=
  match urlParams with
  | None => Throw (Error "urlParams must be instance of URLSearchParams")
  | Some urlParams =>
      init ← deref_params urlParams h;
      '(model, h) ← own_model model h;
      let '(newParams, h) := alloc_params init h in   (* new URLSearchParams(urlParams) *)
      let urlParamsKeys := usp_keys init in           (* Array.from(urlParams.keys()) *)
      s ← decode_keys sc this urlParams urlParamsKeys model newParams h;
      if hasErrors s then
        Ok ({| model := None; newParams := Some newParams |}, sh_heap s)
      else
        let h := sh_heap s in
        m ← deref_value model h;
        let consistencyCheckResults :=
          (λ pb, isModelConsistent pb m) <$> paramBinders this in
        if existsb (λ id, bool_decide (id = false)) consistencyCheckResults then
          h ← promise_all (sched_reset sc)
                (resetTask urlParams newParams <$> paramBinders this) h;
          Ok ({| model := None; newParams := Some newParams |}, h)
        else
          Ok ({| model := Some model; newParams := None |}, h)
  end.

(** *** Encode: [getUrlParamsFromModel] *)

(** The task of one binder:
    [const urlParamValue = await pb.getUrlParamValue(model);
     const defaultParamValue = await pb.getDefaultParamValue(urlParams);
     if (urlParamValue !== defaultParamValue)
       urlParams.set(pb.urlParamName, urlParamValue);]
    The default is computed from the content [urlParams] has when the task
    is resumed, and compared and written when it is resumed again. *)
Definition encodeTask (model : jsval) (urlParams : loc) (pb : ParamBinder TModel)
    : task (heap TModel) :=
  Await (λ h, m ← deref_value model h; Ok (getUrlParamValue pb m, h))
    (λ urlParamValue,
       Await (λ h, allParams ← deref_params urlParams h;
                   Ok (getDefaultParamValue pb (Some allParams), h))
         (λ defaultParamValue,
            atomic (λ h,
              if decide (urlParamValue ≠ defaultParamValue)
              then update_params urlParams (usp_set (urlParamName pb) urlParamValue) h
              else Ok h))).

(** [searchParams] is [None] when the caller passed no [URLSearchParams]
    instance.  The two [deref] at the start only rule out references that
    refer to nothing. *)
Definition getUrlParamsFromModel (sched : schedule) (this : ModelBinder)
    (model : jsval) (searchParams : option loc) (h : heap TModel)
    : result (loc * heap TModel) :=
  if negb (is_object model) then Throw (Error "model must be a non-null object")
  else
    _ ← deref_value model h;
    '(urlParams, h) ←
      match searchParams with
      | Some l => _ ← deref_params l h; Ok (l, h)   (* the caller's object *)
      | None => Ok (alloc_params [] h)
      end;
    h ← promise_all sched (encodeTask model urlParams <$> paramBinders this) h;
    Ok (urlParams, h).
End ModelBinder.
Arguments ModelBinder TModel : clear implicits.
Arguments argument TModel : clear implicits.
Arguments shared TModel : clear implicits.

(** * Vocabulary of the statements *)

Section Vocabulary.
Context {TModel : Type}.
Implicit Types (this : ModelBinder TModel) (pb : ParamBinder TModel).
Implicit Types (h : heap TModel) (ps : URLSearchParams) (m : TModel).

(** The registered names, in registration order. *)
Definition names this : list string := urlParamName <$> paramBinders this.

(** [key] has a binder, and its value in [ps] fails that binder's validity
    check (with [ps] as [allParams]). *)
Definition key_invalid this ps (key : string) : bool :=
  match find_binder this key, usp_get key ps with
  | Some pb, Some value => negb (isUrlParamValid pb value (Some ps))
  | _, _ => false
  end.

(** What the task of an absent key does to the content of the model. *)
Definition assign_default this ps m (key : string) : TModel :=
  match find_binder this key with
  | Some pb => setValueToModelFunc pb m (getDefaultParamValue pb (Some ps))
  | None => m
  end.

(** What the task of a key of [ps] does to the content of the model. *)
Definition assign_param this ps m (key : string) : TModel :=
  match find_binder this key, usp_get key ps with
  | Some pb, Some value =>
      if isUrlParamValid pb value (Some ps) then setValueToModelFunc pb m value else m
  | _, _ => m
  end.

(** What the tasks of [keys] leave of [nps], the content of [newParams]. *)
Definition purge this ps nps (keys : list string) : URLSearchParams :=
  foldl (λ nps key, if key_invalid this ps key then usp_delete key nps else nps) nps keys.

(** What the reset task of [pb] does to the content of [newParams]. *)
Definition reset_key ps (nps : URLSearchParams) pb : URLSearchParams :=
  usp_set (urlParamName pb) (getDefaultParamValue pb (Some ps)) nps.

(** Some consistency check returns [false] on [m]. *)
Definition inconsistent this m : bool :=
  existsb (λ id, bool_decide (id = false))
    ((λ pb, isModelConsistent pb m) <$> paramBinders this).

(** The content decode starts from: that of the caller's object, or [{}]. *)
Definition own_content (emptyObject : TModel) (model : jsval) h : TModel :=
  match model with
  | JObject l => default emptyObject (objects h !! l)
  | _ => emptyObject
  end.

(** The content of the model once the tasks of the absent keys ran in the
    order [keys1] and then those of the present keys in the order [keys2]. *)
Definition assembled (emptyObject : TModel) this ps (model : jsval) h
    (keys1 keys2 : list string) : TModel :=
  foldl (assign_param this ps)
    (foldl (assign_default this ps) (own_content emptyObject model h) keys1) keys2.

(** What decode returns and the heap it leaves, when its tasks complete in
    the orders [keys1], [keys2] and [pbs]. *)
Definition decode_outcome (emptyObject : TModel) this ps (model : jsval) h
    (keys1 keys2 : list string) (pbs : list (ParamBinder TModel))
    : ModelParseResult * heap TModel :=
  let m := assembled emptyObject this ps model h keys1 keys2 in
  let nps := filter (λ p, key_invalid this ps p.1 = false) ps in
  let after nps :=
    Heap (objects h ++ [m]) (paramObjects h ++ [nps]) (unhandledRejections h) in
  if existsb (key_invalid this ps) (usp_keys ps) then
    ({| model := None; newParams := Some (length (paramObjects h)) |}, after nps)
  else if inconsistent this m then
    ({| model := None; newParams := Some (length (paramObjects h)) |},
     after (foldl (reset_key ps) nps pbs))
  else
    ({| model := Some (JObject (length (objects h))); newParams := None |}, after nps).

(** The content of decode's model when decode reaches its test of
    [hasErrors]: the model the tasks assembled. *)
Definition assembled_model (emptyObject : TModel) (sc : decode_schedule) this
    (urlParams : option loc) (model : jsval) h : result TModel :=
  match urlParams with
  | None => Throw (Error "urlParams must be instance of URLSearchParams")
  | Some urlParams =>
      init ← deref_params urlParams h;
      '(model, h) ← own_model emptyObject model h;
      let '(newParams, h) := alloc_params init h in
      s ← decode_keys sc this urlParams (usp_keys init) model newParams h;
      deref_value model (sh_heap s)
  end.

(** A model argument that is a reference refers to an object of the heap. *)
Definition model_ok (model : jsval) h : Prop :=
  match model with
  | JObject l => is_Some (objects h !! l)
  | _ => True
  end.

(** Every object and parameter set of [h] is in [h'], with the same content. *)
Definition heap_preserved h h' : Prop :=
  (∀ l m, objects h !! l = Some m → objects h' !! l = Some m) ∧
  (∀ l ps, paramObjects h !! l = Some ps → paramObjects h' !! l = Some ps).

(** The accessors of the registered binders behave as the two ends of a
    property: a binder reads what it wrote, and does not read what a binder
    of another name wrote. *)
Definition accessors_lawful this : Prop :=
  (∀ pb m value, pb ∈ paramBinders this →
     getUrlParamValueFunc pb (setValueToModelFunc pb m value) = Some value) ∧
  (∀ pb pb' m value, pb ∈ paramBinders this → pb' ∈ paramBinders this →
     urlParamName pb ≠ urlParamName pb' →
     getUrlParamValueFunc pb' (setValueToModelFunc pb m value)
       = getUrlParamValueFunc pb' m).

(** No default and no validity check looks at [allParams]. *)
Definition context_free this : Prop :=
  ∀ pb, pb ∈ paramBinders this → ∀ c c' : option URLSearchParams,
    getDefaultParamValue pb c = getDefaultParamValue pb c' ∧
    ∀ value, isUrlParamValid pb value c = isUrlParamValid pb value c'.

(** The consistency checks only depend on what the binders read. *)
Definition consistency_by_reads this : Prop :=
  ∀ m m',
    (∀ pb, pb ∈ paramBinders this → getUrlParamValue pb m = getUrlParamValue pb m') →
    ∀ pb, pb ∈ paramBinders this → isModelConsistent pb m = isModelConsistent pb m'.

(** What encode starts from, and where: the caller's parameter set, or a
    new empty one. *)
Definition params_ok (searchParams : option loc) h : Prop :=
  match searchParams with
  | Some l => is_Some (paramObjects h !! l)
  | None => True
  end.
Definition supplied_content (searchParams : option loc) h : URLSearchParams :=
  match searchParams with
  | Some l => default [] (paramObjects h !! l)
  | None => []
  end.
Definition encode_loc (searchParams : option loc) h : loc :=
  match searchParams with
  | Some l => l
  | None => length (paramObjects h)
  end.

(** The heap encode leaves when the parameter set ends as [nps]. *)
Definition encode_heap (searchParams : option loc) h nps : heap TModel :=
  match searchParams with
  | Some l => Heap (objects h) (<[l := nps]> (paramObjects h)) (unhandledRejections h)
  | None => Heap (objects h) (paramObjects h ++ [nps]) (unhandledRejections h)
  end.

(** What the task of [pb] does to the parameter set when its default does
    not depend on [allParams]. *)
Definition emit m nps pb : URLSearchParams :=
  if decide (getUrlParamValue pb m ≠ getDefaultParamValue pb None)
  then usp_set (urlParamName pb) (getUrlParamValue pb m) nps
  else nps.
Definition emit_step m (urlParams : loc) pb : heap TModel → result (heap TModel) :=
  λ h, if decide (getUrlParamValue pb m ≠ getDefaultParamValue pb None)
       then update_params urlParams (usp_set (urlParamName pb) (getUrlParamValue pb m)) h
       else Ok h.

(** What the tasks of decode do to what they share, when the content of
    [urlParams] is [ps]: the write of [defaultTask], of [paramTask] and of
    [resetTask]. *)
Definition default_step this ps (model : jsval) (key : string)
    : shared TModel → result (shared TModel) :=
  λ s, match find_binder this key with
       | None => Throw TypeError
       | Some pb =>
           h ← setToModel pb model (getDefaultParamValue pb (Some ps)) (sh_heap s);
           Ok (Shared h (hasErrors s))
       end.
Definition param_step this ps (model : jsval) (newParams : loc) (key : string)
    : shared TModel → result (shared TModel) :=
  λ s, match find_binder this key, usp_get key ps with
       | Some pb, Some value =>
           if isUrlParamValid pb value (Some ps) then
             match setToModel pb model (parseUrlParamValue pb value (Some ps))
                     (sh_heap s) with
             | Ok h => Ok (Shared h (hasErrors s))
             | Throw e => Ok (Shared (reject_unhandled e (sh_heap s)) (hasErrors s))
             end
           else
             h ← update_params newParams (usp_delete key) (sh_heap s);
             Ok (Shared h true)
       | _, _ => Ok s
       end.
Definition reset_step ps (newParams : loc) pb : heap TModel → result (heap TModel) :=
  update_params newParams
    (usp_set (urlParamName pb) (getDefaultParamValue pb (Some ps))).

(** The consistency checks only depend on what the accessors of the
    binders return. *)
Definition consistency_by_accessors this : Prop :=
  ∀ m m',
    (∀ pb, pb ∈ paramBinders this →
       getUrlParamValueFunc pb m = getUrlParamValueFunc pb m') →
    ∀ pb, pb ∈ paramBinders this → isModelConsistent pb m = isModelConsistent pb m'.

(** The callbacks decode calls answer the same with [ps'] as [allParams]
    as with [ps]: the default of every binder, and the validity check of
    every binder on the value [ps] has for it. *)
Definition answers_alike this ps ps' : Prop :=
  ∀ pb, pb ∈ paramBinders this →
    getDefaultParamValue pb (Some ps) = getDefaultParamValue pb (Some ps') ∧
    ∀ value, usp_get (urlParamName pb) ps = Some value →
      isUrlParamValid pb value (Some ps) = isUrlParamValid pb value (Some ps').
End Vocabulary.
Arguments default_step : simpl never.
Arguments param_step : simpl never.
Arguments reset_step : simpl never.
Arguments emit_step : simpl never.

Section MoreVocabulary.
Context {TModel : Type}.
Implicit Types (this : ModelBinder TModel) (pb : ParamBinder TModel).
Implicit Types (h : heap TModel) (ps : URLSearchParams) (m : TModel).

(** No default looks at [allParams]. *)
Definition constant_defaults this : Prop :=
  ∀ pb, pb ∈ paramBinders this →
    ∀ c, getDefaultParamValue pb c = getDefaultParamValue pb None.

(** No validity check looks at [allParams]. *)
Definition validity_by_value this : Prop :=
  ∀ pb, pb ∈ paramBinders this →
    ∀ value c c', isUrlParamValid pb value c = isUrlParamValid pb value c'.

(** The pair encode writes for [pb], if it writes one, when the default of
    [pb] does not look at [allParams]. *)
Definition emitted m pb : option (string * string) :=
  if decide (getUrlParamValue pb m ≠ getDefaultParamValue pb None)
  then Some (urlParamName pb, getUrlParamValue pb m)
  else None.

(** The pair the reset of decode writes for [pb]. *)
Definition reset_pair ps pb : string * string :=
  (urlParamName pb, getDefaultParamValue pb (Some ps)).

(** Every default passes the validity check of its binder. *)
Definition defaults_valid this : Prop :=
  ∀ pb, pb ∈ paramBinders this →
    ∀ c c', isUrlParamValid pb (getDefaultParamValue pb c) c' = true.
End MoreVocabulary.

(** * Example binders and heaps *)

Module Examples.
(** A model with string properties, as a JavaScript object lists them;
    [{}] is the empty list. *)
Abbreviation object := (list (string * string)).

(** A binder that stores its parameter in the property [field]. *)
Definition fieldBinder (name field dflt : string)
    (valid : string → option URLSearchParams → bool)
    (consistent : option (object → bool)) : ParamBinder object := {|
  urlParamName := name;
  defaultParamValue := inl dflt;
  setValueToModelFunc := λ m value, usp_set field value m;
  getUrlParamValueFunc := λ m, usp_get field m;
  isModelConsistentFunc := consistent;
  isUrlParamValueValidFunc := valid
|}.

(** The binders of the single invalid key example: [A] accepts every value,
    [B] only the value 5. *)
Definition binderA : ParamBinder object :=
  fieldBinder "A" "a" "a0" (λ _ _, true) None.
Definition binderB : ParamBinder object :=
  fieldBinder "B" "b" "5" (λ value _, bool_decide (value = "5")) None.
Definition codecA : ModelBinder object := {| paramBinders := [binderA] |}.
Definition codecAB : ModelBinder object := {| paramBinders := [binderA; binderB] |}.

(** Two binders whose consistency check wants different ends of a range. *)
Definition distinct_ends (m : object) : bool :=
  bool_decide (usp_get "x" m ≠ usp_get "y" m).
Definition binderX : ParamBinder object :=
  fieldBinder "fieldX" "x" "0" (λ _ _, true) (Some distinct_ends).
Definition binderY : ParamBinder object :=
  fieldBinder "fieldY" "y" "9" (λ _ _, true) (Some distinct_ends).
Definition codecXY : ModelBinder object := {| paramBinders := [binderX; binderY] |}.


(** Tasks resumed in array order, and in some other order. *)
Definition in_order : decode_schedule :=
  {| sched_defaults := []; sched_params := []; sched_reset := [] |}.
Definition shuffled : decode_schedule :=
  {| sched_defaults := [1; 0; 1]; sched_params := [2; 1; 1; 0]; sched_reset := [1] |}.

(** A heap with two models and five parameter sets. *)
Definition heap0 : heap object := {|
  objects := [[("a", "kept"); ("other", "1")]; [("a", "a0")]];
  paramObjects := [
    [("A", "x"); ("B", "bad")];
    [("A", "x"); ("B", "5"); ("C", "unknown")];
    [("fieldX", "7"); ("fieldY", "7")];
    [("from", "0"); ("to", "9")];
    []
  ];
  unhandledRejections := []
|}.
End Examples.

Module MoreExamples.
Import Examples.

(** What a caller passes to the constructor to get [binderA]. *)
Definition paramsA : Params.ParamBinderConstructorParams object := {|
  Params.urlParamName := AString "A";
  Params.defaultParamValue := AString "a0";
  Params.setValueToModel := AFunction (λ m value, usp_set "a" value m);
  Params.getUrlParamValue := AFunction (λ m, usp_get "a" m);
  Params.isModelConsistent := AnythingElse;
  Params.isUrlParamValueValid := AFunction (λ _ _, true)
|}.

(** A heap whose parameter sets repeat keys and hold keys without binder. *)
Definition heap1 : heap object := {|
  objects := [[("a", "kept"); ("other", "1")]; [("a", "a0")]];
  paramObjects := [
    [("C", "1"); ("B", "bad"); ("C", "2"); ("A", "x")];
    [("fieldX", "7"); ("Z", "z"); ("fieldY", "7"); ("fieldX", "8")];
    [];
    [("A", "old"); ("Q", "q"); ("A", "older"); ("B", "stale")]
  ];
  unhandledRejections := []
|}.
End MoreExamples.

Module CornerCases.
Import Examples.

(** A binder whose validity check looks into [allParams] for the key [C],
    which has no binder. *)
Definition binderSolo : ParamBinder object :=
  fieldBinder "A" "a" "a0"
    (λ _ allParams,
       match allParams with
       | Some ps => bool_decide (usp_get "C" ps = None)
       | None => true
       end) None.
Definition codecSolo : ModelBinder object := {| paramBinders := [binderSolo] |}.

(** A heap with parameter sets that differ by the pairs of a key without
    binder. *)
Definition heap2 : heap object := {|
  objects := [[("a", "kept"); ("other", "1")]];
  paramObjects := [
    [("A", "x"); ("C", "1")];
    [("A", "x")];
    [("A", "x"); ("B", "5"); ("C", "unknown")];
    [("A", "x"); ("B", "5")];
    [("fieldX", "3"); ("Z", "z")]
  ];
  unhandledRejections := []
|}.

(** A binder whose default looks at [allParams]: [n] next to a key [q],
    [e] otherwise. *)
Definition binderP : ParamBinder object := {|
  urlParamName := "p";
  defaultParamValue :=
    inr (λ allParams,
           match allParams with
           | Some ps => if usp_get "q" ps is Some _ then "n" else "e"
           | None => "e"
           end);
  setValueToModelFunc := λ m value, usp_set "p" value m;
  getUrlParamValueFunc := λ m, usp_get "p" m;
  isModelConsistentFunc := None;
  isUrlParamValueValidFunc := λ _ _, true
|}.
Definition binderQ : ParamBinder object :=
  fieldBinder "q" "q" "q0" (λ _ _, true) None.
Definition codecPQ : ModelBinder object := {| paramBinders := [binderP; binderQ] |}.

(** A binder that stores nothing and always reads [c]. *)
Definition binderDeaf : ParamBinder object := {|
  urlParamName := "d";
  defaultParamValue := inl "d0";
  setValueToModelFunc := λ m _, m;
  getUrlParamValueFunc := λ _, Some "c";
  isModelConsistentFunc := None;
  isUrlParamValueValidFunc := λ value _, bool_decide (value = "d0")
|}.
Definition codecDeaf : ModelBinder object := {| paramBinders := [binderDeaf] |}.

(** A binder whose consistency check looks at a property that no binder
    sets. *)
Definition binderOther : ParamBinder object :=
  fieldBinder "A" "a" "a0" (λ _ _, true)
    (Some (λ m, bool_decide (usp_get "other" m = Some "1"))).
Definition codecOther : ModelBinder object := {| paramBinders := [binderOther] |}.

Definition heap3 : heap object := {|
  objects := [[("a", "kept"); ("other", "1")]];
  paramObjects := [[("p", "e"); ("q", "5")]; []; [("A", "x")]];
  unhandledRejections := []
|}.
End CornerCases.

(** * Properties *)

(** ** Scheduling *)

Section Scheduling.
Context {S : Type}.
Implicit Types (s : S) (t : task S) (sched : schedule).

Lemma finish_atomic (f : S → result S) s : finish (atomic f) s = f s.
Proof. simpl. destruct (f s); reflexivity. Qed.

Lemma lookup_mod_None {X} (xs : list X) n : xs !! (n `mod` length xs) = None → xs = [].
Proof.
  destruct xs as [|x xs]; [done|]. intros Hnone.
  apply lookup_ge_None_1 in Hnone.
  pose proof (Nat.mod_upper_bound n (length (x :: xs))) as Hlt.
  simpl in *. lia.
Qed.

Lemma omap_delete_Permutation {X Y} (g : X → option Y) (xs : list X) i x :
  xs !! i = Some x → omap g xs ≡ₚ option_list (g x) ++ omap g (delete i xs).
Proof.
  intros Hi. rewrite <- (take_drop_middle xs i x Hi) at 1.
  rewrite delete_take_drop, !omap_app. simpl.
  destruct (g x); simpl; [|done]. by rewrite Permutation_middle.
Qed.

Lemma omap_insert_Permutation {X Y} (g : X → option Y) (xs : list X) i x :
  i < length xs → omap g (<[i := x]> xs) ≡ₚ option_list (g x) ++ omap g (delete i xs).
Proof.
  intros Hi. rewrite insert_take_drop, delete_take_drop, !omap_app by done. simpl.
  destruct (g x); simpl; [|done]. by rewrite Permutation_middle.
Qed.

Lemma run_seq_ext {X} (f g : X → S → result S) (xs : list X) s :
  (∀ x s', f x s' = g x s') → run_seq (f <$> xs) s = run_seq (g <$> xs) s.
Proof.
  intros Hfg. induction xs as [|x xs IH] in s |- *; simpl; [done|].
  rewrite Hfg. destruct (g x s); simpl; auto.
Qed.

(** An invariant [I] of the shared state, with an assertion [G] on what is
    left of each task: a set of tasks that keeps them never rejects and ends
    in a state that satisfies [I], whatever the schedule. *)
Section invariant.
Context (I : S → Prop) (G : task S → Prop).
Hypothesis G_step : ∀ A (segment : S → result (A * S)) rest s,
  G (Await segment rest) → I s →
  ∃ a s', segment s = Ok (a, s') ∧ I s' ∧ G (rest a).

Lemma finish_invariant t s : G t → I s → ∃ s', finish t s = Ok s' ∧ I s'.
Proof using G_step.
  induction t as [|A segment rest IH] in s |- *; simpl; intros Ht Hs; [eauto|].
  destruct (G_step _ _ _ _ Ht Hs) as (a & s' & -> & Hs' & Hrest). eauto.
Qed.

Lemma finish_all_invariant pending s :
  Forall G pending → I s → ∃ s', finish_all pending s = Ok s' ∧ I s'.
Proof using G_step.
  induction pending as [|t pending IH] in s |- *; simpl; intros Hp Hs; [eauto|].
  apply Forall_cons in Hp as [Ht Hp].
  destruct (finish_invariant t s Ht Hs) as (s' & -> & Hs'). simpl. eauto.
Qed.

Lemma promise_all_invariant sched pending s :
  Forall G pending → I s → ∃ s', promise_all sched pending s = Ok s' ∧ I s'.
Proof using G_step.
  induction sched as [|n sched IH] in pending, s |- *; simpl; intros Hp Hs.
  { by apply finish_all_invariant. }
  destruct (pending !! (n `mod` length pending)) as [[|A segment rest]|] eqn:Hi; [| |eauto].
  - apply IH; [by apply Forall_delete | done].
  - assert (G (Await segment rest)) as Ht by (eapply Forall_lookup_1; eauto).
    destruct (G_step _ _ _ _ Ht Hs) as (a & s' & -> & Hs' & Hrest).
    apply IH; [by apply Forall_insert | done].
Qed.
End invariant.
Lemma preserves_atomic (I : S → Prop) (f : S → result S) :
  (∀ s, I s → ∃ s', f s = Ok s' ∧ I s') → preserves I (atomic f).
Proof.
  intros Hf s Hs. destruct (Hf s Hs) as (s' & Hfs & Hs').
  exists (), s'. simpl. by rewrite Hfs.
Qed.

Lemma promise_all_preserves (I : S → Prop) sched pending s :
  Forall (preserves I) pending → I s →
  ∃ s', promise_all sched pending s = Ok s' ∧ I s'.
Proof.
  apply promise_all_invariant. intros A segment rest s0 Ht Hs0. by apply Ht.
Qed.

(** Tasks that write once: they run as their writes do, one after the other,
    in an order the schedule chooses. *)
Section single_write.
Context {X : Type} (I : S → Prop) (f : X → S → result S).
Hypothesis f_keeps : ∀ x s s', I s → f x s = Ok s' → I s'.

Lemma finish_runs_as (g : S → result S) t s :
  (∀ s s', I s → g s = Ok s' → I s') →
  runs_as I g t → I s → finish t s = g s.
Proof using Type.
  intros Hkeep.
  induction t as [|A segment rest IH] in g, s, Hkeep |- *; simpl; intros Ht Hs.
  { by rewrite Ht. }
  destruct Ht as [(a & Hseg & Hrest)|(a & Hseg & Hrest)]; rewrite Hseg by done.
  - by apply IH.
  - destruct (g s) as [s'|e] eqn:Hg; simpl; [|done].
    apply (IH a Ok); [by intros ?? ? [= <-] | done | by eapply Hkeep].
Qed.

Lemma finish_all_entries (es : list (X * task S * bool)) s :
  Forall (entry_ok I f) es → I s →
  finish_all ((λ e, e.1.2) <$> es) s = run_seq (f <$> omap unwritten es) s.
Proof using f_keeps.
  induction es as [|[[x t] b] es IH] in s |- *; simpl; intros Hes Hs; [done|].
  apply Forall_cons in Hes as [He Hes]. unfold entry_ok in He. simpl in He.
  destruct b; simpl.
  - rewrite (finish_runs_as Ok) by (done || by intros ?? ? [= <-]). simpl.
    by apply IH.
  - rewrite (finish_runs_as (f x)) by eauto.
    destruct (f x s) as [s'|e] eqn:Hf; simpl; [|done]. apply IH; eauto.
Qed.

Lemma promise_all_entries sched (es : list (X * task S * bool)) s :
  Forall (entry_ok I f) es → I s →
  ∃ xs', xs' ≡ₚ omap unwritten es ∧
         promise_all sched ((λ e, e.1.2) <$> es) s = run_seq (f <$> xs') s.
Proof using f_keeps.
  induction sched as [|n sched IH] in es, s |- *; simpl; intros Hes Hs.
  { eexists. split; [done | by apply finish_all_entries]. }
  rewrite length_fmap, list_lookup_fmap.
  set (i := n `mod` length es).
  destruct (es !! i) as [[[x t] b]|] eqn:Hi; simpl;
    [|apply lookup_mod_None in Hi as ->; by exists []].
  assert (entry_ok I f (x, t, b)) as He by (by eapply Forall_lookup_1 in Hes).
  assert (i < length es) as Hlt by (by eapply lookup_lt_Some).
  pose proof (omap_delete_Permutation unwritten es i _ Hi) as Hdel.
  unfold entry_ok in He. simpl in He.
  destruct t as [|A segment rest]; simpl in He.
  - (* the task has ended *)
    rewrite <- list_fmap_delete.
    destruct (IH (delete i es) s) as (xs' & Hperm & ->);
      [by apply Forall_delete | done |].
    destruct b; simpl in *.
    + exists xs'. split; [by rewrite Hperm, Hdel | done].
    + exists (x :: xs'). split; [by rewrite Hperm, Hdel|].
      simpl. by rewrite He.
  - assert (∀ (a : A) (b' : bool),
              (if b' then runs_as I Ok (rest a) else runs_as I (f x) (rest a)) →
              Forall (entry_ok I f) (<[i := (x, rest a, b')]> es)) as Hins.
    { intros a b' Hrest. by apply Forall_insert. }
    assert (∀ (a : A) (b' : bool), <[i := rest a]> ((λ e, e.1.2) <$> es)
                 = (λ e, e.1.2) <$> <[i := (x, rest a, b')]> es) as Hfmap.
    { intros a b'. by rewrite list_fmap_insert. }
    destruct b; simpl in *.
    + (* after its write, the task only reads *)
      assert (∃ a, (∀ s, I s → segment s = Ok (a, s)) ∧ runs_as I Ok (rest a))
        as (a & Hseg & Hrest).
      { destruct He as [?|(a & Hseg & Hrest)]; [done|]. by exists a. }
      rewrite Hseg, (Hfmap a true) by done.
      destruct (IH (<[i := (x, rest a, true)]> es) s) as (xs' & Hperm & ->);
        [by apply (Hins a true) | done |].
      exists xs'. split; [|done].
      by rewrite Hperm, (omap_insert_Permutation unwritten), Hdel.
    + destruct He as [(a & Hseg & Hrest)|(a & Hseg & Hrest)]; rewrite Hseg by done.
      * (* a read before the write *)
        rewrite (Hfmap a false).
        destruct (IH (<[i := (x, rest a, false)]> es) s) as (xs' & Hperm & ->);
          [by apply (Hins a false) | done |].
        exists xs'. split; [|done].
        by rewrite Hperm, (omap_insert_Permutation unwritten), Hdel.
      * (* the write *)
        destruct (f x s) as [s'|e] eqn:Hf; simpl.
        -- rewrite (Hfmap a true).
           destruct (IH (<[i := (x, rest a, true)]> es) s') as (xs' & Hperm & ->);
             [by apply (Hins a true) | by eauto |].
           exists (x :: xs'). split; [|simpl; by rewrite Hf].
           by rewrite Hperm, (omap_insert_Permutation unwritten), Hdel.
        -- exists (x :: omap unwritten (delete i es)). split; [by rewrite Hdel|].
           simpl. by rewrite Hf.
Qed.

Lemma promise_all_single_write (tk : X → task S) sched (xs : list X) s :
  Forall (λ x, runs_as I (f x) (tk x)) xs → I s →
  ∃ xs', xs' ≡ₚ xs ∧ promise_all sched (tk <$> xs) s = run_seq (f <$> xs') s.
Proof using f_keeps.
  intros Hxs Hs.
  destruct (promise_all_entries sched ((λ x, (x, tk x, false)) <$> xs) s)
    as (xs' & Hperm & Hrun); [|done|].
  { apply Forall_fmap. by eapply Forall_impl. }
  exists xs'. split.
  - rewrite Hperm. clear. induction xs as [|x xs IH]; simpl; by rewrite ?IH.
  - rewrite <- Hrun, <- list_fmap_compose. done.
Qed.
End single_write.

Lemma delete_insert_same {Y} (ys : list Y) i y : delete i (<[i := y]> ys) = delete i ys.
Proof.
  induction ys as [|y' ys IH] in i |- *; [done|].
  destruct i as [|i]; simpl; [done|]. by rewrite IH.
Qed.

Section realise.
Context {X : Type} (I : S → Prop) (f : X → S → result S).
Hypothesis f_keeps : ∀ x s s', I s → f x s = Ok s' → I s'.

(** Resumed again and again, a task runs to its end. *)
Lemma promise_all_one (g : S → result S) t pending i s :
  (∀ s s', I s → g s = Ok s' → I s') →
  pending !! i = Some t → runs_as I g t → I s →
  ∃ k, ∀ sched,
    promise_all (replicate k i ++ sched) pending s =
      s' ← g s; promise_all sched (delete i pending) s'.
Proof using Type.
  intros Hkeep Hi Ht Hs.
  induction t as [|A segment rest IH] in g, pending, s, Hkeep, Hi, Ht, Hs |- *.
  - exists 1. intros sched. simpl in *.
    rewrite Nat.mod_small by (by eapply lookup_lt_Some).
    rewrite Hi. by rewrite Ht.
  - assert (i `mod` length pending = i) as Hmod.
    { apply Nat.mod_small. by eapply lookup_lt_Some. }
    assert (∀ a, <[i := rest a]> pending !! i = Some (rest a)) as Hins.
    { intros a. apply list_lookup_insert_eq. by eapply lookup_lt_Some. }
    destruct Ht as [(a & Hseg & Hrest)|(a & Hseg & Hrest)].
    + destruct (IH a g (<[i := rest a]> pending) s Hkeep (Hins a) Hrest Hs) as [k Hk].
      exists (Datatypes.S k). intros sched. simpl.
      rewrite Hmod, Hi, Hseg by done. rewrite Hk.
      by rewrite delete_insert_same.
    + destruct (g s) as [s'|e] eqn:Hg.
      * destruct (IH a Ok (<[i := rest a]> pending) s') as [k Hk];
          [by intros ?? ? [= <-] | apply Hins | done | by eapply Hkeep |].
        exists (Datatypes.S k). intros sched. simpl.
        rewrite Hmod, Hi, Hseg, Hg by done. simpl. rewrite Hk. simpl.
        by rewrite delete_insert_same.
      * exists 1. intros sched. simpl. rewrite Hmod, Hi, Hseg, Hg by done. done.
Qed.

(** Every order of the writes is the order of some schedule. *)
Lemma promise_all_realises (tk : X → task S) (xs xs' : list X) s :
  Forall (λ x, runs_as I (f x) (tk x)) xs → I s → xs' ≡ₚ xs →
  ∃ sched, promise_all sched (tk <$> xs) s = run_seq (f <$> xs') s.
Proof using f_keeps.
  induction xs' as [|x xs' IH] in xs, s |- *; intros Hxs Hs Hperm.
  { symmetry in Hperm. apply Permutation_nil_r in Hperm as ->. by exists []. }
  assert (x ∈ xs) as [i Hi]%list_elem_of_lookup_1.
  { rewrite <- Hperm. apply elem_of_cons. by left. }
  assert (xs' ≡ₚ delete i xs) as Hperm'.
  { apply (Permutation_cons_inv (a := x)). by rewrite Hperm, <- delete_Permutation. }
  destruct (promise_all_one (f x) (tk x) (tk <$> xs) i s) as [k Hk].
  - apply f_keeps.
  - by rewrite list_lookup_fmap, Hi.
  - by eapply Forall_lookup_1 in Hxs.
  - done.
  - simpl. destruct (f x s) as [s'|e] eqn:Hf.
    + destruct (IH (delete i xs) s') as [sched Hsched];
        [by apply Forall_delete | by eapply f_keeps | done |].
      exists (replicate k i ++ sched). rewrite Hk. simpl.
      by rewrite <- list_fmap_delete.
    + exists (replicate k i ++ []). by rewrite Hk.
Qed.
End realise.
End Scheduling.

(** ** ParamBinder and URLSearchParams facts *)

Section Facts.
Context {TModel : Type}.
Implicit Types (this : ModelBinder TModel) (pb : ParamBinder TModel).
Implicit Types (h : heap TModel) (ps : URLSearchParams) (m : TModel).

Lemma parseUrlParamValue_valid pb value allParams :
  isUrlParamValid pb value allParams = true →
  parseUrlParamValue pb value allParams = value.
Proof. unfold parseUrlParamValue. by intros ->. Qed.

Lemma usp_get_is_Some key ps : key ∈ usp_keys ps → is_Some (usp_get key ps).
Proof.
  unfold usp_keys. induction ps as [|[k v] ps IH]; simpl.
  - by intros ?%elem_of_nil.
  - intros [->|Hin]%elem_of_cons; case_decide; eauto. done.
Qed.

Lemma usp_get_elem_of key value ps : usp_get key ps = Some value → (key, value) ∈ ps.
Proof.
  induction ps as [|[k v] ps IH]; simpl; [done|].
  case_decide as Hk.
  - intros [= ->]. subst. apply elem_of_cons. by left.
  - intros ?. apply elem_of_cons. right. by apply IH.
Qed.

Lemma usp_get_keys key value ps : usp_get key ps = Some value → key ∈ usp_keys ps.
Proof.
  intros Hget%usp_get_elem_of. unfold usp_keys.
  by apply (list_elem_of_fmap_2 fst) in Hget.
Qed.

Lemma usp_get_delete_ne key key' ps :
  key ≠ key' → usp_get key (usp_delete key' ps) = usp_get key ps.
Proof.
  intros Hne. unfold usp_delete.
  induction ps as [|[k v] ps IH]; [done|].
  rewrite filter_cons. simpl. repeat case_decide; subst; simpl; try done.
  - by rewrite decide_True.
  - by rewrite decide_False.
Qed.

Lemma usp_get_set_eq key value ps : usp_get key (usp_set key value ps) = Some value.
Proof.
  induction ps as [|[k v] ps IH]; simpl.
  - by rewrite decide_True.
  - case_decide; simpl; [by rewrite decide_True | by rewrite decide_False].
Qed.

Lemma usp_get_set_ne key key' value ps :
  key ≠ key' → usp_get key (usp_set key' value ps) = usp_get key ps.
Proof.
  intros Hne. induction ps as [|[k v] ps IH]; simpl.
  - by rewrite decide_False.
  - destruct (decide (k = key')) as [->|Hk]; simpl.
    + rewrite !decide_False by done. by apply usp_get_delete_ne.
    + case_decide; [done | apply IH].
Qed.

Lemma elem_of_usp_set p key value ps :
  p ∈ usp_set key value ps → p = (key, value) ∨ p ∈ ps.
Proof.
  induction ps as [|[k v] ps IH]; simpl.
  - intros ->%list_elem_of_singleton. by left.
  - case_decide.
    + intros [->|Hin]%elem_of_cons; [by left|]. right.
      apply list_elem_of_filter in Hin as [_ Hin]. apply elem_of_cons. by right.
    + intros [->|Hin]%elem_of_cons; [right; apply elem_of_cons; by left|].
      destruct (IH Hin) as [->|Hps]; [by left|]. right. apply elem_of_cons. by right.
Qed.

Lemma find_binder_Some this key pb :
  find_binder this key = Some pb → pb ∈ paramBinders this ∧ urlParamName pb = key.
Proof.
  unfold find_binder. destruct (list_find _ _) as [[i pb']|] eqn:Hfind; [|done].
  simpl. intros [= ->]. apply list_find_Some in Hfind as (Hi & Hname & _).
  split; [by eapply list_elem_of_lookup_2 | done].
Qed.

Lemma find_binder_None this key : find_binder this key = None ↔ key ∉ names this.
Proof.
  unfold find_binder, names. rewrite fmap_None, list_find_None, list_elem_of_fmap.
  rewrite Forall_forall. split.
  - intros Hall (pb & -> & Hin). by apply (Hall pb).
  - intros Hnot pb Hin Hname. apply Hnot. by exists pb.
Qed.

Lemma find_binder_registered this key : key ∈ names this → is_Some (find_binder this key).
Proof.
  intros Hin. destruct (find_binder this key) eqn:Hfind; [done|].
  by apply find_binder_None in Hfind.
Qed.

(** With distinct names, a registered binder is the one its name finds. *)
Lemma find_binder_NoDup this pb :
  NoDup (names this) → pb ∈ paramBinders this →
  find_binder this (urlParamName pb) = Some pb.
Proof.
  unfold find_binder, names. intros Hnodup Hin.
  apply list_elem_of_lookup_1 in Hin as [i Hi].
  destruct (list_find _ _) as [[j pb']|] eqn:Hfind; simpl.
  - apply list_find_Some in Hfind as (Hj & Hname & _). f_equal.
    assert (i = j) as ->; [|congruence].
    eapply NoDup_lookup; [done| |]; rewrite list_lookup_fmap.
    + by rewrite Hi.
    + rewrite Hj. simpl. by rewrite Hname.
  - apply list_find_None in Hfind. rewrite Forall_forall in Hfind.
    exfalso. eapply Hfind; [by eapply list_elem_of_lookup_2 | done].
Qed.
End Facts.

(** ** The phases of decode, in sequence *)

Section Phases.
Context {TModel : Type}.
Implicit Types (this : ModelBinder TModel) (pb : ParamBinder TModel).
Implicit Types (h : heap TModel) (ps nps : URLSearchParams) (m : TModel).
Implicit Types (os : list TModel) (pss : list URLSearchParams) (u : list exn).
Implicit Types (pbs : list (ParamBinder TModel)).

#[local] Arguments setToModel : simpl never.
#[local] Arguments update_params : simpl never.

Lemma setToModel_object pb l value os pss u m :
  os !! l = Some m →
  setToModel pb (JObject l) value (Heap os pss u) =
    Ok (Heap (<[l := setValueToModelFunc pb m value]> os) pss u).
Proof. intros Hl. unfold setToModel, deref_object. simpl. by rewrite Hl. Qed.

Lemma update_params_object l f os pss u ps :
  pss !! l = Some ps →
  update_params l f (Heap os pss u) = Ok (Heap os (<[l := f ps]> pss) u).
Proof. intros Hl. unfold update_params, deref_params. simpl. by rewrite Hl. Qed.

Lemma lookup_insert_same {X} (xs : list X) l x y :
  xs !! l = Some x → <[l := y]> xs !! l = Some y.
Proof. intros Hl. apply list_lookup_insert_eq. by eapply lookup_lt_Some. Qed.

Lemma default_step_object this ps lm key os pss u flag m :
  key ∈ names this → os !! lm = Some m →
  default_step this ps (JObject lm) key (Shared (Heap os pss u) flag) =
    Ok (Shared (Heap (<[lm := assign_default this ps m key]> os) pss u) flag).
Proof.
  intros Hkey Hlm. unfold default_step, assign_default.
  destruct (find_binder_registered this key Hkey) as [pb ->]. simpl.
  by rewrite (setToModel_object _ _ _ _ _ _ m).
Qed.

Lemma run_default_steps this ps lm keys os pss u flag m :
  Forall (λ key, key ∈ names this) keys → os !! lm = Some m →
  run_seq (default_step this ps (JObject lm) <$> keys) (Shared (Heap os pss u) flag) =
    Ok (Shared (Heap (<[lm := foldl (assign_default this ps) m keys]> os) pss u) flag).
Proof.
  induction keys as [|key keys IH] in os, m |- *; simpl; intros Hkeys Hlm.
  { by rewrite list_insert_id. }
  apply Forall_cons in Hkeys as [Hkey Hkeys].
  rewrite (default_step_object _ _ _ _ _ _ _ _ m) by done. simpl.
  erewrite IH; [|done|by eapply lookup_insert_same].
  by rewrite list_insert_insert_eq.
Qed.

Lemma param_step_object this ps lm ln key os pss u flag m nps :
  os !! lm = Some m → pss !! ln = Some nps →
  param_step this ps (JObject lm) ln key (Shared (Heap os pss u) flag) =
    Ok (Shared (Heap (<[lm := assign_param this ps m key]> os)
                     (<[ln := purge this ps nps [key]]> pss) u)
               (flag || key_invalid this ps key)).
Proof.
  intros Hlm Hln.
  unfold param_step, assign_param, purge, key_invalid. simpl.
  destruct (find_binder this key) as [pb|];
    [|by rewrite !list_insert_id, orb_false_r].
  destruct (usp_get key ps) as [value|];
    [|by rewrite !list_insert_id, orb_false_r].
  destruct (isUrlParamValid pb value (Some ps)) eqn:Hvalid; simpl.
  - rewrite parseUrlParamValue_valid by done.
    rewrite (setToModel_object _ _ _ _ _ _ m) by done.
    by rewrite (list_insert_id pss), orb_false_r.
  - rewrite (update_params_object _ _ _ _ _ nps) by done. simpl.
    by rewrite (list_insert_id os), orb_true_r.
Qed.

Lemma run_param_steps this ps lm ln keys os pss u flag m nps :
  os !! lm = Some m → pss !! ln = Some nps →
  run_seq (param_step this ps (JObject lm) ln <$> keys) (Shared (Heap os pss u) flag) =
    Ok (Shared (Heap (<[lm := foldl (assign_param this ps) m keys]> os)
                     (<[ln := purge this ps nps keys]> pss) u)
               (flag || existsb (key_invalid this ps) keys)).
Proof.
  induction keys as [|key keys IH] in os, pss, m, nps, flag |- *; simpl;
    intros Hlm Hln.
  { by rewrite !list_insert_id, orb_false_r. }
  rewrite (param_step_object _ _ _ _ _ _ _ _ _ m nps) by done. simpl.
  erewrite IH; [|by eapply lookup_insert_same..].
  by rewrite !list_insert_insert_eq, orb_assoc.
Qed.

Lemma purge_filter this ps nps keys :
  purge this ps nps keys =
    filter (λ p, ¬ (p.1 ∈ keys ∧ key_invalid this ps p.1 = true)) nps.
Proof.
  unfold purge. induction keys as [|key keys IH] in nps |- *; simpl.
  - induction nps as [|p nps IHn]; [done|].
    rewrite filter_cons_True; [by rewrite <- IHn|].
    by intros [?%elem_of_nil _].
  - rewrite IH. destruct (key_invalid this ps key) eqn:Hinv.
    + unfold usp_delete. rewrite list_filter_filter. apply list_filter_iff.
      intros [k v]. simpl. rewrite elem_of_cons.
      split; [intros [Hkeys Hne] [[->|Hin] Hk]; tauto|].
      intros Hnot. split; [tauto|]. intros ->. tauto.
    + apply list_filter_iff. intros [k v]. simpl. rewrite elem_of_cons.
      split; [intros Hnot [[->|Hin] Hk]; [congruence|tauto] | tauto].
Qed.

Lemma purge_covered this ps nps keys :
  (∀ p, p ∈ nps → p.1 ∈ keys) →
  purge this ps nps keys = filter (λ p, key_invalid this ps p.1 = false) nps.
Proof.
  intros Hin. rewrite purge_filter.
  induction nps as [|p nps IH]; [done|].
  rewrite !filter_cons.
  assert (p.1 ∈ keys) as Hp by (apply Hin, elem_of_cons; by left).
  rewrite IH by (intros q Hq; apply Hin, elem_of_cons; by right).
  destruct (key_invalid this ps p.1) eqn:Hinv.
  - rewrite decide_False by tauto. by rewrite decide_False.
  - rewrite decide_True by (intros [_ ?]; congruence). by rewrite decide_True.
Qed.

(** Once every key has had its task, [newParams] is the input without the
    pairs of the invalid keys. *)
Lemma purge_all this ps keys :
  keys ≡ₚ usp_keys ps →
  purge this ps ps keys = filter (λ p, key_invalid this ps p.1 = false) ps.
Proof.
  intros Hperm. apply purge_covered. intros p Hp.
  rewrite Hperm. unfold usp_keys. by apply list_elem_of_fmap_2.
Qed.

Lemma reset_step_object ps ln pb os pss u nps :
  pss !! ln = Some nps →
  reset_step ps ln pb (Heap os pss u) = Ok (Heap os (<[ln := reset_key ps nps pb]> pss) u).
Proof.
  intros Hln. unfold reset_step. by rewrite (update_params_object _ _ _ _ _ nps).
Qed.

Lemma run_reset_steps ps ln pbs os pss u nps :
  pss !! ln = Some nps →
  run_seq (reset_step ps ln <$> pbs) (Heap os pss u) =
    Ok (Heap os (<[ln := foldl (reset_key ps) nps pbs]> pss) u).
Proof.
  induction pbs as [|pb pbs IH] in pss, nps |- *; simpl; intros Hln.
  { by rewrite list_insert_id. }
  rewrite (reset_step_object _ _ _ _ _ _ nps) by done. simpl.
  erewrite IH; [|by eapply lookup_insert_same].
  by rewrite list_insert_insert_eq.
Qed.

Lemma usp_get_reset_other ps nps pbs key :
  key ∉ urlParamName <$> pbs →
  usp_get key (foldl (reset_key ps) nps pbs) = usp_get key nps.
Proof.
  induction pbs as [|pb pbs IH] in nps |- *; simpl; [done|].
  rewrite not_elem_of_cons. intros [Hne Hnot].
  rewrite IH by done. unfold reset_key. by apply usp_get_set_ne.
Qed.

(** After the reset every binder's key holds its default. *)
Lemma usp_get_reset ps nps pbs pb :
  NoDup (urlParamName <$> pbs) → pb ∈ pbs →
  usp_get (urlParamName pb) (foldl (reset_key ps) nps pbs)
    = Some (getDefaultParamValue pb (Some ps)).
Proof.
  induction pbs as [|pb' pbs IH] in nps |- *; simpl.
  { by intros _ ?%elem_of_nil. }
  rewrite NoDup_cons. intros [Hnot Hnodup] [->|Hin]%elem_of_cons.
  - rewrite usp_get_reset_other by done. unfold reset_key. apply usp_get_set_eq.
  - by apply IH.
Qed.

Lemma existsb_Permutation {X} (f : X → bool) (xs ys : list X) :
  xs ≡ₚ ys → existsb f xs = existsb f ys.
Proof.
  induction 1 as [|x xs ys _ IH|x y xs|xs ys zs _ IH1 _ IH2]; simpl.
  - done.
  - by rewrite IH.
  - by destruct (f x), (f y).
  - congruence.
Qed.

Lemma insert_snoc {X} (xs : list X) x y :
  <[length xs := y]> (xs ++ [x]) = (xs ++ [y]).
Proof. rewrite insert_app_r_alt by done. by rewrite Nat.sub_diag. Qed.

Lemma lookup_snoc {X} (xs : list X) x : (xs ++ [x]) !! length xs = Some x.
Proof. by apply list_lookup_middle. Qed.

(** Writes to the model or to another parameter set leave the content of
    [urlParams] as it is. *)
Lemma setToModel_params pb model value h h' :
  setToModel pb model value h = Ok h' → paramObjects h' = paramObjects h.
Proof.
  unfold setToModel. destruct model as [| | |l]; try done.
  unfold deref_object. destruct (objects h !! l); simpl; [|done]. by intros [= <-].
Qed.

Lemma update_params_other l l' f h h' :
  update_params l f h = Ok h' → l' ≠ l → paramObjects h' !! l' = paramObjects h !! l'.
Proof.
  unfold update_params, deref_params. destruct (paramObjects h !! l); simpl; [|done].
  intros [= <-] Hne. simpl. by apply list_lookup_insert_ne.
Qed.

Lemma default_step_keeps this ps ps' lp model key s s' :
  paramObjects (sh_heap s) !! lp = Some ps →
  default_step this ps' model key s = Ok s' →
  paramObjects (sh_heap s') !! lp = Some ps.
Proof.
  unfold default_step. intros Hlp. destruct (find_binder this key) as [pb|]; [|done].
  destruct (setToModel pb model _ (sh_heap s)) as [h|e] eqn:Hset; simpl; [|done].
  intros [= <-]. simpl. by rewrite (setToModel_params _ _ _ _ _ Hset).
Qed.

Lemma param_step_keeps this ps ps' lp model ln key s s' :
  lp ≠ ln → paramObjects (sh_heap s) !! lp = Some ps →
  param_step this ps' model ln key s = Ok s' →
  paramObjects (sh_heap s') !! lp = Some ps.
Proof.
  unfold param_step. intros Hne Hlp.
  destruct (find_binder this key) as [pb|]; [|by intros [= <-]].
  destruct (usp_get key ps') as [value|]; [|by intros [= <-]].
  destruct (isUrlParamValid pb value (Some ps')).
  - destruct (setToModel pb model _ (sh_heap s)) as [h|e] eqn:Hset;
      intros [= <-]; simpl; [|done].
    by rewrite (setToModel_params _ _ _ _ _ Hset).
  - destruct (update_params ln _ (sh_heap s)) as [h|e] eqn:Hupd; simpl; [|done].
    intros [= <-]. simpl. by rewrite (update_params_other _ _ _ _ _ Hupd).
Qed.

Lemma reset_step_keeps ps ps' lp ln pb h h' :
  lp ≠ ln → paramObjects h !! lp = Some ps →
  reset_step ps' ln pb h = Ok h' → paramObjects h' !! lp = Some ps.
Proof.
  unfold reset_step. intros Hne Hlp Hupd.
  by rewrite (update_params_other _ _ _ _ _ Hupd).
Qed.

(** While the content of [urlParams] is [ps], the tasks of decode run as
    their writes. *)
Lemma defaultTask_runs_as this lp ps model key :
  runs_as (λ s, paramObjects (sh_heap s) !! lp = Some ps)
    (default_step this ps model key) (defaultTask this lp model key).
Proof.
  unfold defaultTask, default_step.
  destruct (find_binder this key) as [pb|]; simpl.
  - left. exists (getDefaultParamValue pb (Some ps)). split.
    { intros s Hs. unfold deref_params. by rewrite Hs. }
    right. by exists ().
  - right. by exists ().
Qed.

Lemma paramTask_runs_as this lp ps model ln key :
  runs_as (λ s, paramObjects (sh_heap s) !! lp = Some ps)
    (param_step this ps model ln key) (paramTask this lp model ln key).
Proof.
  unfold paramTask, param_step.
  destruct (find_binder this key) as [pb|]; simpl; [|done].
  left. exists ((λ value, isUrlParamValid pb value (Some ps)) <$> usp_get key ps).
  split.
  { intros s Hs. unfold deref_params. by rewrite Hs. }
  destruct (usp_get key ps) as [value|] eqn:Hget; simpl; [|done].
  destruct (isUrlParamValid pb value (Some ps)); simpl.
  - left. exists (Some (parseUrlParamValue pb value (Some ps))). split.
    { intros s Hs. unfold deref_params. rewrite Hs. simpl. by rewrite Hget. }
    simpl. right. by exists ().
  - right. by exists ().
Qed.

Lemma resetTask_runs_as lp ps ln pb :
  runs_as (λ h : heap TModel, paramObjects h !! lp = Some ps)
    (reset_step ps ln pb) (resetTask lp ln pb).
Proof.
  unfold resetTask, reset_step. simpl.
  left. exists (getDefaultParamValue pb (Some ps)). split.
  { intros h Hh. unfold deref_params. by rewrite Hh. }
  right. by exists ().
Qed.

(** The two key phases of decode, whatever the schedules: the model takes
    the assignments of the absent keys and then those of the present keys,
    each in some order; [newParams] loses the invalid keys; [hasErrors]
    tells whether there was one. *)
Lemma decode_keys_spec sc this lp ps lm ln os pss u m0 :
  os !! lm = Some m0 → pss !! ln = Some ps → pss !! lp = Some ps → lp ≠ ln →
  ∃ keys1 keys2,
    keys1 ≡ₚ filter (λ key, key ∉ usp_keys ps) (names this) ∧
    keys2 ≡ₚ usp_keys ps ∧
    decode_keys sc this lp (usp_keys ps) (JObject lm) ln (Heap os pss u) =
      Ok (Shared
            (Heap (<[lm := foldl (assign_param this ps)
                             (foldl (assign_default this ps) m0 keys1) keys2]> os)
                  (<[ln := filter (λ p, key_invalid this ps p.1 = false) ps]> pss) u)
            (existsb (key_invalid this ps) (usp_keys ps))).
Proof.
  intros Hlm Hln Hlp Hne. unfold decode_keys.
  set (I := λ s : shared TModel, paramObjects (sh_heap s) !! lp = Some ps).
  destruct (promise_all_single_write I (default_step this ps (JObject lm))
              (default_step_keeps this ps ps lp (JObject lm))
              (defaultTask this lp (JObject lm)) (sched_defaults sc)
              (filter (λ key, key ∉ usp_keys ps) (urlParamName <$> paramBinders this))
              (Shared (Heap os pss u) false))
    as (keys1 & Hperm1 & ->); [|done|].
  { apply Forall_forall. intros key _. apply defaultTask_runs_as. }
  rewrite (run_default_steps _ _ _ _ _ _ _ _ m0); [|clear -Hperm1|done].
  2:{ apply Forall_forall. intros key. rewrite Hperm1.
      by intros [_ ?]%list_elem_of_filter. }
  simpl.
  destruct (promise_all_single_write I (param_step this ps (JObject lm) ln)
              (λ key s s', param_step_keeps this ps ps lp (JObject lm) ln key s s' Hne)
              (paramTask this lp (JObject lm) ln) (sched_params sc) (usp_keys ps)
              (Shared (Heap (<[lm := foldl (assign_default this ps) m0 keys1]> os) pss u)
                      false))
    as (keys2 & Hperm2 & ->); [|done|].
  { apply Forall_forall. intros key _. apply paramTask_runs_as. }
  exists keys1, keys2. split; [done|]. split; [done|].
  erewrite run_param_steps; [|by eapply lookup_insert_same|done].
  rewrite list_insert_insert_eq, purge_all by done. simpl.
  by rewrite (existsb_Permutation _ _ _ Hperm2).
Qed.

(** The two key phases of decode complete in every order, under some
    schedule. *)
Lemma decode_keys_realises this lp ps lm ln os pss u m0 keys1 keys2 sr :
  os !! lm = Some m0 → pss !! ln = Some ps → pss !! lp = Some ps → lp ≠ ln →
  keys1 ≡ₚ filter (λ key, key ∉ usp_keys ps) (names this) →
  keys2 ≡ₚ usp_keys ps →
  ∃ sd sp,
    decode_keys {| sched_defaults := sd; sched_params := sp; sched_reset := sr |}
      this lp (usp_keys ps) (JObject lm) ln (Heap os pss u) =
      Ok (Shared
            (Heap (<[lm := foldl (assign_param this ps)
                             (foldl (assign_default this ps) m0 keys1) keys2]> os)
                  (<[ln := filter (λ p, key_invalid this ps p.1 = false) ps]> pss) u)
            (existsb (key_invalid this ps) (usp_keys ps))).
Proof.
  intros Hlm Hln Hlp Hne Hperm1 Hperm2. unfold decode_keys. simpl.
  set (I := λ s : shared TModel, paramObjects (sh_heap s) !! lp = Some ps).
  destruct (promise_all_realises I (default_step this ps (JObject lm))
              (default_step_keeps this ps ps lp (JObject lm))
              (defaultTask this lp (JObject lm))
              (filter (λ key, key ∉ usp_keys ps) (urlParamName <$> paramBinders this))
              keys1 (Shared (Heap os pss u) false))
    as (sd & Hsd); [|done|done|].
  { apply Forall_forall. intros key _. apply defaultTask_runs_as. }
  destruct (promise_all_realises I (param_step this ps (JObject lm) ln)
              (λ key s s', param_step_keeps this ps ps lp (JObject lm) ln key s s' Hne)
              (paramTask this lp (JObject lm) ln) (usp_keys ps) keys2
              (Shared (Heap (<[lm := foldl (assign_default this ps) m0 keys1]> os) pss u)
                      false))
    as (sp & Hsp); [|done|done|].
  { apply Forall_forall. intros key _. apply paramTask_runs_as. }
  exists sd, sp. rewrite Hsd.
  rewrite (run_default_steps _ _ _ _ _ _ _ _ m0); [|clear -Hperm1|done].
  2:{ apply Forall_forall. intros key. rewrite Hperm1.
      by intros [_ ?]%list_elem_of_filter. }
  simpl. rewrite Hsp.
  erewrite run_param_steps; [|by eapply lookup_insert_same|done].
  rewrite list_insert_insert_eq, purge_all by done. simpl.
  by rewrite (existsb_Permutation _ _ _ Hperm2).
Qed.
End Phases.

(** ** Decode as a whole *)

Section Decode.
Context {TModel : Type} (emptyObject : TModel).
Implicit Types (this : ModelBinder TModel) (pb : ParamBinder TModel).
Implicit Types (h : heap TModel) (ps nps : URLSearchParams) (m : TModel).

Lemma own_model_spec model h :
  model_ok model h →
  own_model emptyObject model h =
    Ok (JObject (length (objects h)),
        Heap (objects h ++ [own_content emptyObject model h]) (paramObjects h)
             (unhandledRejections h)).
Proof.
  destruct model as [| | |l]; simpl; try done.
  intros [m Hm]. unfold structuredClone, deref_object. by rewrite Hm.
Qed.

(** Decode of a parameter set of the heap returns, and what it returns is
    [decode_outcome] for some orders of completion of its tasks. *)
Lemma decode_spec sc this lp model h ps :
  paramObjects h !! lp = Some ps → model_ok model h →
  ∃ keys1 keys2 pbs,
    keys1 ≡ₚ filter (λ key, key ∉ usp_keys ps) (names this) ∧
    keys2 ≡ₚ usp_keys ps ∧
    pbs ≡ₚ paramBinders this ∧
    getModelFromUrlParams emptyObject sc this (Some lp) model h =
      Ok (decode_outcome emptyObject this ps model h keys1 keys2 pbs) ∧
    assembled_model emptyObject sc this (Some lp) model h =
      Ok (assembled emptyObject this ps model h keys1 keys2).
Proof.
  intros Hlp Hmodel.
  unfold getModelFromUrlParams, assembled_model, deref_params.
  rewrite Hlp, own_model_spec by done. simpl.
  destruct h as [os pss u]. unfold set_paramObjects. simpl in *.
  set (m0 := own_content emptyObject model _).
  assert (lp < length pss) as Hlt by (by eapply lookup_lt_Some).
  destruct (decode_keys_spec sc this lp ps (length os) (length pss)
              (os ++ [m0]) (pss ++ [ps]) u m0) as (keys1 & keys2 & H1 & H2 & ->);
    [apply lookup_snoc..|by apply lookup_app_l_Some|lia|].
  rewrite !insert_snoc. simpl.
  enough (∃ pbs, pbs ≡ₚ paramBinders this ∧
            _ = Ok (decode_outcome _ _ _ _ _ keys1 keys2 pbs) ∧
            _ = Ok (assembled _ _ _ _ _ keys1 keys2))
    as (pbs & ? & ? & ?) by (by exists keys1, keys2, pbs).
  unfold decode_outcome, assembled. fold m0. simpl.
  set (m := foldl _ (foldl _ m0 keys1) keys2).
  unfold deref_object. simpl. rewrite lookup_snoc. simpl.
  destruct (existsb (key_invalid this ps) (usp_keys ps)).
  { by exists (paramBinders this). }
  fold (inconsistent this m). destruct (inconsistent this m).
  - destruct (promise_all_single_write
                (λ h : heap TModel, paramObjects h !! lp = Some ps)
                (reset_step ps (length pss))
                (λ pb h h', reset_step_keeps ps ps lp (length pss) pb h h'
                              ltac:(lia))
                (resetTask lp (length pss)) (sched_reset sc) (paramBinders this)
                (Heap (os ++ [m]) (pss ++ [filter (λ p, key_invalid this ps p.1 = false) ps]) u))
      as (pbs & Hperm & ->); [|by apply lookup_app_l_Some|].
    { apply Forall_forall. intros pb _. apply resetTask_runs_as. }
    erewrite run_reset_steps by apply lookup_snoc.
    rewrite insert_snoc. simpl. by exists pbs.
  - by exists (paramBinders this).
Qed.

(** Every outcome of decode is the outcome under some schedule. *)
Lemma decode_realises this lp mdl h ps keys1 keys2 pbs :
  paramObjects h !! lp = Some ps → model_ok mdl h →
  keys1 ≡ₚ filter (λ key, key ∉ usp_keys ps) (names this) →
  keys2 ≡ₚ usp_keys ps → pbs ≡ₚ paramBinders this →
  ∃ sc,
    getModelFromUrlParams emptyObject sc this (Some lp) mdl h =
      Ok (decode_outcome emptyObject this ps mdl h keys1 keys2 pbs).
Proof.
  intros Hlp Hmodel H1 H2 H3.
  destruct h as [os pss u]. simpl in *.
  set (m0 := own_content emptyObject mdl (Heap os pss u)).
  set (m := foldl (assign_param this ps) (foldl (assign_default this ps) m0 keys1) keys2).
  set (kept := filter (λ p, key_invalid this ps p.1 = false) ps).
  assert (lp < length pss) as Hlt by (by eapply lookup_lt_Some).
  destruct (promise_all_realises
              (λ h : heap TModel, paramObjects h !! lp = Some ps)
              (reset_step ps (length pss))
              (λ pb h h', reset_step_keeps ps ps lp (length pss) pb h h'
                            ltac:(lia))
              (resetTask lp (length pss)) (paramBinders this) pbs
              (Heap (os ++ [m]) (pss ++ [kept]) u))
    as (sr & Hsr); [|by apply lookup_app_l_Some|done|].
  { apply Forall_forall. intros pb _. apply resetTask_runs_as. }
  destruct (decode_keys_realises this lp ps (length os) (length pss)
              (os ++ [m0]) (pss ++ [ps]) u m0 keys1 keys2 sr)
    as (sd & sp & Hkeys);
    [apply lookup_snoc..|by apply lookup_app_l_Some|lia|done|done|].
  exists {| sched_defaults := sd; sched_params := sp; sched_reset := sr |}.
  unfold getModelFromUrlParams, deref_params. simpl.
  rewrite Hlp, own_model_spec by done. simpl.
  unfold set_paramObjects. simpl. fold m0. rewrite Hkeys. simpl.
  rewrite !insert_snoc. unfold decode_outcome, assembled. fold m0 m kept. simpl.
  unfold deref_object. simpl. rewrite lookup_snoc. simpl.
  destruct (existsb (key_invalid this ps) (usp_keys ps)); [done|].
  fold (inconsistent this m). destruct (inconsistent this m); [|done].
  rewrite Hsr. erewrite run_reset_steps by apply lookup_snoc.
  by rewrite insert_snoc.
Qed.
End Decode.

(** ** Encode as a whole *)

Section Encode.
Context {TModel : Type}.
Implicit Types (this : ModelBinder TModel) (pb : ParamBinder TModel).
Implicit Types (h : heap TModel) (ps nps : URLSearchParams) (m : TModel).
Implicit Types (os : list TModel) (pss : list URLSearchParams) (u : list exn).
Implicit Types (pbs : list (ParamBinder TModel)).

#[local] Arguments update_params : simpl never.

(** A property [Q] of the parameter set that every write of a task keeps
    holds of the parameter set the tasks leave, and no task rejects. *)
Lemma encode_tasks_invariant (Q : URLSearchParams → Prop) lmod m l os pss u pbs sched nps0 :
  os !! lmod = Some m → pss !! l = Some nps0 → Q nps0 →
  (∀ pb nps nps', pb ∈ pbs → Q nps → Q nps' →
     getUrlParamValue pb m ≠ getDefaultParamValue pb (Some nps) →
     Q (usp_set (urlParamName pb) (getUrlParamValue pb m) nps')) →
  ∃ nps, Q nps ∧
    promise_all sched (encodeTask (JObject lmod) l <$> pbs) (Heap os pss u)
      = Ok (Heap os (<[l := nps]> pss) u).
Proof.
  intros Hm Hl HQ0 Hstep.
  destruct (promise_all_preserves
              (λ h', ∃ nps, Q nps ∧ h' = Heap os (<[l := nps]> pss) u)
              sched (encodeTask (JObject lmod) l <$> pbs) (Heap os pss u))
    as (h' & -> & nps & HQ & ->); [| |by eauto].
  - apply Forall_fmap, Forall_forall. intros pb Hpb h0 (nps0' & HQ0' & ->).
    eexists _, _. split.
    { simpl. unfold deref_object. simpl. by rewrite Hm. }
    split; [by eauto|].
    intros h' (nps & HQ & ->).
    eexists _, _. split.
    { unfold deref_params. simpl. by erewrite lookup_insert_same. }
    split; [by eauto|].
    apply preserves_atomic. intros h' (nps' & HQ' & ->).
    case_decide as Hne; [|by eauto].
    rewrite (update_params_object _ _ _ _ _ nps') by (by eapply lookup_insert_same).
    eexists. split; [done|]. eexists. split; [by apply (Hstep pb nps nps')|].
    by rewrite list_insert_insert_eq.
  - exists nps0. by rewrite list_insert_id.
Qed.

Lemma encode_Ok_inv sched this model sp h l h' :
  getUrlParamsFromModel sched this model sp h = Ok (l, h') →
  ∃ lmod m, model = JObject lmod ∧ objects h !! lmod = Some m ∧ params_ok sp h.
Proof.
  unfold getUrlParamsFromModel. destruct model as [| | |lmod]; simpl; try done.
  unfold deref_object. destruct (objects h !! lmod) as [m|] eqn:Hm; simpl; [|done].
  intros Henc. exists lmod, m. split; [done|]. split; [done|].
  destruct sp as [l0|]; simpl; [|done].
  unfold deref_params in Henc. destruct (paramObjects h !! l0); [by eexists|done].
Qed.

(** Encode of a model of the heap returns the parameter set it was given, or
    a new one, and changes nothing else; a property [Q] of the parameter
    set that every write keeps holds at the end. *)
Lemma encode_spec (Q : URLSearchParams → Prop) sched this lmod sp h m :
  objects h !! lmod = Some m → params_ok sp h →
  Q (supplied_content sp h) →
  (∀ pb nps nps', pb ∈ paramBinders this → Q nps → Q nps' →
     getUrlParamValue pb m ≠ getDefaultParamValue pb (Some nps) →
     Q (usp_set (urlParamName pb) (getUrlParamValue pb m) nps')) →
  ∃ nps, Q nps ∧
    getUrlParamsFromModel sched this (JObject lmod) sp h
      = Ok (encode_loc sp h, encode_heap sp h nps).
Proof.
  intros Hm Hsp HQ Hstep. unfold getUrlParamsFromModel. simpl.
  unfold deref_object. rewrite Hm. simpl. destruct h as [os pss u].
  destruct sp as [l0|]; simpl in *.
  - destruct Hsp as [nps0 Hl0]. unfold deref_params. simpl. rewrite Hl0 in *. simpl.
    destruct (encode_tasks_invariant Q lmod m l0 os pss u (paramBinders this) sched nps0)
      as (nps & HQnps & ->); [done..|].
    by exists nps.
  - unfold set_paramObjects. simpl.
    destruct (encode_tasks_invariant Q lmod m (length pss) os (pss ++ [[]]) u
                (paramBinders this) sched [])
      as (nps & HQnps & ->); [done|apply lookup_snoc|done..|].
    exists nps. by rewrite insert_snoc.
Qed.

Lemma emit_step_object m l pb os pss u nps :
  pss !! l = Some nps →
  emit_step m l pb (Heap os pss u) = Ok (Heap os (<[l := emit m nps pb]> pss) u).
Proof.
  intros Hl. unfold emit_step, emit. case_decide.
  - by rewrite (update_params_object _ _ _ _ _ nps).
  - by rewrite list_insert_id.
Qed.

Lemma run_emit_steps m l pbs os pss u nps :
  pss !! l = Some nps →
  run_seq (emit_step m l <$> pbs) (Heap os pss u)
    = Ok (Heap os (<[l := foldl (emit m) nps pbs]> pss) u).
Proof.
  induction pbs as [|pb pbs IH] in pss, nps |- *; simpl; intros Hl.
  { by rewrite list_insert_id. }
  rewrite (emit_step_object _ _ _ _ _ _ nps) by done. simpl.
  erewrite IH by (by eapply lookup_insert_same).
  by rewrite list_insert_insert_eq.
Qed.

(** When no default looks at [allParams], the tasks of encode write as
    [emit] does, binder after binder, in an order the schedule chooses. *)
Lemma encode_tasks_context_free lmod m l os pss u pbs sched nps0 :
  os !! lmod = Some m → pss !! l = Some nps0 →
  (∀ pb, pb ∈ pbs → ∀ c, getDefaultParamValue pb c = getDefaultParamValue pb None) →
  ∃ pbs', pbs' ≡ₚ pbs ∧
    promise_all sched (encodeTask (JObject lmod) l <$> pbs) (Heap os pss u)
      = Ok (Heap os (<[l := foldl (emit m) nps0 pbs']> pss) u).
Proof.
  intros Hm Hl Hfree.
  set (I := λ h' : heap TModel, ∃ nps, h' = Heap os (<[l := nps]> pss) u).
  assert (∀ pb h1 h2, I h1 → emit_step m l pb h1 = Ok h2 → I h2) as Hkeep.
  { intros pb h1 h2 (nps & ->).
    rewrite (emit_step_object _ _ _ _ _ _ nps) by (by eapply lookup_insert_same).
    intros [= <-]. rewrite list_insert_insert_eq. by eexists. }
  destruct (promise_all_single_write I (emit_step m l) Hkeep
              (encodeTask (JObject lmod) l) sched pbs (Heap os pss u))
    as (pbs' & Hperm & ->).
  - apply Forall_forall. intros pb Hpb. simpl.
    left. exists (getUrlParamValue pb m). split.
    { intros h' (nps & ->). simpl. unfold deref_object. simpl. by rewrite Hm. }
    left. exists (getDefaultParamValue pb None). split.
    { intros h' (nps & ->). unfold deref_params. simpl.
      erewrite lookup_insert_same by done. simpl. by rewrite Hfree. }
    right. by exists ().
  - exists nps0. by rewrite list_insert_id.
  - exists pbs'. split; [done|]. by apply run_emit_steps.
Qed.




End Encode.

(** ** What lawful accessors read in the assembled model *)

Section Reads.
Context {TModel : Type}.
Implicit Types (this : ModelBinder TModel) (pb : ParamBinder TModel).
Implicit Types (h : heap TModel) (ps nps : URLSearchParams) (m : TModel).

Lemma read_assign_default this ps m key pb :
  NoDup (names this) → accessors_lawful this → pb ∈ paramBinders this →
  getUrlParamValueFunc pb (assign_default this ps m key) =
    if decide (key = urlParamName pb) then Some (getDefaultParamValue pb (Some ps))
    else getUrlParamValueFunc pb m.
Proof.
  intros Hnodup [Hsame Hother] Hpb. unfold assign_default.
  destruct (decide (key = urlParamName pb)) as [->|Hne].
  - rewrite find_binder_NoDup by done. by apply Hsame.
  - destruct (find_binder this key) as [pb'|] eqn:Hfind; [|done].
    apply find_binder_Some in Hfind as [Hpb' <-]. by apply Hother.
Qed.

Lemma read_assign_param this ps m key pb :
  NoDup (names this) → accessors_lawful this → pb ∈ paramBinders this →
  getUrlParamValueFunc pb (assign_param this ps m key) =
    if decide (key = urlParamName pb) then
      match usp_get key ps with
      | Some value =>
          if isUrlParamValid pb value (Some ps) then Some value
          else getUrlParamValueFunc pb m
      | None => getUrlParamValueFunc pb m
      end
    else getUrlParamValueFunc pb m.
Proof.
  intros Hnodup [Hsame Hother] Hpb. unfold assign_param.
  destruct (decide (key = urlParamName pb)) as [->|Hne].
  - rewrite find_binder_NoDup by done.
    destruct (usp_get _ ps) as [value|]; [|done].
    destruct (isUrlParamValid pb value (Some ps)); [by apply Hsame | done].
  - destruct (find_binder this key) as [pb'|] eqn:Hfind; [|done].
    apply find_binder_Some in Hfind as [Hpb' <-].
    destruct (usp_get _ ps) as [value|]; [|done].
    destruct (isUrlParamValid pb' value (Some ps)); [by apply Hother | done].
Qed.

Lemma read_defaults this ps m keys pb :
  NoDup (names this) → accessors_lawful this → pb ∈ paramBinders this →
  getUrlParamValueFunc pb (foldl (assign_default this ps) m keys) =
    if decide (urlParamName pb ∈ keys) then Some (getDefaultParamValue pb (Some ps))
    else getUrlParamValueFunc pb m.
Proof.
  intros Hnodup Hlaw Hpb. induction keys as [|key keys IH] using rev_ind.
  { cbn [foldl]. rewrite decide_False; [done | apply not_elem_of_nil]. }
  rewrite foldl_snoc, read_assign_default, IH by done.
  destruct (decide (key = urlParamName pb)) as [->|Hne].
  - rewrite decide_True; [done|]. apply elem_of_app. right. apply elem_of_cons. by left.
  - apply decide_ext. rewrite elem_of_app, list_elem_of_singleton.
    split; [by left | intros [?|?]; [done | congruence]].
Qed.

Lemma read_params_other this ps m keys pb :
  NoDup (names this) → accessors_lawful this → pb ∈ paramBinders this →
  urlParamName pb ∉ keys →
  getUrlParamValueFunc pb (foldl (assign_param this ps) m keys) = getUrlParamValueFunc pb m.
Proof.
  intros Hnodup Hlaw Hpb. induction keys as [|key keys IH] using rev_ind; [done|].
  rewrite not_elem_of_app, not_elem_of_cons. intros [Hkeys [Hkey _]].
  rewrite foldl_snoc, read_assign_param by done.
  rewrite decide_False by done. by apply IH.
Qed.

Lemma read_params_valid this ps m keys pb value :
  NoDup (names this) → accessors_lawful this → pb ∈ paramBinders this →
  urlParamName pb ∈ keys → usp_get (urlParamName pb) ps = Some value →
  isUrlParamValid pb value (Some ps) = true →
  getUrlParamValueFunc pb (foldl (assign_param this ps) m keys) = Some value.
Proof.
  intros Hnodup Hlaw Hpb Hin Hget Hvalid.
  induction keys as [|key keys IH] using rev_ind.
  { by apply elem_of_nil in Hin. }
  rewrite foldl_snoc, read_assign_param by done.
  destruct (decide (key = urlParamName pb)) as [->|Hne].
  - by rewrite Hget, Hvalid.
  - apply IH. apply elem_of_app in Hin as [Hin|Hin]; [done|].
    apply elem_of_cons in Hin as [Hin|Hin]; [done | by apply elem_of_nil in Hin].
Qed.

(** In the assembled model a registered binder reads its default when its
    key is absent, and its parameter when that is present and valid. *)
Lemma assembled_read emptyObject this ps model h keys1 keys2 pb :
  NoDup (names this) → accessors_lawful this → pb ∈ paramBinders this →
  keys1 ≡ₚ filter (λ key, key ∉ usp_keys ps) (names this) → keys2 ≡ₚ usp_keys ps →
  let m := assembled emptyObject this ps model h keys1 keys2 in
  (urlParamName pb ∉ usp_keys ps →
     getUrlParamValueFunc pb m = Some (getDefaultParamValue pb (Some ps))) ∧
  (∀ value, usp_get (urlParamName pb) ps = Some value →
     isUrlParamValid pb value (Some ps) = true →
     getUrlParamValueFunc pb m = Some value).
Proof.
  intros Hnodup Hlaw Hpb H1 H2. unfold assembled. split.
  - intros Habsent.
    rewrite read_params_other by (rewrite ?H2; done).
    rewrite read_defaults by done. rewrite decide_True; [done|].
    rewrite H1. apply list_elem_of_filter. split; [done|].
    unfold names. by apply list_elem_of_fmap_2.
  - intros value Hget Hvalid. eapply read_params_valid; try done.
    rewrite H2. by eapply usp_get_keys.
Qed.
End Reads.

(** * The claims *)

Section Claims.
Context {TModel : Type} (emptyObject : TModel).
Implicit Types (this : ModelBinder TModel) (pb : ParamBinder TModel).
Implicit Types (h : heap TModel) (ps nps : URLSearchParams) (m : TModel).

Lemma some_key_invalid this ps key :
  key ∈ usp_keys ps → key_invalid this ps key = true →
  existsb (key_invalid this ps) (usp_keys ps) = true.
Proof.
  intros Hin Hinv. apply existsb_exists. exists key. by rewrite <- list_elem_of_In.
Qed.

Lemma no_key_invalid this ps :
  existsb (key_invalid this ps) (usp_keys ps) = false ↔
  ∀ key, key ∈ usp_keys ps → key_invalid this ps key = false.
Proof.
  split.
  - intros Hex key Hin. destruct (key_invalid this ps key) eqn:Hinv; [|done].
    by rewrite (some_key_invalid this ps key) in Hex.
  - intros Hall. destruct (existsb _ _) eqn:Hex; [|done].
    apply existsb_exists in Hex as (key & Hin%list_elem_of_In & Hinv).
    by rewrite Hall in Hinv.
Qed.

Lemma inconsistent_true this m :
  inconsistent this m = true ↔
  ∃ pb, pb ∈ paramBinders this ∧ isModelConsistent pb m = false.
Proof.
  unfold inconsistent. rewrite existsb_exists. split.
  - intros (id & Hin%list_elem_of_In & Hid%bool_decide_eq_true).
    apply list_elem_of_fmap in Hin as (pb & -> & Hpb). eauto.
  - intros (pb & Hpb & Hfalse). exists false. split; [|done].
    apply list_elem_of_In, list_elem_of_fmap. eauto.
Qed.

(** The registered names stay distinct. *)
Lemma addParamBinder_NoDup (paramBinder : argument TModel) this :
  NoDup (names this) → NoDup (names (addParamBinder paramBinder this).2).
Proof.
  intros Hnodup. destruct paramBinder as [v|pb]; simpl; [done|].
  destruct (existsb _ _) eqn:Hex; simpl; [done|].
  unfold names. simpl. rewrite fmap_app. apply NoDup_app. split; [done|].
  split; [|apply NoDup_singleton].
  intros name Hin ->%list_elem_of_singleton.
  apply list_elem_of_fmap in Hin as (pb' & Hname & Hpb').
  assert (existsb (λ pb', bool_decide (urlParamName pb' = urlParamName pb))
            (paramBinders this) = true); [|congruence].
  apply existsb_exists. exists pb'. split; [by apply list_elem_of_In|].
  by apply bool_decide_eq_true.
Qed.

(** Every [ModelBinder] a program can build has distinct names. *)
Lemma reachable_NoDup this : reachable this → NoDup (names this).
Proof.
  induction 1 as [|paramBinder this _ IH]; [apply NoDup_nil_2|].
  by apply addParamBinder_NoDup.
Qed.

(** C2. When a key of the parameter set has a registered binder whose
    validity check its value fails, decode returns [newParams] and no
    model, and [newParams] is a new parameter set: the input without the
    pairs of the invalid keys, every other pair kept in place. *)
Theorem decode_invalid_key sc this lp model h ps key pb value :
  paramObjects h !! lp = Some ps → model_ok model h →
  find_binder this key = Some pb → usp_get key ps = Some value →
  isUrlParamValid pb value (Some ps) = false →
  ∃ ln h',
    getModelFromUrlParams emptyObject sc this (Some lp) model h =
      Ok ({| model := None; newParams := Some ln |}, h') ∧
    paramObjects h' !! ln = Some (filter (λ p, key_invalid this ps p.1 = false) ps).
Proof.
  intros Hlp Hmodel Hfind Hget Hvalid.
  destruct (decode_spec emptyObject sc this lp model h ps Hlp Hmodel)
    as (keys1 & keys2 & pbs & _ & _ & _ & -> & _).
  unfold decode_outcome.
  rewrite (some_key_invalid this ps key).
  - eexists _, _. split; [done|]. simpl. apply lookup_snoc.
  - by eapply usp_get_keys.
  - unfold key_invalid. by rewrite Hfind, Hget, Hvalid.
Qed.

(** C3. When every key of the parameter set passes validation and some
    binder's consistency check returns [false] on the assembled model,
    decode returns [newParams] and no model, and in [newParams] every
    registered key holds its binder's default, computed with the input
    parameter set as [allParams]. *)
Theorem decode_inconsistent sc this lp model h ps m pb :
  paramObjects h !! lp = Some ps → model_ok model h → reachable this →
  (∀ key, key ∈ usp_keys ps → key_invalid this ps key = false) →
  assembled_model emptyObject sc this (Some lp) model h = Ok m →
  pb ∈ paramBinders this → isModelConsistent pb m = false →
  ∃ ln h' nps,
    getModelFromUrlParams emptyObject sc this (Some lp) model h =
      Ok ({| model := None; newParams := Some ln |}, h') ∧
    paramObjects h' !! ln = Some nps ∧
    ∀ pb', pb' ∈ paramBinders this →
      usp_get (urlParamName pb') nps = Some (getDefaultParamValue pb' (Some ps)).
Proof.
  intros Hlp Hmodel Hnodup%reachable_NoDup Hvalid Hm Hpb Hfalse.
  destruct (decode_spec emptyObject sc this lp model h ps Hlp Hmodel)
    as (keys1 & keys2 & pbs & _ & _ & Hperm & -> & Hassembled).
  rewrite Hm in Hassembled. injection Hassembled as ->.
  unfold decode_outcome.
  apply no_key_invalid in Hvalid as ->.
  assert (inconsistent this (assembled emptyObject this ps model h keys1 keys2) = true)
    as -> by (apply inconsistent_true; eauto).
  eexists _, _, _. split; [done|]. split; [simpl; apply lookup_snoc|].
  intros pb' Hpb'. apply usp_get_reset.
  - unfold names in Hnodup. by rewrite Hperm.
  - by rewrite Hperm.
Qed.

(** C4. Decode of a parameter set returns a result that holds either a model
    and no [newParams], exactly when no key is invalid and no consistency
    check fails on the assembled model, which is the content of the model
    returned; or [newParams] and no model. *)
Theorem decode_one_variant sc this lp model h ps :
  paramObjects h !! lp = Some ps → model_ok model h →
  ∃ r h' m,
    getModelFromUrlParams emptyObject sc this (Some lp) model h = Ok (r, h') ∧
    assembled_model emptyObject sc this (Some lp) model h = Ok m ∧
    ((∃ lm, r = {| model := Some (JObject lm); newParams := None |} ∧
            objects h' !! lm = Some m ∧
            (∀ key, key ∈ usp_keys ps → key_invalid this ps key = false) ∧
            (∀ pb, pb ∈ paramBinders this → isModelConsistent pb m = true))
     ∨ ((∃ ln, r = {| model := None; newParams := Some ln |}) ∧
        ((∃ key, key ∈ usp_keys ps ∧ key_invalid this ps key = true) ∨
         (∃ pb, pb ∈ paramBinders this ∧ isModelConsistent pb m = false)))).
Proof.
  intros Hlp Hmodel.
  destruct (decode_spec emptyObject sc this lp model h ps Hlp Hmodel)
    as (keys1 & keys2 & pbs & _ & _ & _ & -> & ->).
  unfold decode_outcome.
  set (m := assembled emptyObject this ps model h keys1 keys2).
  destruct (existsb (key_invalid this ps) (usp_keys ps)) eqn:Hinv.
  { eexists _, _, m. split; [done|]. split; [done|]. right.
    split; [by eexists|]. left.
    apply existsb_exists in Hinv as (key & Hin%list_elem_of_In & Hkey). eauto. }
  destruct (inconsistent this m) eqn:Hinc.
  { eexists _, _, m. split; [done|]. split; [done|]. right.
    split; [by eexists|]. right. by apply inconsistent_true. }
  eexists _, _, m. split; [done|]. split; [done|]. left.
  eexists. split; [done|]. split; [simpl; apply lookup_snoc|].
  split; [by apply no_key_invalid|].
  intros pb Hpb. destruct (isModelConsistent pb m) eqn:Hpbm; [done|].
  assert (inconsistent this m = true) by (apply inconsistent_true; eauto).
  congruence.
Qed.
(** Decode throws on a first argument that is no [URLSearchParams], cannot
    run on references outside the heap, and otherwise returns. *)
Lemma decode_cases sc this urlParams model h :
  getModelFromUrlParams emptyObject sc this urlParams model h
    = Throw (Error "urlParams must be instance of URLSearchParams") ∨
  getModelFromUrlParams emptyObject sc this urlParams model h
    = Throw DanglingReference ∨
  ∃ lp ps, urlParams = Some lp ∧ paramObjects h !! lp = Some ps ∧ model_ok model h.
Proof.
  destruct urlParams as [lp|]; [|by left]. right.
  destruct (paramObjects h !! lp) as [ps|] eqn:Hlp.
  - destruct model as [| | |l]; try (right; by exists lp, ps).
    destruct (objects h !! l) as [m|] eqn:Hl.
    { right. exists lp, ps. repeat split; try done. simpl. rewrite Hl. by eexists. }
    left. unfold getModelFromUrlParams, deref_params. rewrite Hlp. simpl.
    unfold structuredClone, deref_object. by rewrite Hl.
  - left. unfold getModelFromUrlParams, deref_params. by rewrite Hlp.
Qed.

Lemma decode_Ok_inv sc this urlParams model h r h' :
  getModelFromUrlParams emptyObject sc this urlParams model h = Ok (r, h') →
  ∃ lp ps keys1 keys2 pbs,
    urlParams = Some lp ∧ paramObjects h !! lp = Some ps ∧ model_ok model h ∧
    keys1 ≡ₚ filter (λ key, key ∉ usp_keys ps) (names this) ∧
    keys2 ≡ₚ usp_keys ps ∧ pbs ≡ₚ paramBinders this ∧
    (r, h') = decode_outcome emptyObject this ps model h keys1 keys2 pbs.
Proof.
  intros Hdec.
  destruct (decode_cases sc this urlParams model h)
    as [Hthrow|[Hthrow|(lp & ps & -> & Hlp & Hmodel)]]; [congruence..|].
  destruct (decode_spec emptyObject sc this lp model h ps Hlp Hmodel)
    as (keys1 & keys2 & pbs & H1 & H2 & H3 & Hout & _).
  exists lp, ps, keys1, keys2, pbs. repeat (split; [done|]). congruence.
Qed.

(** Decode only adds to the heap. *)
Lemma decode_frame sc this urlParams model h r h' :
  getModelFromUrlParams emptyObject sc this urlParams model h = Ok (r, h') →
  heap_preserved h h' ∧ unhandledRejections h' = unhandledRejections h.
Proof.
  intros (lp & ps & keys1 & keys2 & pbs & _ & _ & _ & _ & _ & _ & Hout)%decode_Ok_inv.
  unfold decode_outcome in Hout.
  assert (∃ m nps, h' = Heap (objects h ++ [m]) (paramObjects h ++ [nps])
                            (unhandledRejections h)) as (m & nps & ->).
  { repeat case_match; injection Hout as _ ->; eauto. }
  split; [|done]. split; simpl; intros l x Hl; by apply lookup_app_l_Some.
Qed.

Lemma list_filter_fmap {X Y} (f : X → Y) (P : Y → Prop) `{!∀ y, Decision (P y)}
    (xs : list X) :
  filter P (f <$> xs) = f <$> filter (λ x, P (f x)) xs.
Proof.
  induction xs as [|x xs IH]; [done|].
  rewrite fmap_cons, !filter_cons, IH. by case_decide.
Qed.

Lemma foldl_ext_in {X Y} (f g : X → Y → X) (ys : list Y) (x : X) :
  (∀ x' y, y ∈ ys → f x' y = g x' y) → foldl f x ys = foldl g x ys.
Proof.
  induction ys as [|y ys IH] in x |- *; simpl; intros Hfg; [done|].
  rewrite Hfg by (apply elem_of_cons; by left).
  apply IH. intros x' y' Hin. apply Hfg, elem_of_cons. by right.
Qed.

(** With distinct names, the tasks of the absent keys are those of the
    binders whose name is absent. *)
Lemma absent_binders this ps keys1 m :
  NoDup (names this) →
  keys1 ≡ₚ filter (λ key, key ∉ usp_keys ps) (names this) →
  ∃ absent,
    absent ≡ₚ filter (λ pb, urlParamName pb ∉ usp_keys ps) (paramBinders this) ∧
    foldl (assign_default this ps) m keys1 =
      foldl (λ m pb, setValueToModelFunc pb m (getDefaultParamValue pb (Some ps)))
        m absent.
Proof.
  intros Hnodup Hperm. unfold names in Hperm. rewrite list_filter_fmap in Hperm.
  apply Permutation_map_inv in Hperm as (absent & -> & Hperm).
  exists absent. split; [done|].
  change (map urlParamName absent) with (urlParamName <$> absent).
  rewrite foldl_fmap. apply foldl_ext_in. intros m' pb Hpb.
  unfold assign_default. rewrite find_binder_NoDup; [done..|].
  rewrite <- Hperm in Hpb. by apply list_elem_of_filter in Hpb as [_ ?].
Qed.

(** C7. For every registered binder whose name the parameter set lacks,
    decode assigns the binder's default, computed with the input parameter
    set as [allParams], to the model: its task sets the model to what
    [setValueToModel] makes of it with that default, never rejects and
    leaves [hasErrors] as it is; the assembled model is the content decode
    starts from with these assignments (in some order) and then those of
    the present keys, so a lawful accessor reads the default there; and
    whatever keys are absent, decode returns the model when no present key
    is invalid and no consistency check fails. *)
Theorem decode_absent_keys sc this lp model h ps :
  paramObjects h !! lp = Some ps → model_ok model h → reachable this →
  (∀ key pb l s m,
     find_binder this key = Some pb →
     objects (sh_heap s) !! l = Some m → paramObjects (sh_heap s) !! lp = Some ps →
     finish (defaultTask this lp (JObject l) key) s =
       Ok (Shared
             (set_objects
                (<[l := setValueToModelFunc pb m (getDefaultParamValue pb (Some ps))]>
                   (objects (sh_heap s)))
                (sh_heap s))
             (hasErrors s))) ∧
  ∃ absent keys2 m,
    absent ≡ₚ filter (λ pb, urlParamName pb ∉ usp_keys ps) (paramBinders this) ∧
    keys2 ≡ₚ usp_keys ps ∧
    m = foldl (assign_param this ps)
          (foldl (λ m pb, setValueToModelFunc pb m (getDefaultParamValue pb (Some ps)))
             (own_content emptyObject model h) absent) keys2 ∧
    assembled_model emptyObject sc this (Some lp) model h = Ok m ∧
    (accessors_lawful this → ∀ pb, pb ∈ absent →
       getUrlParamValueFunc pb m = Some (getDefaultParamValue pb (Some ps))) ∧
    ((∀ key, key ∈ usp_keys ps → key_invalid this ps key = false) →
     (∀ pb, pb ∈ paramBinders this → isModelConsistent pb m = true) →
     ∃ lm h',
       getModelFromUrlParams emptyObject sc this (Some lp) model h =
         Ok ({| model := Some (JObject lm); newParams := None |}, h') ∧
       objects h' !! lm = Some m).
Proof.
  intros Hlp Hmodel Hnodup%reachable_NoDup. split.
  { intros key pb l [[os pss u] flag] m Hfind Hl Hps. simpl in Hl, Hps.
    rewrite (finish_runs_as (λ s, paramObjects (sh_heap s) !! lp = Some ps)
               (default_step this ps (JObject l) key));
      [|apply default_step_keeps|apply defaultTask_runs_as|done].
    unfold default_step. rewrite Hfind. simpl.
    unfold setToModel, deref_object. simpl. by rewrite Hl. }
  destruct (decode_spec emptyObject sc this lp model h ps Hlp Hmodel)
    as (keys1 & keys2 & pbs & H1 & H2 & _ & Hout & Hassembled).
  destruct (absent_binders this ps keys1 (own_content emptyObject model h) Hnodup H1)
    as (absent & Habsent & Hfold).
  exists absent, keys2, (assembled emptyObject this ps model h keys1 keys2).
  split; [done|]. split; [done|].
  split; [unfold assembled; by rewrite Hfold|]. split; [done|]. split.
  - intros Hlaw pb Hpb. rewrite Habsent in Hpb.
    apply list_elem_of_filter in Hpb as [Hnot Hpb].
    by destruct (assembled_read emptyObject this ps model h keys1 keys2 pb)
      as [Hread _]; [..|apply Hread].
  - intros Hvalid Hconsistent. rewrite Hout. unfold decode_outcome.
    apply no_key_invalid in Hvalid as ->.
    destruct (inconsistent this _) eqn:Hinc.
    { apply inconsistent_true in Hinc as (pb & Hpb & Hfalse).
      rewrite Hconsistent in Hfalse; done. }
    eexists _, _. split; [done|]. simpl. apply lookup_snoc.
Qed.

Lemma usp_get_filter_keys (Q : string → Prop) `{!∀ key, Decision (Q key)} key ps :
  Q key → usp_get key (filter (λ p, Q p.1) ps) = usp_get key ps.
Proof.
  intros HQ. induction ps as [|[k v] ps IH]; [done|].
  rewrite filter_cons. simpl. destruct (decide (k = key)) as [->|Hne].
  - rewrite decide_True by done. simpl. by rewrite decide_True.
  - case_decide; simpl; [by rewrite decide_False|done].
Qed.

Lemma foldl_assign_param_skip this ps m key keys :
  find_binder this key = None →
  foldl (assign_param this ps) m (filter (λ k, k ≠ key) keys)
    = foldl (assign_param this ps) m keys.
Proof.
  intros Hfind. induction keys as [|k keys IH] in m |- *; [done|].
  rewrite filter_cons. destruct (decide (k ≠ key)) as [Hne|Heq]; simpl; [apply IH|].
  apply dec_stable in Heq as ->. rewrite IH.
  f_equal. unfold assign_param. by rewrite Hfind.
Qed.

(** C10. Whatever the caller passes as the model, decode hands an object of
    the heap to every [setToModel]: the model it works on is a reference to
    a new object, decode never throws the error of [setToModel], and it
    leaves no rejection of a [setToModel] promise unhandled. *)
Theorem decode_model_is_object sc this urlParams model h :
  (∀ v h1, own_model emptyObject model h = Ok (v, h1) →
     ∃ l, v = JObject l ∧ is_Some (objects h1 !! l) ∧ objects h !! l = None) ∧
  getModelFromUrlParams emptyObject sc this urlParams model h
    ≠ Throw (Error "model must be a non-null object") ∧
  (∀ r h', getModelFromUrlParams emptyObject sc this urlParams model h = Ok (r, h') →
     unhandledRejections h' = unhandledRejections h).
Proof.
  split; [|split].
  - intros v h1 Hown. exists (length (objects h)).
    assert (model_ok model h) as Hmodel.
    { destruct model as [| | |l]; try done. simpl in *.
      unfold structuredClone, deref_object in Hown.
      destruct (objects h !! l); [by eexists | done]. }
    rewrite own_model_spec in Hown by done. injection Hown as <- <-.
    split; [done|]. simpl. split; [rewrite lookup_snoc; by eexists|].
    by apply lookup_ge_None_2.
  - destruct (decode_cases sc this urlParams model h)
      as [->|[->|(lp & ps & -> & Hlp & Hmodel)]]; [done..|].
    destruct (decode_spec emptyObject sc this lp model h ps Hlp Hmodel)
      as (keys1 & keys2 & pbs & _ & _ & _ & -> & _). done.
  - intros r h' Hdec. by apply decode_frame in Hdec as [_ ?].
Qed.
Lemma encode_heap_lookup sp h nps :
  params_ok sp h → paramObjects (encode_heap sp h nps) !! encode_loc sp h = Some nps.
Proof.
  destruct sp as [l0|]; simpl.
  - intros [nps0 Hl0]. by eapply lookup_insert_same.
  - intros _. apply lookup_snoc.
Qed.

(** C1, as the code has it. Decode never changes an object or a parameter
    set of the caller: it works on a structured clone of the model (or on a
    new empty object) and on a copy of the parameter set. Encode never
    changes a model; without a parameter set it writes to a new one and
    changes none of the caller's; with a parameter set of the caller it
    returns that very object, which is the only one it writes to. *)
Theorem codec_frame sc sched this urlParams model sp h :
  (∀ r h', getModelFromUrlParams emptyObject sc this urlParams model h = Ok (r, h') →
     heap_preserved h h') ∧
  (∀ l h', getUrlParamsFromModel sched this model sp h = Ok (l, h') →
     objects h' = objects h ∧
     match sp with
     | None =>
         paramObjects h !! l = None ∧
         ∀ l0 ps, paramObjects h !! l0 = Some ps → paramObjects h' !! l0 = Some ps
     | Some l0 =>
         l = l0 ∧ ∀ l1, l1 ≠ l0 → paramObjects h' !! l1 = paramObjects h !! l1
     end).
Proof.
  split.
  - intros r h' Hdec. by apply decode_frame in Hdec as [? _].
  - intros l h' Henc.
    destruct (encode_Ok_inv _ _ _ _ _ _ _ Henc) as (lmod & m & -> & Hm & Hsp).
    destruct (encode_spec (λ _, True) sched this lmod sp h m) as (nps & _ & Heq);
      [done..|].
    rewrite Heq in Henc. injection Henc as <- <-.
    destruct sp as [l0|]; simpl.
    + split; [done|]. split; [done|]. intros l1 Hne. by apply list_lookup_insert_ne.
    + split; [done|]. split; [by apply lookup_ge_None_2|].
      intros l0 ps Hl0. by apply lookup_app_l_Some.
Qed.

(** C6. Encode of a model in which every registered binder reads its
    default (the one it has for the empty parameter set encode starts from)
    returns an empty parameter set when none was supplied. In general, every
    pair of the parameter set encode returns was in the supplied one or is
    the name of a registered binder with the value the binder reads in the
    model, which differs from the default the binder had when its task
    computed it. *)
Theorem encode_default_suppression sched this lmod sp h m :
  objects h !! lmod = Some m → params_ok sp h →
  ((∀ pb, pb ∈ paramBinders this →
      getUrlParamValue pb m = getDefaultParamValue pb (Some [])) →
   ∃ l h',
     getUrlParamsFromModel sched this (JObject lmod) None h = Ok (l, h') ∧
     paramObjects h' !! l = Some []) ∧
  ∃ l h' nps,
    getUrlParamsFromModel sched this (JObject lmod) sp h = Ok (l, h') ∧
    paramObjects h' !! l = Some nps ∧
    ∀ key value, (key, value) ∈ nps →
      (key, value) ∈ supplied_content sp h ∨
      ∃ pb allParams,
        pb ∈ paramBinders this ∧ key = urlParamName pb ∧
        value = getUrlParamValue pb m ∧
        value ≠ getDefaultParamValue pb (Some allParams).
Proof.
  intros Hm Hsp. split.
  - intros Hdefault.
    destruct (encode_spec (λ nps, nps = []) sched this lmod None h m)
      as (nps & -> & Heq); [done..| |].
    { intros pb nps nps' Hpb -> _ Hne. by rewrite Hdefault in Hne. }
    eexists _, _. split; [done|]. by apply (encode_heap_lookup None).
  - destruct (encode_spec
                (λ nps, ∀ key value, (key, value) ∈ nps →
                   (key, value) ∈ supplied_content sp h ∨
                   ∃ pb allParams,
                     pb ∈ paramBinders this ∧ key = urlParamName pb ∧
                     value = getUrlParamValue pb m ∧
                     value ≠ getDefaultParamValue pb (Some allParams))
                sched this lmod sp h m)
      as (nps & Hnps & Heq); [done|done|by left| |].
    { intros pb nps nps' Hpb _ Hnps' Hne key value [[= -> ->]|Hin]%elem_of_usp_set.
      - right. by exists pb, nps.
      - by apply Hnps'. }
    eexists _, _, nps. split; [done|]. split; [by apply encode_heap_lookup | done].
Qed.

(** C9. [addParamBinder] throws on an argument that is no [ParamBinder];
    it throws on a binder whose name is registered, and leaves the registry
    as it was; otherwise it appends the binder and returns the
    [ModelBinder] itself. *)
Theorem addParamBinder_spec this :
  (∀ v, addParamBinder (NotAParamBinder v) this
          = (Throw (Error "paramBinder must be instance of BaseParamBinder"), this)) ∧
  (∀ pb, urlParamName pb ∈ names this →
     addParamBinder (AParamBinder pb) this
       = (Throw (Error ("paramBinder with urlParamName " +:+ urlParamName pb
                          +:+ " already exists")), this)) ∧
  (∀ pb, urlParamName pb ∉ names this →
     ∃ this', addParamBinder (AParamBinder pb) this = (Ok this', this') ∧
              paramBinders this' = paramBinders this ++ [pb]).
Proof.
  split; [done|]. split.
  - intros pb Hin. unfold addParamBinder.
    apply list_elem_of_fmap in Hin as (pb' & Hname & Hpb').
    assert (existsb (λ pb', bool_decide (urlParamName pb' = urlParamName pb))
              (paramBinders this) = true) as ->; [|done].
    apply existsb_exists. exists pb'. split; [by apply list_elem_of_In|].
    by apply bool_decide_eq_true.
  - intros pb Hnot. unfold addParamBinder.
    destruct (existsb _ _) eqn:Hex; [|by eexists].
    apply existsb_exists in Hex as (pb' & Hpb'%list_elem_of_In & Hname%bool_decide_eq_true).
    exfalso. apply Hnot. apply list_elem_of_fmap. by exists pb'.
Qed.


End Claims.

(** * Further properties *)

(** ** The constructor *)

Section ConstructorProperties.
Context {TModel : Type}.
Implicit Types (p : Params.ParamBinderConstructorParams TModel).
Implicit Types (pb : ParamBinder TModel).

(** What the constructor returns, when it returns. *)
Lemma newParamBinder_Ok_inv p pb :
  newParamBinder p = Ok pb →
  ∃ name dflt set get valid,
    Params.urlParamName p = AString name ∧ name ≠ "" ∧
    match Params.defaultParamValue p with
    | AString s => dflt = inl s
    | AFunction f => dflt = inr f
    | AnythingElse => False
    end ∧
    Params.setValueToModel p = AFunction set ∧
    Params.getUrlParamValue p = AFunction get ∧
    Params.isUrlParamValueValid p = AFunction valid ∧
    pb = {| urlParamName := name;
            defaultParamValue := dflt;
            setValueToModelFunc := set;
            getUrlParamValueFunc := get;
            isModelConsistentFunc := as_function (Params.isModelConsistent p);
            isUrlParamValueValidFunc := valid |}.
Proof.
  destruct p as [n d s g c v]. unfold newParamBinder. simpl.
  destruct n as [name| |]; simpl; try done.
  case_bool_decide as Hname; [done|]. rewrite decide_False by done. simpl.
  destruct d as [ds|df|]; simpl; try done;
    destruct s as [|set|]; try done; destruct v as [|valid|]; try done;
    destruct g as [|get|]; try done; intros [= <-];
    by eexists name, _, set, get, valid.
Qed.

(** X1. The constructor returns a binder exactly when [urlParamName] is a
    non-empty string, [defaultParamValue] a string or a function, and
    [setValueToModel], [getUrlParamValue] and [isUrlParamValueValid] are
    functions; the binder then holds these values, and the
    [isModelConsistent] function if one was given. The checks of the two
    setters never fail where those of the constructor passed. *)
Theorem newParamBinder_accepts p pb :
  newParamBinder p = Ok pb ↔
  ∃ name dflt set get valid,
    Params.urlParamName p = AString name ∧ name ≠ "" ∧
    match Params.defaultParamValue p with
    | AString s => dflt = inl s
    | AFunction f => dflt = inr f
    | AnythingElse => False
    end ∧
    Params.setValueToModel p = AFunction set ∧
    Params.getUrlParamValue p = AFunction get ∧
    Params.isUrlParamValueValid p = AFunction valid ∧
    pb = {| urlParamName := name;
            defaultParamValue := dflt;
            setValueToModelFunc := set;
            getUrlParamValueFunc := get;
            isModelConsistentFunc := as_function (Params.isModelConsistent p);
            isUrlParamValueValidFunc := valid |}.
Proof.
  split; [apply newParamBinder_Ok_inv|].
  destruct p as [n d s g c v]. unfold newParamBinder. simpl.
  - intros (name & dflt & set & get & valid & -> & Hname & Hd & -> & -> & -> & ->).
    simpl. rewrite bool_decide_eq_false_2 by done. rewrite decide_False by done.
    simpl. destruct d as [ds|df|]; simpl; by subst.
Qed.

(** X2. The constructor reports the first property that fails its check, in
    the order [urlParamName], [defaultParamValue], [setValueToModel],
    [isUrlParamValueValid], [getUrlParamValue], each with its own message;
    [isModelConsistent] is never a reason to throw. *)
Theorem newParamBinder_rejects p :
  (not_a_name (Params.urlParamName p) = true →
   newParamBinder p = Throw (Error "urlParamName must be non empty string")) ∧
  (not_a_name (Params.urlParamName p) = false →
   not_a_default (Params.defaultParamValue p) = true →
   newParamBinder p = Throw (Error "defaultValue must be string or function")) ∧
  (not_a_name (Params.urlParamName p) = false →
   not_a_default (Params.defaultParamValue p) = false →
   is_function (Params.setValueToModel p) = false →
   newParamBinder p = Throw (Error "setValueToModel must be function")) ∧
  (not_a_name (Params.urlParamName p) = false →
   not_a_default (Params.defaultParamValue p) = false →
   is_function (Params.setValueToModel p) = true →
   is_function (Params.isUrlParamValueValid p) = false →
   newParamBinder p = Throw (Error "isUrlParamValueValid must be function")) ∧
  (not_a_name (Params.urlParamName p) = false →
   not_a_default (Params.defaultParamValue p) = false →
   is_function (Params.setValueToModel p) = true →
   is_function (Params.isUrlParamValueValid p) = true →
   is_function (Params.getUrlParamValue p) = false →
   newParamBinder p = Throw (Error "getUrlParamValue must be function")).
Proof.
  assert (∀ name : string, bool_decide (name = "") = false →
            set_urlParamName (AString (F:=unit) name) = Ok name) as Hset.
  { intros name Hname%bool_decide_eq_false. simpl. by rewrite decide_False. }
  destruct p as [n d s g c v]. unfold newParamBinder. simpl.
  split; [by intros ->|].
  repeat split; intros Hn; rewrite Hn; destruct n as [name| |]; try done;
    simpl in Hn; rewrite (Hset name Hn); simpl; intros Hd; rewrite Hd;
    destruct d; try done; simpl;
    destruct s; try done; simpl; intros _;
    destruct v; try done; simpl; intros _;
    destruct g; try done.
Qed.

(** X3. [isModelConsistent] is optional: a binder constructed with a
    function answers with that function, and a binder constructed with
    anything else (or nothing) finds every model consistent. *)
Theorem newParamBinder_consistency_optional p pb :
  newParamBinder p = Ok pb →
  ∀ m, isModelConsistent pb m =
         match Params.isModelConsistent p with
         | AFunction f => f m
         | _ => true
         end.
Proof.
  intros (name & dflt & set & get & valid & _ & _ & _ & _ & _ & _ & ->)%newParamBinder_Ok_inv m.
  unfold isModelConsistent. simpl. by destruct (Params.isModelConsistent p).
Qed.
End ConstructorProperties.

(** ** ParamBinder *)

Section BinderProperties.
Context {TModel : Type}.
Implicit Types (pb : ParamBinder TModel).

(** X4. [parseUrlParamValue] is idempotent: parsing what it returned
    returns the same value. *)
Theorem parseUrlParamValue_idempotent pb value allParams :
  parseUrlParamValue pb (parseUrlParamValue pb value allParams) allParams
    = parseUrlParamValue pb value allParams.
Proof.
  unfold parseUrlParamValue.
  destruct (isUrlParamValid pb value allParams) eqn:Hvalid; simpl.
  - by rewrite Hvalid.
  - by destruct (isUrlParamValid pb (getDefaultParamValue pb allParams) allParams).
Qed.

(** X5. When the default of a binder passes the binder's own validity
    check, so does everything [parseUrlParamValue] returns. *)
Theorem parseUrlParamValue_valid_default pb value allParams :
  isUrlParamValid pb (getDefaultParamValue pb allParams) allParams = true →
  isUrlParamValid pb (parseUrlParamValue pb value allParams) allParams = true.
Proof.
  intros Hdefault. unfold parseUrlParamValue.
  by destruct (isUrlParamValid pb value allParams) eqn:Hvalid.
Qed.
End BinderProperties.

(** ** URLSearchParams, pair by pair *)

Section ParamsFacts.
Implicit Types (ps nps : URLSearchParams) (name key value : string).

Lemma filter_usp_delete (P : string → Prop) `{!∀ k, Decision (P k)} name nps :
  ¬ P name →
  filter (λ p, P p.1) (usp_delete name nps) = filter (λ p, P p.1) nps.
Proof.
  intros Hname. unfold usp_delete.
  induction nps as [|[k v] nps IH]; [done|].
  rewrite !filter_cons. simpl. destruct (decide (k ≠ name)) as [Hne|Heq].
  - rewrite filter_cons. simpl. by rewrite IH.
  - apply dec_stable in Heq as ->. by rewrite decide_False.
Qed.

(** [set] leaves the pairs of the other names as they are, in their order. *)
Lemma filter_usp_set (P : string → Prop) `{!∀ k, Decision (P k)} name value nps :
  ¬ P name →
  filter (λ p, P p.1) (usp_set name value nps) = filter (λ p, P p.1) nps.
Proof.
  intros Hname. induction nps as [|[k v] nps IH]; simpl.
  - rewrite filter_cons. simpl. by rewrite decide_False.
  - destruct (decide (k = name)) as [->|Hne].
    + rewrite !filter_cons. simpl. rewrite !decide_False by done.
      by apply filter_usp_delete.
    + rewrite !filter_cons. simpl. by rewrite IH.
Qed.

Lemma filter_delete_same name nps :
  filter (λ p, p.1 = name) (usp_delete name nps) = [].
Proof.
  unfold usp_delete. induction nps as [|[k v] nps IH]; [done|].
  rewrite filter_cons. simpl. destruct (decide (k ≠ name)) as [Hne|Heq]; [|done].
  rewrite filter_cons. simpl. by rewrite decide_False.
Qed.

(** After [set], one pair has the name. *)
Lemma filter_usp_set_same name value nps :
  filter (λ p, p.1 = name) (usp_set name value nps) = [(name, value)].
Proof.
  induction nps as [|[k v] nps IH]; simpl.
  - rewrite filter_cons. simpl. by rewrite decide_True.
  - destruct (decide (k = name)) as [->|Hne].
    + rewrite filter_cons. simpl. rewrite decide_True by done.
      by rewrite filter_delete_same.
    + rewrite filter_cons. simpl. by rewrite decide_False.
Qed.

Lemma usp_delete_absent name nps :
  filter (λ p, p.1 = name) nps = [] → usp_delete name nps = nps.
Proof.
  unfold usp_delete. induction nps as [|[k v] nps IH]; [done|].
  rewrite !filter_cons. simpl. destruct (decide (k = name)) as [->|Hne]; [done|].
  intros Hnone. rewrite decide_True by done. by rewrite IH.
Qed.

(** [set] changes nothing in a set whose one pair of that name has the
    value. *)
Lemma usp_set_id name value nps :
  filter (λ p, p.1 = name) nps = [(name, value)] → usp_set name value nps = nps.
Proof.
  induction nps as [|[k v] nps IH]; simpl; [done|].
  rewrite filter_cons. simpl. destruct (decide (k = name)) as [->|Hne].
  - intros [= -> Hrest]. by rewrite usp_delete_absent.
  - intros Hrest. by rewrite IH.
Qed.

Lemma usp_set_fresh name value nps :
  name ∉ usp_keys nps → usp_set name value nps = nps ++ [(name, value)].
Proof.
  unfold usp_keys. induction nps as [|[k v] nps IH]; simpl; [done|].
  rewrite not_elem_of_cons. intros [Hne Hnot].
  rewrite decide_False by done. by rewrite IH.
Qed.

Lemma usp_keys_set name value nps key :
  key ∈ usp_keys (usp_set name value nps) → key = name ∨ key ∈ usp_keys nps.
Proof.
  unfold usp_keys. intros ([k v] & -> & Hin)%list_elem_of_fmap. simpl.
  apply elem_of_usp_set in Hin as [[= -> ->]|Hin]; [by left|].
  right. by apply (list_elem_of_fmap_2 fst) in Hin.
Qed.

(** [set] never makes a key occur twice. *)
Lemma usp_set_NoDup name value nps :
  NoDup (usp_keys nps) → NoDup (usp_keys (usp_set name value nps)).
Proof.
  unfold usp_keys. induction nps as [|[k v] nps IH]; simpl.
  { intros _. apply NoDup_singleton. }
  rewrite NoDup_cons. intros [Hk Hnodup].
  destruct (decide (k = name)) as [->|Hne]; simpl; apply NoDup_cons.
  - split.
    + intros ([k' v'] & Hname & Hin)%list_elem_of_fmap. simpl in Hname. subst k'.
      unfold usp_delete in Hin. by apply list_elem_of_filter in Hin as [? _].
    + unfold usp_delete. eapply sublist_NoDup; [done|].
      apply fmap_sublist, sublist_filter.
  - split; [|by apply IH].
    intros [->|Hin]%usp_keys_set; [done|]. by apply Hk.
Qed.
End ParamsFacts.

(** ** The registry, decode and encode *)

Section MoreProperties.
Context {TModel : Type} (emptyObject : TModel).
Implicit Types (this : ModelBinder TModel) (pb : ParamBinder TModel).
Implicit Types (h : heap TModel) (ps nps : URLSearchParams) (m : TModel).
Implicit Types (pbs : list (ParamBinder TModel)) (mdl : jsval).

(** X6. The registries [addParamBinder] can build are exactly the lists of
    binders with pairwise distinct names: no sequence of calls registers a
    name twice, and every list with distinct names can be built. *)
Theorem reachable_iff_distinct this : reachable this ↔ NoDup (names this).
Proof.
  split; [apply reachable_NoDup|].
  destruct this as [pbs]. unfold names. simpl.
  induction pbs as [|pb pbs IH] using rev_ind; [intros _; apply reachable_new|].
  rewrite fmap_app. intros (Hnodup & Hnot & _)%NoDup_app.
  pose proof (reachable_add (AParamBinder pb) {| paramBinders := pbs |} (IH Hnodup))
    as Hadd.
  simpl in Hadd. destruct (existsb _ pbs) eqn:Hex; [|done].
  apply existsb_exists in Hex as (pb' & Hpb'%list_elem_of_In & Hname%bool_decide_eq_true).
  exfalso. apply (Hnot (urlParamName pb')).
  - by apply list_elem_of_fmap_2.
  - rewrite Hname. simpl. apply elem_of_cons. by left.
Qed.

Lemma filter_all {X} (P : X → Prop) `{!∀ x, Decision (P x)} (xs : list X) :
  (∀ x, x ∈ xs → P x) → filter P xs = xs.
Proof.
  induction xs as [|x xs IH]; [done|]. intros Hall.
  rewrite filter_cons, decide_True by (apply Hall, elem_of_cons; by left).
  rewrite IH; [done|]. intros x' Hin. apply Hall, elem_of_cons. by right.
Qed.

Lemma foldl_assign_param_unbound this ps m keys :
  (∀ key, key ∈ keys → find_binder this key = None) →
  foldl (assign_param this ps) m keys = m.
Proof.
  induction keys as [|key keys IH] in m |- *; simpl; [done|]. intros Hnone.
  rewrite IH by (intros key' Hin; apply Hnone, elem_of_cons; by right).
  unfold assign_param. rewrite Hnone; [done|]. apply elem_of_cons. by left.
Qed.

(** X7. A [ModelBinder] without binders decodes every parameter set to a
    model: a new object with the content of the caller's model (or of
    [{}]), next to the copy of the parameter set it made. *)
Theorem decode_without_binders sc lp mdl h ps :
  paramObjects h !! lp = Some ps → model_ok mdl h →
  getModelFromUrlParams emptyObject sc newModelBinder (Some lp) mdl h =
    Ok ({| model := Some (JObject (length (objects h))); newParams := None |},
        Heap (objects h ++ [own_content emptyObject mdl h]) (paramObjects h ++ [ps])
             (unhandledRejections h)).
Proof.
  intros Hlp Hmodel.
  destruct (decode_spec emptyObject sc newModelBinder lp mdl h ps Hlp Hmodel)
    as (keys1 & keys2 & pbs & H1 & _ & _ & -> & _).
  simpl in H1. apply Permutation_nil_r in H1 as ->.
  unfold decode_outcome, assembled. simpl.
  assert (existsb (key_invalid newModelBinder ps) (usp_keys ps) = false) as ->.
  { by apply no_key_invalid. }
  rewrite foldl_assign_param_unbound by done.
  by rewrite filter_all.
Qed.

Lemma consistent_without_checks this m :
  (∀ pb, pb ∈ paramBinders this → isModelConsistentFunc pb = None) →
  inconsistent this m = false.
Proof.
  intros Hnone. destruct (inconsistent this m) eqn:Hinc; [|done].
  apply inconsistent_true in Hinc as (pb & Hpb & Hfalse).
  unfold isModelConsistent in Hfalse. by rewrite Hnone in Hfalse.
Qed.

(** X8. With binders that have no [isModelConsistent] function, decode
    never resets: it returns a model exactly when no key of the parameter
    set is invalid. *)
Theorem decode_without_checks sc this lp mdl h ps :
  paramObjects h !! lp = Some ps → model_ok mdl h →
  (∀ pb, pb ∈ paramBinders this → isModelConsistentFunc pb = None) →
  ∃ r h',
    getModelFromUrlParams emptyObject sc this (Some lp) mdl h = Ok (r, h') ∧
    ((∃ lm, r = {| model := Some (JObject lm); newParams := None |}) ↔
     (∀ key, key ∈ usp_keys ps → key_invalid this ps key = false)).
Proof.
  intros Hlp Hmodel Hnone.
  destruct (decode_spec emptyObject sc this lp mdl h ps Hlp Hmodel)
    as (keys1 & keys2 & pbs & _ & _ & _ & -> & _).
  unfold decode_outcome. rewrite consistent_without_checks by done.
  destruct (existsb (key_invalid this ps) (usp_keys ps)) eqn:Hinv.
  - eexists _, _. split; [done|]. split; [by intros [lm [=]]|].
    intros Hvalid%no_key_invalid. congruence.
  - eexists _, _. split; [done|]. split; [|by eexists].
    intros _. by apply no_key_invalid.
Qed.

Lemma filter_valid_keys (P : string → Prop) `{!∀ k, Decision (P k)} this ps ps0 :
  (∀ key, P key → key_invalid this ps key = false) →
  filter (λ p, P p.1) (filter (λ p, key_invalid this ps p.1 = false) ps0)
    = filter (λ p, P p.1) ps0.
Proof.
  intros HP. induction ps0 as [|[k v] ps0 IH]; [done|].
  rewrite !filter_cons. simpl. destruct (decide (P k)) as [Hk|Hk].
  - rewrite decide_True by (by apply HP). rewrite filter_cons. simpl.
    rewrite decide_True by done. by rewrite IH.
  - case_decide; [|done]. rewrite filter_cons. simpl. by rewrite decide_False.
Qed.

Lemma filter_reset_other (P : string → Prop) `{!∀ k, Decision (P k)} ps nps pbs :
  (∀ pb, pb ∈ pbs → ¬ P (urlParamName pb)) →
  filter (λ p, P p.1) (foldl (reset_key ps) nps pbs) = filter (λ p, P p.1) nps.
Proof.
  induction pbs as [|pb pbs IH] in nps |- *; simpl; [done|]. intros Hnot.
  rewrite IH by (intros pb' Hin; apply Hnot, elem_of_cons; by right).
  unfold reset_key. apply filter_usp_set, Hnot, elem_of_cons. by left.
Qed.

(** After the reset, one pair has the name of each binder. *)
Lemma filter_reset ps nps pbs pb :
  NoDup (urlParamName <$> pbs) → pb ∈ pbs →
  filter (λ p, p.1 = urlParamName pb) (foldl (reset_key ps) nps pbs)
    = [reset_pair ps pb].
Proof.
  induction pbs as [|pb' pbs IH] in nps |- *; simpl.
  { by intros _ ?%elem_of_nil. }
  rewrite NoDup_cons. intros [Hnot Hnodup] [->|Hin]%elem_of_cons.
  - pose proof (filter_reset_other (λ k, k = urlParamName pb') ps
                  (reset_key ps nps pb') pbs) as Hrest.
    simpl in Hrest. rewrite Hrest; [apply filter_usp_set_same|].
    intros pb Hpb Heq. apply Hnot. rewrite <- Heq. by apply list_elem_of_fmap_2.
  - by apply IH.
Qed.

(** What decode returns as [newParams], by the branch it took. *)
Lemma decode_newParams_inv sc this lp mdl h ps r h' ln nps :
  getModelFromUrlParams emptyObject sc this (Some lp) mdl h = Ok (r, h') →
  paramObjects h !! lp = Some ps →
  newParams r = Some ln → paramObjects h' !! ln = Some nps →
  let kept := filter (λ p, key_invalid this ps p.1 = false) ps in
  ln = length (paramObjects h) ∧
  h' = Heap (objects h ++ [default emptyObject (objects h' !! length (objects h))])
            (paramObjects h ++ [nps]) (unhandledRejections h) ∧
  ((existsb (key_invalid this ps) (usp_keys ps) = true ∧ nps = kept) ∨
   (existsb (key_invalid this ps) (usp_keys ps) = false ∧
    ∃ pbs, pbs ≡ₚ paramBinders this ∧ nps = foldl (reset_key ps) kept pbs)).
Proof.
  intros Hdec Hlp Hr Hln kept.
  apply decode_Ok_inv in Hdec
    as (lp' & ps' & keys1 & keys2 & pbs & [= <-] & Hlp' & _ & _ & _ & Hpbs & Hout).
  assert (ps' = ps) as -> by congruence.
  unfold decode_outcome in Hout.
  destruct (existsb (key_invalid this ps) (usp_keys ps)); [|destruct (inconsistent _ _)];
    injection Hout as -> ->; simpl in *; try done; injection Hr as <-;
    rewrite lookup_snoc in Hln; injection Hln as <-; rewrite lookup_snoc; simpl.
  - split; [done|]. split; [done|]. by left.
  - split; [done|]. split; [done|]. right. split; [done|]. by exists pbs.
Qed.

(** X9. A [newParams] that decode returns holds the pairs of the keys
    without binder exactly as the input did, repeated keys included, in
    their order. *)
Theorem decode_newParams_keeps_unregistered sc this lp mdl h ps r h' ln nps :
  getModelFromUrlParams emptyObject sc this (Some lp) mdl h = Ok (r, h') →
  paramObjects h !! lp = Some ps →
  newParams r = Some ln → paramObjects h' !! ln = Some nps →
  filter (λ p, p.1 ∉ names this) nps = filter (λ p, p.1 ∉ names this) ps.
Proof.
  intros Hdec Hlp Hr Hln.
  destruct (decode_newParams_inv sc this lp mdl h ps r h' ln nps Hdec Hlp Hr Hln)
    as (_ & _ & Hnps).
  assert (∀ key, key ∉ names this → key_invalid this ps key = false) as Hfree.
  { intros key Hkey%find_binder_None. unfold key_invalid. by rewrite Hkey. }
  pose proof (filter_valid_keys (λ key, key ∉ names this) this ps ps Hfree) as Hkept.
  simpl in Hkept.
  destruct Hnps as [[_ ->]|[_ (pbs & Hpbs & ->)]]; [done|].
  - pose proof (filter_reset_other (λ key, key ∉ names this) ps
                  (filter (λ p, key_invalid this ps p.1 = false) ps) pbs) as Hrest.
    simpl in Hrest. rewrite Hrest; [done|].
    + intros pb Hpb Hnot. apply Hnot. unfold names. apply list_elem_of_fmap_2.
      by rewrite <- Hpbs.
Qed.

(** X10. In the [newParams] of a reset (no key is invalid, so a consistency
    check failed) the name of every binder occurs in one pair, with the
    binder's default: a repeated key collapses into one. *)
Theorem decode_reset_once sc this lp mdl h ps r h' ln nps :
  getModelFromUrlParams emptyObject sc this (Some lp) mdl h = Ok (r, h') →
  paramObjects h !! lp = Some ps → reachable this →
  (∀ key, key ∈ usp_keys ps → key_invalid this ps key = false) →
  newParams r = Some ln → paramObjects h' !! ln = Some nps →
  ∀ pb, pb ∈ paramBinders this →
    filter (λ p, p.1 = urlParamName pb) nps
      = [(urlParamName pb, getDefaultParamValue pb (Some ps))].
Proof.
  intros Hdec Hlp Hnodup%reachable_NoDup Hvalid%no_key_invalid Hr Hln pb Hpb.
  destruct (decode_newParams_inv sc this lp mdl h ps r h' ln nps Hdec Hlp Hr Hln)
    as (_ & _ & [[Hinv _]|[_ (pbs & Hpbs & ->)]]); [congruence|].
  apply filter_reset.
  - unfold names in Hnodup. by rewrite Hpbs.
  - by rewrite Hpbs.
Qed.

(** With validity checks that only look at the value, what decode keeps of
    a parameter set passes them. *)
Lemma kept_keys_valid this ps key :
  validity_by_value this →
  let kept := filter (λ p, key_invalid this ps p.1 = false) ps in
  key_invalid this kept key = false.
Proof.
  intros Hvalue kept. unfold key_invalid.
  destruct (find_binder this key) as [pb|] eqn:Hfind; [|done].
  destruct (usp_get key kept) as [value|] eqn:Hget; [|done].
  assert (key_invalid this ps key = false) as Hkey.
  { apply usp_get_elem_of, list_elem_of_filter in Hget as [Hkey _]. done. }
  pose proof (usp_get_filter_keys (λ k, key_invalid this ps k = false) key ps Hkey)
    as Hsame.
  simpl in Hsame. fold kept in Hsame. rewrite Hsame in Hget.
  unfold key_invalid in Hkey. rewrite Hfind, Hget in Hkey.
  apply find_binder_Some in Hfind as [Hpb _].
  by rewrite (Hvalue pb Hpb value (Some kept) (Some ps)).
Qed.

(** X11. With validity checks that only look at the value, the [newParams]
    decode returned for an invalid key never has an invalid key: a decode of
    it returns a model exactly when the consistency checks pass on the
    model it assembles. *)
Theorem decode_again_after_invalid sc this lp mdl h ps key r h' ln :
  validity_by_value this →
  getModelFromUrlParams emptyObject sc this (Some lp) mdl h = Ok (r, h') →
  paramObjects h !! lp = Some ps →
  key ∈ usp_keys ps → key_invalid this ps key = true →
  newParams r = Some ln →
  ∀ sc' mdl', model_ok mdl' h' →
    ∃ r' h'' m',
      getModelFromUrlParams emptyObject sc' this (Some ln) mdl' h' = Ok (r', h'') ∧
      assembled_model emptyObject sc' this (Some ln) mdl' h' = Ok m' ∧
      ((∃ lm, r' = {| model := Some (JObject lm); newParams := None |}) ↔
       (∀ pb, pb ∈ paramBinders this → isModelConsistent pb m' = true)).
Proof.
  intros Hvalue Hdec Hlp Hkey Hinvalid Hr sc' mdl' Hmodel'.
  assert (∃ nps, paramObjects h' !! ln = Some nps) as [nps Hln].
  { apply decode_Ok_inv in Hdec
      as (lp' & ps' & keys1 & keys2 & pbs & _ & _ & _ & _ & _ & _ & Hout).
    unfold decode_outcome in Hout.
    repeat case_match; injection Hout as -> ->; simpl in *; try done;
      injection Hr as <-; rewrite lookup_snoc; by eexists. }
  destruct (decode_newParams_inv sc this lp mdl h ps r h' ln nps Hdec Hlp Hr Hln)
    as (_ & _ & [[_ ->]|[Hnone _]]);
    [|by rewrite (some_key_invalid this ps key) in Hnone].
  destruct (decode_spec emptyObject sc' this ln mdl' h' _ Hln Hmodel')
    as (keys1 & keys2 & pbs & _ & _ & _ & -> & ->).
  unfold decode_outcome.
  assert (existsb (key_invalid this (filter (λ p, key_invalid this ps p.1 = false) ps))
            (usp_keys (filter (λ p, key_invalid this ps p.1 = false) ps)) = false) as ->.
  { apply no_key_invalid. intros key' _. by apply kept_keys_valid. }
  set (m' := assembled _ _ _ _ _ _ _).
  destruct (inconsistent this m') eqn:Hinc.
  - eexists _, _, m'. split; [done|]. split; [done|]. split; [by intros [lm [=]]|].
    intros Hall. apply inconsistent_true in Hinc as (pb & Hpb & Hfalse).
    by rewrite Hall in Hfalse.
  - eexists _, _, m'. split; [done|]. split; [done|]. split; [|by eexists].
    intros _ pb Hpb. destruct (isModelConsistent pb m') eqn:Hpbm; [done|].
    assert (inconsistent this m' = true) by (apply inconsistent_true; eauto).
    congruence.
Qed.

(** From a parameter set without their names, the reset appends the pairs
    of the binders. *)
Lemma reset_fresh ps nps pbs :
  NoDup (urlParamName <$> pbs) →
  (∀ pb, pb ∈ pbs → urlParamName pb ∉ usp_keys nps) →
  foldl (reset_key ps) nps pbs = nps ++ (reset_pair ps <$> pbs).
Proof.
  induction pbs as [|pb pbs IH] in nps |- *; simpl.
  { intros _ _. by rewrite app_nil_r. }
  rewrite NoDup_cons. intros [Hnot Hnodup] Hfresh.
  unfold reset_key at 2. rewrite usp_set_fresh by (apply Hfresh, elem_of_cons; by left).
  rewrite IH; [by rewrite <- app_assoc|done|].
  intros pb' Hpb'. unfold usp_keys. rewrite fmap_app, elem_of_app. simpl.
  intros [Hin|Hin%list_elem_of_singleton].
  - eapply Hfresh; [|done]. apply elem_of_cons. by right.
  - apply Hnot. rewrite <- Hin. by apply list_elem_of_fmap_2.
Qed.

(** X12. Decode of an empty parameter set returns a model, or a
    [newParams] that consists of one pair per binder, its name with its
    default, in some order. *)
Theorem decode_empty_params sc this lp mdl h :
  paramObjects h !! lp = Some [] → model_ok mdl h → reachable this →
  ∃ r h',
    getModelFromUrlParams emptyObject sc this (Some lp) mdl h = Ok (r, h') ∧
    ((∃ lm, r = {| model := Some (JObject lm); newParams := None |}) ∨
     (∃ ln nps, r = {| model := None; newParams := Some ln |} ∧
        paramObjects h' !! ln = Some nps ∧
        nps ≡ₚ (λ pb, (urlParamName pb, getDefaultParamValue pb (Some [])))
                 <$> paramBinders this)).
Proof.
  intros Hlp Hmodel Hnodup%reachable_NoDup.
  destruct (decode_spec emptyObject sc this lp mdl h [] Hlp Hmodel)
    as (keys1 & keys2 & pbs & _ & _ & Hpbs & -> & _).
  unfold decode_outcome. simpl.
  destruct (inconsistent this _).
  - eexists _, _. split; [done|]. right. eexists _, _. split; [done|].
    split; [simpl; apply lookup_snoc|].
    rewrite filter_nil, reset_fresh.
    + simpl. unfold reset_pair. by rewrite Hpbs.
    + unfold names in Hnodup. by rewrite Hpbs.
    + intros pb _. apply not_elem_of_nil.
  - eexists _, _. split; [done|]. left. by eexists.
Qed.

(** X13. With lawful accessors and consistency checks that depend on what
    the binders read, the outcome of decode does not depend on the order in
    which the callbacks settle: if decode returns a model under one
    schedule, it returns one under every schedule, and the binders read the
    same values in both. *)
Theorem decode_schedule_independent sc sc' this lp mdl h lm h1 :
  reachable this → accessors_lawful this → consistency_by_reads this →
  getModelFromUrlParams emptyObject sc this (Some lp) mdl h
    = Ok ({| model := Some (JObject lm); newParams := None |}, h1) →
  ∃ lm' h1' M M',
    getModelFromUrlParams emptyObject sc' this (Some lp) mdl h
      = Ok ({| model := Some (JObject lm'); newParams := None |}, h1') ∧
    objects h1 !! lm = Some M ∧ objects h1' !! lm' = Some M' ∧
    ∀ pb, pb ∈ paramBinders this → getUrlParamValue pb M' = getUrlParamValue pb M.
Proof.
  intros Hnodup%reachable_NoDup Hlaw Hcons Hdec.
  apply decode_Ok_inv in Hdec
    as (lp' & ps & keys1 & keys2 & pbs & [= <-] & Hlp & Hmodel & H1 & H2 & _ & Hout).
  unfold decode_outcome in Hout.
  destruct (existsb (key_invalid this ps) (usp_keys ps)) eqn:Hinv; [done|].
  destruct (inconsistent this _) eqn:Hinc; [done|].
  injection Hout as -> ->.
  destruct (decode_spec emptyObject sc' this lp mdl h ps Hlp Hmodel)
    as (keys1' & keys2' & pbs' & H1' & H2' & _ & -> & _).
  unfold decode_outcome. rewrite Hinv.
  set (M := assembled emptyObject this ps mdl h keys1 keys2) in *.
  set (M' := assembled emptyObject this ps mdl h keys1' keys2').
  assert (∀ pb, pb ∈ paramBinders this →
            getUrlParamValue pb M' = getUrlParamValue pb M) as Hsame.
  { intros pb Hpb.
    destruct (assembled_read emptyObject this ps mdl h keys1 keys2 pb)
      as [Habsent Hpresent]; [done..|].
    destruct (assembled_read emptyObject this ps mdl h keys1' keys2' pb)
      as [Habsent' Hpresent']; [done..|].
    fold M in Habsent, Hpresent. fold M' in Habsent', Hpresent'.
    unfold getUrlParamValue.
    destruct (usp_get (urlParamName pb) ps) as [value|] eqn:Hget.
    - assert (isUrlParamValid pb value (Some ps) = true) as Hvalid.
      { assert (key_invalid this ps (urlParamName pb) = false) as Hkey.
        { eapply no_key_invalid; [done|]. by eapply usp_get_keys. }
        unfold key_invalid in Hkey. rewrite find_binder_NoDup, Hget in Hkey by done.
        by apply negb_false_iff in Hkey. }
      by rewrite (Hpresent value), (Hpresent' value).
    - assert (urlParamName pb ∉ usp_keys ps) as Hnot.
      { intros [value Hvalue]%usp_get_is_Some. congruence. }
      by rewrite Habsent, Habsent'. }
  assert (inconsistent this M' = false) as ->.
  { destruct (inconsistent this M') eqn:Hinc'; [|done].
    apply inconsistent_true in Hinc' as (pb & Hpb & Hfalse).
    rewrite (Hcons M' M Hsame pb Hpb) in Hfalse.
    assert (inconsistent this M = true) by (apply inconsistent_true; eauto).
    congruence. }
  eexists _, _, M, M'. split; [done|].
  split; [simpl; apply lookup_snoc|]. split; [simpl; apply lookup_snoc | done].
Qed.
End MoreProperties.

(** ** Encode, pair by pair *)

Section EncodeProperties.
Context {TModel : Type}.
Implicit Types (this : ModelBinder TModel) (pb : ParamBinder TModel).
Implicit Types (h : heap TModel) (ps nps : URLSearchParams) (m : TModel).
Implicit Types (pbs : list (ParamBinder TModel)) (sp : option loc).

(** When no default looks at [allParams], encode writes as [emit] does,
    binder after binder, in an order the schedule chooses. *)
Lemma encode_emits sched this lmod sp h m :
  objects h !! lmod = Some m → params_ok sp h → constant_defaults this →
  ∃ pbs, pbs ≡ₚ paramBinders this ∧
    getUrlParamsFromModel sched this (JObject lmod) sp h
      = Ok (encode_loc sp h,
            encode_heap sp h (foldl (emit m) (supplied_content sp h) pbs)).
Proof.
  intros Hm Hsp Hfree. unfold getUrlParamsFromModel. simpl.
  unfold deref_object. rewrite Hm. simpl. destruct h as [os pss u].
  destruct sp as [l0|]; simpl in *.
  - destruct Hsp as [nps0 Hl0]. unfold deref_params. simpl. rewrite Hl0 in *. simpl.
    destruct (encode_tasks_context_free lmod m l0 os pss u (paramBinders this) sched nps0)
      as (pbs & Hperm & ->); [done..|].
    by exists pbs.
  - unfold set_paramObjects. simpl.
    destruct (encode_tasks_context_free lmod m (length pss) os (pss ++ [[]]) u
                (paramBinders this) sched [])
      as (pbs & Hperm & ->); [done|apply lookup_snoc|done|].
    exists pbs. by rewrite insert_snoc.
Qed.

(** Encode leaves the pairs of the keys it has nothing to write for as they
    are, in their order. *)
Lemma encode_untouched (P : string → Prop) `{!∀ k, Decision (P k)}
    sched this lmod sp h m :
  objects h !! lmod = Some m → params_ok sp h →
  (∀ pb allParams, pb ∈ paramBinders this → P (urlParamName pb) →
     getUrlParamValue pb m = getDefaultParamValue pb (Some allParams)) →
  ∃ l h' nps,
    getUrlParamsFromModel sched this (JObject lmod) sp h = Ok (l, h') ∧
    paramObjects h' !! l = Some nps ∧
    filter (λ p, P p.1) nps = filter (λ p, P p.1) (supplied_content sp h).
Proof.
  intros Hm Hsp Hdefault.
  destruct (encode_spec
              (λ nps, filter (λ p, P p.1) nps
                        = filter (λ p, P p.1) (supplied_content sp h))
              sched this lmod sp h m) as (nps & Hnps & Heq); [done..| |].
  { intros pb nps nps' Hpb _ Hnps' Hne. rewrite <- Hnps'.
    apply filter_usp_set. intros HP. by apply Hne, Hdefault. }
  eexists _, _, nps. split; [done|]. split; [by apply encode_heap_lookup | done].
Qed.

(** X14. Encode keeps the pairs of the keys without binder as the supplied
    parameter set has them, repeated keys included, in their order. *)
Theorem encode_keeps_unregistered sched this lmod sp h m :
  objects h !! lmod = Some m → params_ok sp h →
  ∃ l h' nps,
    getUrlParamsFromModel sched this (JObject lmod) sp h = Ok (l, h') ∧
    paramObjects h' !! l = Some nps ∧
    filter (λ p, p.1 ∉ names this) nps
      = filter (λ p, p.1 ∉ names this) (supplied_content sp h).
Proof.
  intros Hm Hsp.
  refine (encode_untouched (λ key, key ∉ names this) sched this lmod sp h m Hm Hsp _).
  intros pb allParams Hpb Hnot. exfalso. apply Hnot.
  unfold names. by apply list_elem_of_fmap_2.
Qed.

(** X15. Encode never removes a key: when the model holds the default of
    every binder named [key], the pairs of [key] in the supplied parameter
    set stay as they are, although they no longer describe the model. *)
Theorem encode_keeps_default_key sched this lmod sp h m key :
  objects h !! lmod = Some m → params_ok sp h →
  (∀ pb allParams, pb ∈ paramBinders this → urlParamName pb = key →
     getUrlParamValue pb m = getDefaultParamValue pb (Some allParams)) →
  ∃ l h' nps,
    getUrlParamsFromModel sched this (JObject lmod) sp h = Ok (l, h') ∧
    paramObjects h' !! l = Some nps ∧
    filter (λ p, p.1 = key) nps = filter (λ p, p.1 = key) (supplied_content sp h).
Proof.
  intros Hm Hsp Hdefault.
  refine (encode_untouched (λ k, k = key) sched this lmod sp h m Hm Hsp _).
  intros pb allParams Hpb Hname. by apply Hdefault.
Qed.

(** X16. A binder with a string default whose accessor returns [undefined]
    or [null] reads its default, so encode writes nothing for it and leaves
    the pairs of its name as the supplied parameter set has them. *)
Theorem encode_unset_property sched this lmod sp h m pb d :
  objects h !! lmod = Some m → params_ok sp h → reachable this →
  pb ∈ paramBinders this →
  defaultParamValue pb = inl d → getUrlParamValueFunc pb m = None →
  ∃ l h' nps,
    getUrlParamsFromModel sched this (JObject lmod) sp h = Ok (l, h') ∧
    paramObjects h' !! l = Some nps ∧
    filter (λ p, p.1 = urlParamName pb) nps
      = filter (λ p, p.1 = urlParamName pb) (supplied_content sp h).
Proof.
  intros Hm Hsp Hnodup%reachable_NoDup Hpb Hd Hget.
  refine (encode_untouched (λ k, k = urlParamName pb) sched this lmod sp h m Hm Hsp _).
  intros pb' allParams Hpb' Hname.
  assert (pb' = pb) as ->.
  { assert (find_binder this (urlParamName pb') = Some pb') as Hfind
      by (by apply find_binder_NoDup).
    rewrite Hname, find_binder_NoDup in Hfind by done. congruence. }
  unfold getUrlParamValue, getDefaultParamValue. by rewrite Hget, Hd.
Qed.

Lemma filter_emit_other (P : string → Prop) `{!∀ k, Decision (P k)} m nps pbs :
  (∀ pb, pb ∈ pbs → ¬ P (urlParamName pb)) →
  filter (λ p, P p.1) (foldl (emit m) nps pbs) = filter (λ p, P p.1) nps.
Proof.
  induction pbs as [|pb pbs IH] in nps |- *; simpl; [done|]. intros Hnot.
  rewrite IH by (intros pb' Hin; apply Hnot, elem_of_cons; by right).
  unfold emit. case_decide; [|done].
  apply filter_usp_set, Hnot, elem_of_cons. by left.
Qed.

(** Once written, the name of a binder has one pair. *)
Lemma filter_emit m nps pbs pb :
  NoDup (urlParamName <$> pbs) → pb ∈ pbs →
  getUrlParamValue pb m ≠ getDefaultParamValue pb None →
  filter (λ p, p.1 = urlParamName pb) (foldl (emit m) nps pbs)
    = [(urlParamName pb, getUrlParamValue pb m)].
Proof.
  intros Hnodup Hpb Hne. induction pbs as [|pb' pbs IH] in nps, Hnodup, Hpb |- *; simpl.
  { by apply elem_of_nil in Hpb. }
  apply NoDup_cons in Hnodup as [Hnot Hnodup].
  apply elem_of_cons in Hpb as [->|Hin]; [|by apply IH].
  pose proof (filter_emit_other (λ k, k = urlParamName pb') m (emit m nps pb') pbs)
    as Hrest.
  simpl in Hrest. rewrite Hrest.
  - unfold emit. rewrite decide_True by done. apply filter_usp_set_same.
  - intros pb Hin Heq. apply Hnot. rewrite <- Heq. by apply list_elem_of_fmap_2.
Qed.

(** X17. When no default looks at [allParams], a binder whose value in the
    model differs from its default has, after encode, one pair of its name,
    with that value: the pairs the supplied parameter set repeated under
    the name are gone. *)
Theorem encode_sets_once sched this lmod sp h m pb :
  objects h !! lmod = Some m → params_ok sp h →
  reachable this → constant_defaults this →
  pb ∈ paramBinders this →
  getUrlParamValue pb m ≠ getDefaultParamValue pb None →
  ∃ l h' nps,
    getUrlParamsFromModel sched this (JObject lmod) sp h = Ok (l, h') ∧
    paramObjects h' !! l = Some nps ∧
    filter (λ p, p.1 = urlParamName pb) nps
      = [(urlParamName pb, getUrlParamValue pb m)].
Proof.
  intros Hm Hsp Hnodup%reachable_NoDup Hfree Hpb Hne.
  destruct (encode_emits sched this lmod sp h m Hm Hsp Hfree) as (pbs & Hperm & ->).
  eexists _, _, _. split; [done|]. split; [by apply encode_heap_lookup|].
  apply filter_emit; [|by rewrite Hperm|done].
  unfold names in Hnodup. by rewrite Hperm.
Qed.

(** Into a parameter set without their names, the binders append their
    pairs. *)
Lemma emit_fresh m nps pbs :
  NoDup (urlParamName <$> pbs) →
  (∀ pb, pb ∈ pbs → urlParamName pb ∉ usp_keys nps) →
  foldl (emit m) nps pbs = nps ++ omap (emitted m) pbs.
Proof.
  induction pbs as [|pb pbs IH] in nps |- *; simpl.
  { intros _ _. by rewrite app_nil_r. }
  rewrite NoDup_cons. intros [Hnot Hnodup] Hfresh.
  assert (emit m nps pb = nps ++ option_list (emitted m pb)) as ->.
  { unfold emit, emitted. case_decide; simpl; [|by rewrite app_nil_r].
    apply usp_set_fresh, Hfresh, elem_of_cons. by left. }
  rewrite IH; [|done|].
  - rewrite <- app_assoc. by destruct (emitted m pb).
  - intros pb' Hpb'. unfold usp_keys. rewrite fmap_app, elem_of_app.
    intros [Hin|Hin].
    + eapply Hfresh; [|done]. apply elem_of_cons. by right.
    + unfold emitted in Hin. case_decide; simpl in Hin;
        [|by apply elem_of_nil in Hin].
      apply list_elem_of_singleton in Hin.
      apply Hnot. rewrite <- Hin. by apply list_elem_of_fmap_2.
Qed.

(** X18. When no default looks at [allParams], encode without a parameter
    set returns one pair per binder whose value differs from its default,
    the name with the value, and nothing else; only their order depends on
    the schedule. *)
Theorem encode_fresh_content sched this lmod h m :
  objects h !! lmod = Some m → reachable this → constant_defaults this →
  ∃ l h' nps,
    getUrlParamsFromModel sched this (JObject lmod) None h = Ok (l, h') ∧
    paramObjects h' !! l = Some nps ∧
    nps ≡ₚ omap (λ pb,
                  if decide (getUrlParamValue pb m ≠ getDefaultParamValue pb None)
                  then Some (urlParamName pb, getUrlParamValue pb m)
                  else None) (paramBinders this).
Proof.
  intros Hm Hnodup%reachable_NoDup Hfree.
  destruct (encode_emits sched this lmod None h m Hm I Hfree) as (pbs & Hperm & ->).
  eexists _, _, _. split; [done|]. split; [by apply (encode_heap_lookup None)|].
  simpl. rewrite emit_fresh.
  - simpl. fold (emitted m). by rewrite Hperm.
  - unfold names in Hnodup. by rewrite Hperm.
  - intros pb _. apply not_elem_of_nil.
Qed.

(** X19. Encode never makes a key occur twice: if no key is repeated in the
    supplied parameter set (as in a new one), none is in the result. *)
Theorem encode_keys_NoDup sched this lmod sp h m :
  objects h !! lmod = Some m → params_ok sp h →
  NoDup (usp_keys (supplied_content sp h)) →
  ∃ l h' nps,
    getUrlParamsFromModel sched this (JObject lmod) sp h = Ok (l, h') ∧
    paramObjects h' !! l = Some nps ∧
    NoDup (usp_keys nps).
Proof.
  intros Hm Hsp Hnodup.
  destruct (encode_spec (λ nps, NoDup (usp_keys nps)) sched this lmod sp h m)
    as (nps & Hnps & Heq); [done..| |].
  { intros pb nps nps' _ _ Hnps' _. by apply usp_set_NoDup. }
  eexists _, _, nps. split; [done|]. split; [by apply encode_heap_lookup | done].
Qed.

(** What the binders wrote, they find in place when they write again. *)
Lemma emit_again m nps pbs pbs' :
  NoDup (urlParamName <$> pbs) → (∀ pb, pb ∈ pbs' → pb ∈ pbs) →
  foldl (emit m) (foldl (emit m) nps pbs) pbs' = foldl (emit m) nps pbs.
Proof.
  intros Hnodup. induction pbs' as [|pb pbs' IH]; simpl; [done|]. intros Hsub.
  assert (emit m (foldl (emit m) nps pbs) pb = foldl (emit m) nps pbs) as ->.
  { unfold emit at 1. case_decide as Hne; [|done].
    apply usp_set_id, filter_emit; [done| |done]. apply Hsub, elem_of_cons. by left. }
  apply IH. intros pb' Hin. apply Hsub, elem_of_cons. by right.
Qed.

(** X20. When no default looks at [allParams], encode is idempotent: encode
    of the same model into the parameter set encode returned leaves it as
    it is, whatever the two schedules. *)
Theorem encode_idempotent sched sched' this lmod sp h m :
  objects h !! lmod = Some m → params_ok sp h →
  reachable this → constant_defaults this →
  ∃ l h',
    getUrlParamsFromModel sched this (JObject lmod) sp h = Ok (l, h') ∧
    getUrlParamsFromModel sched' this (JObject lmod) (Some l) h' = Ok (l, h').
Proof.
  intros Hm Hsp Hnodup%reachable_NoDup Hfree.
  destruct (encode_emits sched this lmod sp h m Hm Hsp Hfree) as (pbs & Hperm & ->).
  set (nps := foldl (emit m) (supplied_content sp h) pbs).
  eexists _, _. split; [done|].
  assert (objects (encode_heap sp h nps) !! lmod = Some m) as Hm'.
  { by destruct sp. }
  assert (paramObjects (encode_heap sp h nps) !! encode_loc sp h = Some nps) as Hl.
  { by apply encode_heap_lookup. }
  destruct (encode_emits sched' this lmod (Some (encode_loc sp h))
              (encode_heap sp h nps) m Hm') as (pbs' & Hperm' & ->);
    [by eexists|done|].
  simpl. rewrite Hl. simpl. unfold nps at 2.
  rewrite emit_again.
  - fold nps. rewrite list_insert_id by done. by destruct (encode_heap sp h nps).
  - unfold names in Hnodup. by rewrite Hperm.
  - intros pb Hpb. by rewrite Hperm, <- Hperm'.
Qed.
End EncodeProperties.

(** ** What decode leaves alone, and decode followed by encode *)

Section Together.
Context {TModel : Type} (emptyObject : TModel).
Implicit Types (this : ModelBinder TModel) (pb : ParamBinder TModel).
Implicit Types (h : heap TModel) (ps nps : URLSearchParams) (m : TModel).
Implicit Types (pbs : list (ParamBinder TModel)) (mdl : jsval).

Lemma observe_assembled {A} (observe : TModel → A) this ps mdl h keys1 keys2 :
  (∀ pb m value, pb ∈ paramBinders this →
     observe (setValueToModelFunc pb m value) = observe m) →
  observe (assembled emptyObject this ps mdl h keys1 keys2)
    = observe (own_content emptyObject mdl h).
Proof.
  intros Hframe. unfold assembled.
  generalize (own_content emptyObject mdl h). intros m0.
  induction keys2 as [|key keys2 IH2] using rev_ind.
  - simpl. induction keys1 as [|key keys1 IH1] using rev_ind; [done|].
    rewrite foldl_snoc. unfold assign_default at 1.
    destruct (find_binder this key) as [pb|] eqn:Hfind; [|done].
    apply find_binder_Some in Hfind as [Hpb _]. by rewrite Hframe.
  - rewrite foldl_snoc. unfold assign_param at 1.
    destruct (find_binder this key) as [pb|] eqn:Hfind; [|done].
    apply find_binder_Some in Hfind as [Hpb _].
    destruct (usp_get key ps) as [value|]; [|done].
    destruct (isUrlParamValid pb value (Some ps)); [|done]. by rewrite Hframe.
Qed.

(** X21. Decode changes of the model only what the binders set: whatever
    no [setValueToModel] of a registered binder changes is, in the model
    decode returns, as in the caller's model (or in [{}]). *)
Theorem decode_keeps_unbound_properties {A} (observe : TModel → A)
    sc this lp mdl h lm h' :
  (∀ pb m value, pb ∈ paramBinders this →
     observe (setValueToModelFunc pb m value) = observe m) →
  getModelFromUrlParams emptyObject sc this (Some lp) mdl h
    = Ok ({| model := Some (JObject lm); newParams := None |}, h') →
  ∃ M, objects h' !! lm = Some M ∧
       observe M = observe (own_content emptyObject mdl h).
Proof.
  intros Hframe Hdec.
  apply decode_Ok_inv in Hdec
    as (lp' & ps & keys1 & keys2 & pbs & _ & _ & _ & _ & _ & _ & Hout).
  unfold decode_outcome in Hout.
  repeat case_match; try done. injection Hout as -> ->.
  eexists. split; [simpl; apply lookup_snoc|]. by apply observe_assembled.
Qed.

Lemma filter_absent key ps :
  key ∉ usp_keys ps → filter (λ p, p.1 = key) ps = [].
Proof.
  unfold usp_keys. induction ps as [|[k v] ps IH]; simpl; [done|].
  rewrite not_elem_of_cons. intros [Hne Hnot].
  rewrite filter_cons. simpl. rewrite decide_False by done. by apply IH.
Qed.

(** A key that is not repeated has one pair. *)
Lemma filter_single (P : string → Prop) `{!∀ k, Decision (P k)} key value ps :
  NoDup (filter P (usp_keys ps)) → P key → usp_get key ps = Some value →
  filter (λ p, p.1 = key) ps = [(key, value)].
Proof.
  intros Hnodup HP. unfold usp_keys in Hnodup.
  induction ps as [|[k v] ps IH]; simpl; [done|].
  rewrite fmap_cons, filter_cons in Hnodup. simpl in Hnodup.
  rewrite filter_cons. simpl. destruct (decide (k = key)) as [->|Hne].
  - intros [= ->]. rewrite decide_True in Hnodup by done.
    apply NoDup_cons in Hnodup as [Hnot _]. f_equal. apply filter_absent.
    intros Hin. apply Hnot. by apply list_elem_of_filter.
  - apply IH. case_decide; [by apply NoDup_cons in Hnodup as [_ ?] | done].
Qed.

Lemma valid_without_invalid this ps pb value :
  NoDup (names this) → pb ∈ paramBinders this →
  existsb (key_invalid this ps) (usp_keys ps) = false →
  usp_get (urlParamName pb) ps = Some value →
  isUrlParamValid pb value (Some ps) = true.
Proof.
  intros Hnodup Hpb Hinv Hget.
  assert (key_invalid this ps (urlParamName pb) = false) as Hkey.
  { eapply no_key_invalid; [done|]. by eapply usp_get_keys. }
  unfold key_invalid in Hkey. rewrite find_binder_NoDup, Hget in Hkey by done.
  by apply negb_false_iff in Hkey.
Qed.

Lemma foldl_fixed {X Y} (f : X → Y → X) (x : X) (ys : list Y) :
  (∀ y, y ∈ ys → f x y = x) → foldl f x ys = x.
Proof.
  induction ys as [|y ys IH]; simpl; [done|]. intros Hfix.
  rewrite Hfix by (apply elem_of_cons; by left).
  apply IH. intros y' Hin. apply Hfix, elem_of_cons. by right.
Qed.

(** X22. Decode followed by encode into the same parameter set changes
    nothing, when accessors are lawful, no default looks at [allParams] and
    the parameter set repeats no registered key: encode returns the
    caller's parameter set with the content it had. *)
Theorem decode_then_encode_in_place sc sched this lp mdl h ps lm h1 :
  reachable this → accessors_lawful this → constant_defaults this →
  paramObjects h !! lp = Some ps →
  NoDup (filter (λ key, key ∈ names this) (usp_keys ps)) →
  getModelFromUrlParams emptyObject sc this (Some lp) mdl h
    = Ok ({| model := Some (JObject lm); newParams := None |}, h1) →
  getUrlParamsFromModel sched this (JObject lm) (Some lp) h1 = Ok (lp, h1).
Proof.
  intros Hnodup%reachable_NoDup Hlaw Hfree Hlp Hsingle Hdec.
  apply decode_Ok_inv in Hdec
    as (lp' & ps' & keys1 & keys2 & pbs & [= <-] & Hlp' & Hmodel & H1 & H2 & _ & Hout).
  assert (ps' = ps) as -> by congruence.
  unfold decode_outcome in Hout.
  destruct (existsb (key_invalid this ps) (usp_keys ps)) eqn:Hinv; [done|].
  destruct (inconsistent this _) eqn:Hinc; [done|].
  injection Hout as -> ->.
  set (M := assembled emptyObject this ps mdl h keys1 keys2) in *.
  set (h1 := Heap (objects h ++ [M]) _ _).
  assert (paramObjects h1 !! lp = Some ps) as Hlp1 by (by apply lookup_app_l_Some).
  destruct (encode_emits sched this (length (objects h)) (Some lp) h1 M)
    as (pbs' & Hperm & ->); [apply lookup_snoc|by eexists|done|].
  unfold supplied_content, encode_loc, encode_heap. rewrite Hlp1. simpl.
  rewrite foldl_fixed.
  { by rewrite list_insert_id. }
  intros pb Hpb. rewrite Hperm in Hpb. unfold emit. case_decide as Hne; [|done].
  destruct (assembled_read emptyObject this ps mdl h keys1 keys2 pb)
    as [Habsent Hpresent]; [done..|].
  fold M in Habsent, Hpresent.
  destruct (usp_get (urlParamName pb) ps) as [value|] eqn:Hget.
  - assert (getUrlParamValue pb M = value) as ->.
    { unfold getUrlParamValue. rewrite (Hpresent value); [done..|].
      by eapply valid_without_invalid. }
    apply usp_set_id.
    refine (filter_single (λ key, key ∈ names this) _ _ _ Hsingle _ Hget).
    unfold names. by apply list_elem_of_fmap_2.
  - exfalso. apply Hne. unfold getUrlParamValue. rewrite Habsent; [apply Hfree, Hpb|].
    intros [value Hvalue]%usp_get_is_Some. congruence.
Qed.
End Together.

(** ** Decode of what decode proposed *)

Section Redirect.
Context {TModel : Type} (emptyObject : TModel).
Implicit Types (this : ModelBinder TModel) (pb : ParamBinder TModel).
Implicit Types (h : heap TModel) (ps nps : URLSearchParams) (m : TModel).
Implicit Types (pbs : list (ParamBinder TModel)) (mdl : jsval).

(** X23. The reset is a fixed point, when no default looks at [allParams]
    and every default passes its validity check: a decode of the
    [newParams] of a reset returns a model, or a [newParams] with the very
    same content. *)
Theorem decode_again_after_reset sc this lp mdl h ps r h' ln nps :
  reachable this → constant_defaults this → defaults_valid this →
  getModelFromUrlParams emptyObject sc this (Some lp) mdl h = Ok (r, h') →
  paramObjects h !! lp = Some ps →
  (∀ key, key ∈ usp_keys ps → key_invalid this ps key = false) →
  newParams r = Some ln → paramObjects h' !! ln = Some nps →
  ∀ sc' mdl', model_ok mdl' h' →
    ∃ r' h'',
      getModelFromUrlParams emptyObject sc' this (Some ln) mdl' h' = Ok (r', h'') ∧
      ((∃ lm, r' = {| model := Some (JObject lm); newParams := None |}) ∨
       (∃ ln', r' = {| model := None; newParams := Some ln' |} ∧
               paramObjects h'' !! ln' = Some nps)).
Proof.
  intros Hnodup%reachable_NoDup Hfree Hvalid Hdec Hlp Hps%no_key_invalid Hr Hln
    sc' mdl' Hmodel'.
  destruct (decode_newParams_inv emptyObject sc this lp mdl h ps r h' ln nps
              Hdec Hlp Hr Hln) as (_ & _ & [[Hinv _]|[_ (pbs & Hpbs & Hnps)]]);
    [congruence|].
  assert (∀ pb, pb ∈ paramBinders this →
            filter (λ p, p.1 = urlParamName pb) nps = [reset_pair ps pb]) as Honce.
  { intros pb Hpb. rewrite Hnps. apply filter_reset.
    - unfold names in Hnodup. by rewrite Hpbs.
    - by rewrite Hpbs. }
  assert (∀ key, key_invalid this nps key = false) as Hkeys.
  { intros key. unfold key_invalid.
    destruct (find_binder this key) as [pb|] eqn:Hfind; [|done].
    apply find_binder_Some in Hfind as [Hpb <-].
    destruct (usp_get (urlParamName pb) nps) as [value|] eqn:Hget; [|done].
    apply negb_false_iff.
    assert ((urlParamName pb, value) ∈ filter (λ p, p.1 = urlParamName pb) nps) as Hin.
    { apply list_elem_of_filter. split; [done | by apply usp_get_elem_of]. }
    rewrite Honce in Hin by done. apply list_elem_of_singleton in Hin.
    injection Hin as ->. by apply Hvalid. }
  destruct (decode_spec emptyObject sc' this ln mdl' h' nps Hln Hmodel')
    as (keys1 & keys2 & pbs' & _ & _ & Hpbs' & -> & _).
  unfold decode_outcome.
  assert (existsb (key_invalid this nps) (usp_keys nps) = false) as ->.
  { apply no_key_invalid. intros key _. apply Hkeys. }
  destruct (inconsistent this _).
  - eexists _, _. split; [done|]. right. eexists. split; [done|].
    simpl. rewrite lookup_snoc. f_equal.
    rewrite filter_all by (intros p _; apply Hkeys).
    apply foldl_fixed. intros pb Hpb. rewrite Hpbs' in Hpb.
    unfold reset_key. apply usp_set_id. rewrite Honce by done.
    unfold reset_pair. by rewrite (Hfree pb Hpb (Some nps)), (Hfree pb Hpb (Some ps)).
  - eexists _, _. split; [done|]. left. by eexists.
Qed.
End Redirect.

(** ** Keys without binder *)

Section UnregisteredKeys.
Context {TModel : Type} (emptyObject : TModel).
Implicit Types (this : ModelBinder TModel) (pb : ParamBinder TModel).
Implicit Types (h : heap TModel) (ps nps : URLSearchParams) (m : TModel).
Implicit Types (pbs : list (ParamBinder TModel)) (mdl : jsval) (key : string).

Lemma usp_keys_delete key ps :
  usp_keys (usp_delete key ps) = filter (λ k, k ≠ key) (usp_keys ps).
Proof.
  unfold usp_keys, usp_delete. induction ps as [|[k v] ps IH]; [done|].
  rewrite fmap_cons, !filter_cons. simpl. case_decide; [|done].
  by rewrite fmap_cons, IH.
Qed.

Lemma usp_delete_comm key key' nps :
  usp_delete key (usp_delete key' nps) = usp_delete key' (usp_delete key nps).
Proof.
  unfold usp_delete. induction nps as [|[k v] nps IH]; [done|].
  rewrite !filter_cons. simpl.
  destruct (decide (k ≠ key')), (decide (k ≠ key));
    rewrite ?filter_cons; simpl; rewrite ?decide_True, ?decide_False by done;
    by rewrite ?IH.
Qed.

Lemma usp_delete_set_ne key name value nps :
  name ≠ key →
  usp_delete key (usp_set name value nps) = usp_set name value (usp_delete key nps).
Proof.
  intros Hne. induction nps as [|[k v] nps IH]; simpl.
  { unfold usp_delete. rewrite filter_cons. simpl. by rewrite decide_True. }
  destruct (decide (k = name)) as [->|Hk].
  - unfold usp_delete at 1 3. rewrite !filter_cons. simpl.
    rewrite !decide_True by done. simpl. rewrite decide_True by done.
    f_equal. apply usp_delete_comm.
  - unfold usp_delete at 1 2. rewrite !filter_cons. simpl.
    fold (usp_delete key (usp_set name value nps)). fold (usp_delete key nps).
    destruct (decide (k ≠ key)); simpl; [|done].
    rewrite decide_False by done. by rewrite IH.
Qed.

Lemma filter_none {X} (P : X → Prop) `{!∀ x, Decision (P x)} (xs : list X) :
  (∀ x, x ∈ xs → ¬ P x) → filter P xs = [].
Proof.
  induction xs as [|x xs IH]; [done|]. intros Hnone.
  rewrite filter_cons, decide_False by (apply Hnone, elem_of_cons; by left).
  apply IH. intros x' Hin. apply Hnone, elem_of_cons. by right.
Qed.

Lemma filter_ext_in {X} (P Q : X → Prop) `{!∀ x, Decision (P x)} `{!∀ x, Decision (Q x)}
    (xs : list X) :
  (∀ x, x ∈ xs → P x ↔ Q x) → filter P xs = filter Q xs.
Proof.
  induction xs as [|x xs IH]; [done|]. intros Hiff.
  rewrite !filter_cons.
  rewrite IH by (intros x' Hin; apply Hiff, elem_of_cons; by right).
  pose proof (Hiff x ltac:(apply elem_of_cons; by left)) as Hx.
  destruct (decide (P x)) as [HP|HP], (decide (Q x)) as [HQ|HQ]; try done;
    exfalso; [apply HQ, Hx, HP | apply HP, Hx, HQ].
Qed.

Lemma existsb_filter_false {X} (g : X → bool) (P : X → Prop) `{!∀ x, Decision (P x)}
    (xs : list X) :
  (∀ x, ¬ P x → g x = false) → existsb g (filter P xs) = existsb g xs.
Proof.
  intros Hfalse. induction xs as [|x xs IH]; [done|].
  rewrite filter_cons. case_decide as HP; simpl; [by rewrite IH|].
  by rewrite Hfalse, IH.
Qed.

Section without_key.
Context (this : ModelBinder TModel) (ps : URLSearchParams) (key : string).
Hypothesis Hfind : find_binder this key = None.
Hypothesis Halike : answers_alike this ps (usp_delete key ps).

Lemma registered_ne k pb : find_binder this k = Some pb → k ≠ key.
Proof using Hfind. intros Hk ->. congruence. Qed.

Lemma key_invalid_without k :
  key_invalid this (usp_delete key ps) k = key_invalid this ps k.
Proof using Hfind Halike.
  unfold key_invalid. destruct (find_binder this k) as [pb|] eqn:Hk; [|done].
  rewrite usp_get_delete_ne by (by eapply registered_ne).
  destruct (usp_get k ps) as [value|] eqn:Hget; [|done].
  apply find_binder_Some in Hk as [Hpb <-].
  destruct (Halike pb Hpb) as [_ Hvalid]. by rewrite (Hvalid value Hget).
Qed.

Lemma assign_default_without m k :
  assign_default this (usp_delete key ps) m k = assign_default this ps m k.
Proof using Halike.
  unfold assign_default. destruct (find_binder this k) as [pb|] eqn:Hk; [|done].
  apply find_binder_Some in Hk as [Hpb _].
  destruct (Halike pb Hpb) as [Hdefault _]. by rewrite Hdefault.
Qed.

Lemma assign_param_without m k :
  assign_param this (usp_delete key ps) m k = assign_param this ps m k.
Proof using Hfind Halike.
  unfold assign_param. destruct (find_binder this k) as [pb|] eqn:Hk; [|done].
  rewrite usp_get_delete_ne by (by eapply registered_ne).
  destruct (usp_get k ps) as [value|] eqn:Hget; [|done].
  apply find_binder_Some in Hk as [Hpb <-].
  destruct (Halike pb Hpb) as [_ Hvalid]. by rewrite (Hvalid value Hget).
Qed.

Lemma absent_without :
  filter (λ k, k ∉ usp_keys (usp_delete key ps)) (names this)
    = filter (λ k, k ∉ usp_keys ps) (names this).
Proof using Hfind.
  apply filter_ext_in. intros k Hk. rewrite usp_keys_delete, list_elem_of_filter.
  assert (k ≠ key) as Hne.
  { intros ->. by apply find_binder_None in Hfind. }
  split; [intros Hnot Hin; by apply Hnot | by intros Hnot [_ Hin]].
Qed.

Lemma kept_without ps0 :
  filter (λ p, key_invalid this (usp_delete key ps) p.1 = false) (usp_delete key ps0)
    = usp_delete key (filter (λ p, key_invalid this ps p.1 = false) ps0).
Proof using Hfind Halike.
  unfold usp_delete. rewrite !list_filter_filter.
  apply list_filter_iff. intros [k v]. simpl. rewrite key_invalid_without. tauto.
Qed.

Lemma reset_without nps pbs :
  (∀ pb, pb ∈ pbs → pb ∈ paramBinders this) →
  foldl (reset_key (usp_delete key ps)) (usp_delete key nps) pbs
    = usp_delete key (foldl (reset_key ps) nps pbs).
Proof using Hfind Halike.
  induction pbs as [|pb pbs IH] in nps |- *; simpl; [done|]. intros Hsub.
  assert (pb ∈ paramBinders this) as Hpb by (apply Hsub, elem_of_cons; by left).
  rewrite <- IH by (intros pb' Hin; apply Hsub, elem_of_cons; by right).
  f_equal. unfold reset_key. destruct (Halike pb Hpb) as [<- _].
  symmetry. apply usp_delete_set_ne. intros Heq.
  apply find_binder_None in Hfind. apply Hfind. rewrite <- Heq.
  unfold names. by apply list_elem_of_fmap_2.
Qed.

(** The outcome of decode on the parameter set without the key, when the
    tasks of the other keys complete in the same order. *)
Lemma outcome_without mdl h keys1 keys2 pbs :
  pbs ≡ₚ paramBinders this →
  ∃ r M nps,
    decode_outcome emptyObject this ps mdl h keys1 keys2 pbs =
      (r, Heap (objects h ++ [M]) (paramObjects h ++ [nps]) (unhandledRejections h)) ∧
    decode_outcome emptyObject this (usp_delete key ps) mdl h keys1
        (filter (λ k, k ≠ key) keys2) pbs =
      (r, Heap (objects h ++ [M]) (paramObjects h ++ [usp_delete key nps])
               (unhandledRejections h)).
Proof using Hfind Halike.
  intros Hpbs. unfold decode_outcome, assembled.
  rewrite (foldl_ext_in (assign_default this (usp_delete key ps))
             (assign_default this ps)) by (intros; apply assign_default_without).
  rewrite (foldl_ext_in (assign_param this (usp_delete key ps))
             (assign_param this ps)) by (intros; apply assign_param_without).
  rewrite foldl_assign_param_skip by done.
  rewrite (kept_without ps).
  assert (existsb (key_invalid this (usp_delete key ps)) (usp_keys (usp_delete key ps))
            = existsb (key_invalid this ps) (usp_keys ps)) as ->.
  { rewrite usp_keys_delete.
    rewrite (existsb_filter_false (key_invalid this (usp_delete key ps))).
    - induction (usp_keys ps) as [|k ks IH]; [done|].
      simpl. by rewrite key_invalid_without, IH.
    - intros k Hk. apply dec_stable in Hk as ->.
      unfold key_invalid. by rewrite Hfind. }
  destruct (existsb (key_invalid this ps) (usp_keys ps)); [by eexists _, _, _|].
  destruct (inconsistent this _); [|by eexists _, _, _].
  rewrite reset_without by (intros pb Hpb; by rewrite <- Hpbs).
  by eexists _, _, _.
Qed.
End without_key.

(** C8, as the code has it. The task of a key of the parameter set that has
    no registered binder ends at once: no validity check runs for the key,
    nothing is written to the model or to [newParams], [hasErrors] is left
    as it is; and a [newParams] that decode returns holds the pairs of the
    key as the input did. The callbacks of the registered binders still
    receive the whole parameter set, that key included, as [allParams].
    When they answer the same with and without the key, the key changes
    nothing: what decode returns under a schedule it returns, under some
    schedule, for the parameter set without the pairs of the key (the same
    result, the same model, a [newParams] that differs by the pairs of the
    key), and the other way round. *)
Theorem decode_unknown_key sc this lp mdl h ps key :
  find_binder this key = None →
  (∀ mdl' ln, paramTask this lp mdl' ln key = Done) ∧
  (∀ r h' ln nps,
     getModelFromUrlParams emptyObject sc this (Some lp) mdl h = Ok (r, h') →
     paramObjects h !! lp = Some ps →
     newParams r = Some ln → paramObjects h' !! ln = Some nps →
     filter (λ p, p.1 = key) nps = filter (λ p, p.1 = key) ps) ∧
  (∀ lp',
     paramObjects h !! lp = Some ps →
     paramObjects h !! lp' = Some (usp_delete key ps) → model_ok mdl h →
     answers_alike this ps (usp_delete key ps) →
     (∃ sc' r M nps,
        getModelFromUrlParams emptyObject sc this (Some lp) mdl h =
          Ok (r, Heap (objects h ++ [M]) (paramObjects h ++ [nps])
                      (unhandledRejections h)) ∧
        getModelFromUrlParams emptyObject sc' this (Some lp') mdl h =
          Ok (r, Heap (objects h ++ [M]) (paramObjects h ++ [usp_delete key nps])
                      (unhandledRejections h))) ∧
     (∃ sc' r M nps,
        getModelFromUrlParams emptyObject sc' this (Some lp) mdl h =
          Ok (r, Heap (objects h ++ [M]) (paramObjects h ++ [nps])
                      (unhandledRejections h)) ∧
        getModelFromUrlParams emptyObject sc this (Some lp') mdl h =
          Ok (r, Heap (objects h ++ [M]) (paramObjects h ++ [usp_delete key nps])
                      (unhandledRejections h)))).
Proof.
  intros Hfind.
  assert (∀ k, k = key → key_invalid this ps k = false) as Hvalid.
  { intros k ->. unfold key_invalid. by rewrite Hfind. }
  split; [|split].
  - intros mdl' ln. unfold paramTask. by rewrite Hfind.
  - intros r h' ln nps Hdec Hlp Hr Hln.
    destruct (decode_newParams_inv emptyObject sc this lp mdl h ps r h' ln nps
                Hdec Hlp Hr Hln) as (_ & _ & Hnps).
    pose proof (filter_valid_keys (λ k, k = key) this ps ps Hvalid) as Hkept.
    simpl in Hkept.
    destruct Hnps as [[_ ->]|[_ (pbs & Hpbs & ->)]]; [done|].
    pose proof (filter_reset_other (λ k, k = key) ps
                  (filter (λ p, key_invalid this ps p.1 = false) ps) pbs) as Hrest.
    simpl in Hrest. rewrite Hrest; [done|].
    intros pb Hpb Heq. apply find_binder_None in Hfind. apply Hfind.
    rewrite <- Heq. unfold names. apply list_elem_of_fmap_2. by rewrite <- Hpbs.
  - intros lp' Hlp Hlp' Hmodel Halike. split.
    + destruct (decode_spec emptyObject sc this lp mdl h ps Hlp Hmodel)
        as (keys1 & keys2 & pbs & H1 & H2 & H3 & Hdec & _).
      destruct (outcome_without this ps key Hfind Halike mdl h keys1 keys2 pbs H3)
        as (r & M & nps & Hout & Hout').
      destruct (decode_realises emptyObject this lp' mdl h (usp_delete key ps) keys1
                  (filter (λ k, k ≠ key) keys2) pbs) as [sc' Hdec'];
        [done | done | by rewrite absent_without
        | by rewrite usp_keys_delete, H2 | done |].
      exists sc', r, M, nps. by rewrite Hdec, Hdec', Hout, Hout'.
    + destruct (decode_spec emptyObject sc this lp' mdl h _ Hlp' Hmodel)
        as (keys1 & keys2' & pbs & H1 & H2 & H3 & Hdec' & _).
      set (keys2 := keys2' ++ filter (λ k, ¬ k ≠ key) (usp_keys ps)).
      assert (filter (λ k, k ≠ key) keys2 = keys2') as Hkeys2.
      { unfold keys2. rewrite filter_app, filter_all, filter_none.
        - apply app_nil_r.
        - by intros k [? _]%list_elem_of_filter.
        - intros k. rewrite H2, usp_keys_delete. by intros [? _]%list_elem_of_filter. }
      destruct (outcome_without this ps key Hfind Halike mdl h keys1 keys2 pbs H3)
        as (r & M & nps & Hout & Hout').
      destruct (decode_realises emptyObject this lp mdl h ps keys1 keys2 pbs)
        as [sc' Hdec]; [done | done | by rewrite <- (absent_without this ps key Hfind) | | done |].
      { unfold keys2. rewrite H2, usp_keys_delete. apply filter_app_complement. }
      exists sc', r, M, nps. rewrite Hdec, Hdec', Hout. by rewrite <- Hkeys2, Hout'.
Qed.
End UnregisteredKeys.

(** * Witnesses and counterexamples *)

Import Examples CornerCases.

(** The example codecs are built by [addParamBinder]. *)
Lemma codecAB_reachable : reachable codecAB.
Proof.
  apply (reachable_add (AParamBinder binderB) codecA).
  apply (reachable_add (AParamBinder binderA) newModelBinder).
  apply reachable_new.
Qed.

Lemma codecXY_reachable : reachable codecXY.
Proof.
  apply (reachable_add (AParamBinder binderY) {| paramBinders := [binderX] |}).
  apply (reachable_add (AParamBinder binderX) newModelBinder).
  apply reachable_new.
Qed.

(** Splits a membership in a list that is written out into its cases. *)
Ltac pick_member H :=
  simpl in H; repeat (apply elem_of_cons in H as [->|H]);
  [..|by apply elem_of_nil in H].

Lemma codecAB_lawful : accessors_lawful codecAB.
Proof.
  split.
  - intros pb m value Hpb. pick_member Hpb; apply usp_get_set_eq.
  - intros pb pb' m value Hpb Hpb' Hne.
    pick_member Hpb; pick_member Hpb'; try done; by apply usp_get_set_ne.
Qed.

Lemma codecAB_context_free : context_free codecAB.
Proof.
  intros pb Hpb c c'. pick_member Hpb; done.
Qed.

Lemma codecAB_consistency : consistency_by_reads codecAB.
Proof.
  intros m m' _ pb Hpb. pick_member Hpb; done.
Qed.

(** Against C1 as stated: encode of a model into a parameter set of the
    caller changes that parameter set. Here the caller's empty set at
    location 4 receives the key [A]. *)
Lemma encode_writes_to_supplied_params :
  paramObjects heap0 !! 4 = Some [] ∧
  getUrlParamsFromModel [] codecA (JObject 0) (Some 4) heap0 =
    Ok (4, {|
      objects := objects heap0;
      paramObjects := [
        [("A", "x"); ("B", "bad")];
        [("A", "x"); ("B", "5"); ("C", "unknown")];
        [("fieldX", "7"); ("fieldY", "7")];
        [("from", "0"); ("to", "9")];
        [("A", "kept")]
      ];
      unhandledRejections := []
    |}).
Proof. split; reflexivity. Qed.

Lemma codec_frame_witness :
  ∃ r h1 l h2,
    getModelFromUrlParams [] shuffled codecAB (Some 1) (JObject 0) heap0 = Ok (r, h1) ∧
    heap_preserved heap0 h1 ∧
    getUrlParamsFromModel [1; 0] codecAB (JObject 0) None heap0 = Ok (l, h2) ∧
    objects h2 = objects heap0 ∧
    paramObjects heap0 !! l = None ∧
    ∀ l0 ps, paramObjects heap0 !! l0 = Some ps → paramObjects h2 !! l0 = Some ps.
Proof.
  destruct (codec_frame [] shuffled [1; 0] codecAB (Some 1) (JObject 0) None heap0)
    as [Hdecode Hencode].
  eexists _, _, _, _. split; [reflexivity|].
  split; [eapply Hdecode; reflexivity|]. split; [reflexivity|].
  eapply Hencode. reflexivity.
Defined.

(** The single invalid key example: decoding [{A: "x", B: "bad"}]. *)
Lemma decode_invalid_key_witness :
  (paramObjects heap0 !! 0 = Some [("A", "x"); ("B", "bad")] ∧
   find_binder codecAB "B" = Some binderB ∧
   isUrlParamValid binderB "bad" (Some [("A", "x"); ("B", "bad")]) = false) ∧
  ∃ ln h',
    getModelFromUrlParams [] shuffled codecAB (Some 0) JUndefined heap0 =
      Ok ({| model := None; newParams := Some ln |}, h') ∧
    paramObjects h' !! ln = Some [("A", "x")].
Proof.
  split; [repeat split; reflexivity|].
  apply (decode_invalid_key [] shuffled codecAB 0 JUndefined heap0
           [("A", "x"); ("B", "bad")] "B" binderB "bad"); first [reflexivity | exact I].
Defined.

(** The consistency reset: both ends of the range are valid and equal. *)
Lemma decode_inconsistent_witness :
  (assembled_model [] shuffled codecXY (Some 2) JNull heap0 = Ok [("x", "7"); ("y", "7")] ∧
   isModelConsistent binderX [("x", "7"); ("y", "7")] = false) ∧
  ∃ ln h' nps,
    getModelFromUrlParams [] shuffled codecXY (Some 2) JNull heap0 =
      Ok ({| model := None; newParams := Some ln |}, h') ∧
    paramObjects h' !! ln = Some nps ∧
    ∀ pb', pb' ∈ paramBinders codecXY →
      usp_get (urlParamName pb') nps
        = Some (getDefaultParamValue pb' (Some [("fieldX", "7"); ("fieldY", "7")])).
Proof.
  split; [split; reflexivity|].
  apply (decode_inconsistent [] shuffled codecXY 2 JNull heap0
           [("fieldX", "7"); ("fieldY", "7")] [("x", "7"); ("y", "7")] binderX).
  - reflexivity.
  - exact I.
  - apply codecXY_reachable.
  - by apply no_key_invalid.
  - reflexivity.
  - apply elem_of_cons. by left.
  - reflexivity.
Defined.

Lemma decode_one_variant_witness :
  paramObjects heap0 !! 1 = Some [("A", "x"); ("B", "5"); ("C", "unknown")] ∧
  ∃ r h' m,
    getModelFromUrlParams [] shuffled codecAB (Some 1) (JObject 0) heap0 = Ok (r, h') ∧
    assembled_model [] shuffled codecAB (Some 1) (JObject 0) heap0 = Ok m ∧
    ((∃ lm, r = {| model := Some (JObject lm); newParams := None |} ∧
            objects h' !! lm = Some m ∧
            (∀ key, key ∈ usp_keys [("A", "x"); ("B", "5"); ("C", "unknown")] →
               key_invalid codecAB [("A", "x"); ("B", "5"); ("C", "unknown")] key = false) ∧
            (∀ pb, pb ∈ paramBinders codecAB → isModelConsistent pb m = true))
     ∨ ((∃ ln, r = {| model := None; newParams := Some ln |}) ∧
        ((∃ key, key ∈ usp_keys [("A", "x"); ("B", "5"); ("C", "unknown")] ∧
                 key_invalid codecAB [("A", "x"); ("B", "5"); ("C", "unknown")] key = true) ∨
         (∃ pb, pb ∈ paramBinders codecAB ∧ isModelConsistent pb m = false)))).
Proof.
  split; [reflexivity|].
  apply (decode_one_variant [] shuffled codecAB 1 (JObject 0) heap0);
    [reflexivity | by eexists].
Defined.


(** Each condition of the round trip is needed. With a default that looks
    at [allParams] (and lawful accessors, validity checks that do not):
    decode of [{p: "e", q: "5"}] returns a model, encode leaves [p] out
    since it holds the default it has for the empty set, and decode of
    the result reads for [p] the default it has next to [q]. *)
Lemma roundtrip_needs_constant_defaults :
  (accessors_lawful codecPQ ∧ validity_by_value codecPQ ∧
   consistency_by_accessors codecPQ) ∧
  ∃ h1 h2 h3,
    getModelFromUrlParams [] in_order codecPQ (Some 0) JUndefined heap3
      = Ok ({| model := Some (JObject 1); newParams := None |}, h1) ∧
    objects h1 !! 1 = Some [("p", "e"); ("q", "5")] ∧
    getUrlParamsFromModel [] codecPQ (JObject 1) None h1 = Ok (4, h2) ∧
    paramObjects h2 !! 4 = Some [("q", "5")] ∧
    getModelFromUrlParams [] in_order codecPQ (Some 4) JUndefined h2
      = Ok ({| model := Some (JObject 2); newParams := None |}, h3) ∧
    objects h3 !! 2 = Some [("p", "n"); ("q", "5")].
Proof.
  split; [|eexists _, _, _; repeat split; reflexivity].
  split; [|split].
  - split.
    + intros pb m value Hpb. pick_member Hpb; apply usp_get_set_eq.
    + intros pb pb' m value Hpb Hpb' Hne.
      pick_member Hpb; pick_member Hpb'; try done; by apply usp_get_set_ne.
  - intros pb Hpb value c c'. pick_member Hpb; done.
  - intros m m' _ pb Hpb. pick_member Hpb; done.
Qed.

(** With an accessor that does not read what the binder wrote: decode of
    the empty set returns a model, in which the binder reads [c]; encode
    writes [c], which decode finds invalid. *)
Lemma roundtrip_needs_lawful_accessors :
  (context_free codecDeaf ∧ consistency_by_accessors codecDeaf) ∧
  ∃ h1 h2 h3,
    getModelFromUrlParams [] in_order codecDeaf (Some 1) JUndefined heap3
      = Ok ({| model := Some (JObject 1); newParams := None |}, h1) ∧
    getUrlParamsFromModel [] codecDeaf (JObject 1) None h1 = Ok (4, h2) ∧
    paramObjects h2 !! 4 = Some [("d", "c")] ∧
    getModelFromUrlParams [] in_order codecDeaf (Some 4) JUndefined h2
      = Ok ({| model := None; newParams := Some 5 |}, h3).
Proof.
  split; [|eexists _, _, _; repeat split; reflexivity].
  split.
  - intros pb Hpb c c'. pick_member Hpb; done.
  - intros m m' _ pb Hpb. pick_member Hpb; done.
Qed.

(** With a consistency check that looks at a property no binder sets:
    decode into a copy of the caller's model returns a model, and decode
    of what encode made of it, into a new object, fails the check. *)
Lemma roundtrip_needs_consistency_by_accessors :
  (accessors_lawful codecOther ∧ context_free codecOther) ∧
  ∃ h1 h2 h3,
    getModelFromUrlParams [] in_order codecOther (Some 2) (JObject 0) heap3
      = Ok ({| model := Some (JObject 1); newParams := None |}, h1) ∧
    getUrlParamsFromModel [] codecOther (JObject 1) None h1 = Ok (4, h2) ∧
    paramObjects h2 !! 4 = Some [("A", "x")] ∧
    getModelFromUrlParams [] in_order codecOther (Some 4) JUndefined h2
      = Ok ({| model := None; newParams := Some 5 |}, h3).
Proof.
  split; [|eexists _, _, _; repeat split; reflexivity].
  split.
  - split.
    + intros pb m value Hpb. pick_member Hpb; apply usp_get_set_eq.
    + intros pb pb' m value Hpb Hpb' Hne. pick_member Hpb; pick_member Hpb'; done.
  - intros pb Hpb c c'. pick_member Hpb; done.
Qed.





Lemma encode_default_suppression_witness :
  (objects heap0 !! 1 = Some [("a", "a0")] ∧
   ∀ pb, pb ∈ paramBinders codecAB →
     getUrlParamValue pb [("a", "a0")] = getDefaultParamValue pb (Some [])) ∧
  (∃ l h',
     getUrlParamsFromModel [0; 1; 0] codecAB (JObject 1) None heap0 = Ok (l, h') ∧
     paramObjects h' !! l = Some []).
Proof.
  assert (∀ pb, pb ∈ paramBinders codecAB →
            getUrlParamValue pb [("a", "a0")] = getDefaultParamValue pb (Some []))
    as Hdefault.
  { intros pb Hpb. pick_member Hpb; reflexivity. }
  split; [split; [reflexivity | exact Hdefault]|].
  apply (encode_default_suppression [0; 1; 0] codecAB 1 None heap0 [("a", "a0")]);
    [reflexivity | exact I | exact Hdefault].
Defined.

Lemma decode_absent_keys_witness :
  (paramObjects heap0 !! 4 = Some [] ∧ reachable codecAB) ∧
  ∃ absent keys2 m,
    absent ≡ₚ [binderA; binderB] ∧ keys2 ≡ₚ [] ∧
    m = foldl (assign_param codecAB [])
          (foldl (λ m pb, setValueToModelFunc pb m (getDefaultParamValue pb (Some [])))
             [("a", "kept"); ("other", "1")] absent) keys2 ∧
    assembled_model [] shuffled codecAB (Some 4) (JObject 0) heap0 = Ok m.
Proof.
  split; [split; [reflexivity | apply codecAB_reachable]|].
  destruct (decode_absent_keys [] shuffled codecAB 4 (JObject 0) heap0 [])
    as (_ & absent & keys2 & m & Habsent & Hkeys2 & Hm & Hassembled & _).
  - reflexivity.
  - by eexists.
  - apply codecAB_reachable.
  - by exists absent, keys2, m.
Defined.

(** Against C8 as stated: the validity check of [A] looks into [allParams]
    for the key [C], which has no binder. With the key, decode of
    [{A: "x", C: "1"}] finds [A] invalid and returns [newParams]; without
    it, decode of [{A: "x"}] returns a model; and so under every
    schedule. *)
Lemma unknown_key_changes_variant :
  (find_binder codecSolo "C" = None ∧
   paramObjects heap2 !! 0 = Some [("A", "x"); ("C", "1")] ∧
   paramObjects heap2 !! 1 = Some (usp_delete "C" [("A", "x"); ("C", "1")])) ∧
  (∃ h1 h2,
     getModelFromUrlParams [] in_order codecSolo (Some 0) JUndefined heap2
       = Ok ({| model := None; newParams := Some 5 |}, h1) ∧
     paramObjects h1 !! 5 = Some [("C", "1")] ∧
     getModelFromUrlParams [] in_order codecSolo (Some 1) JUndefined heap2
       = Ok ({| model := Some (JObject 1); newParams := None |}, h2)) ∧
  (∀ sc sc', ∃ h1 h2,
     getModelFromUrlParams [] sc codecSolo (Some 0) JUndefined heap2
       = Ok ({| model := None; newParams := Some 5 |}, h1) ∧
     getModelFromUrlParams [] sc' codecSolo (Some 1) JUndefined heap2
       = Ok ({| model := Some (JObject 1); newParams := None |}, h2)).
Proof.
  split; [repeat split; reflexivity|].
  split; [eexists _, _; repeat split; reflexivity|].
  intros sc sc'.
  destruct (decode_spec [] sc codecSolo 0 JUndefined heap2 [("A", "x"); ("C", "1")])
    as (keys1 & keys2 & pbs & _ & _ & _ & -> & _); [reflexivity | exact I |].
  destruct (decode_spec [] sc' codecSolo 1 JUndefined heap2 [("A", "x")])
    as (keys1' & keys2' & pbs' & _ & _ & _ & -> & _); [reflexivity | exact I |].
  eexists _, _. split; reflexivity.
Qed.

Lemma codecAB_answers_alike ps ps' : answers_alike codecAB ps ps'.
Proof.
  intros pb Hpb. pick_member Hpb; by split.
Qed.

(** The key [C] of [{A: "x", B: "5", C: "unknown"}] has no binder in
    [codecAB], whose callbacks do not look at [allParams]. *)
Lemma decode_unknown_key_witness :
  (find_binder codecAB "C" = None ∧
   paramObjects heap2 !! 2 = Some [("A", "x"); ("B", "5"); ("C", "unknown")] ∧
   paramObjects heap2 !! 3
     = Some (usp_delete "C" [("A", "x"); ("B", "5"); ("C", "unknown")]) ∧
   answers_alike codecAB [("A", "x"); ("B", "5"); ("C", "unknown")]
     (usp_delete "C" [("A", "x"); ("B", "5"); ("C", "unknown")])) ∧
  (∀ mdl' ln, paramTask codecAB 2 mdl' ln "C" = Done) ∧
  ∃ sc' r M nps,
    getModelFromUrlParams [] shuffled codecAB (Some 2) (JObject 0) heap2 =
      Ok (r, Heap (objects heap2 ++ [M]) (paramObjects heap2 ++ [nps]) []) ∧
    getModelFromUrlParams [] sc' codecAB (Some 3) (JObject 0) heap2 =
      Ok (r, Heap (objects heap2 ++ [M]) (paramObjects heap2 ++ [usp_delete "C" nps]) []).
Proof.
  split.
  { split; [reflexivity|]. split; [reflexivity|]. split; [reflexivity|].
    apply codecAB_answers_alike. }
  destruct (decode_unknown_key [] shuffled codecAB 2 (JObject 0) heap2
              [("A", "x"); ("B", "5"); ("C", "unknown")] "C" eq_refl)
    as (Htask & _ & Hsame).
  split; [exact Htask|].
  destruct (Hsame 3) as [Hforth _];
    [reflexivity | reflexivity | by eexists | apply codecAB_answers_alike|].
  exact Hforth.
Defined.

Lemma addParamBinder_spec_witness :
  urlParamName binderA ∈ names codecAB ∧
  addParamBinder (AParamBinder binderA) codecAB
    = (Throw (Error "paramBinder with urlParamName A already exists"), codecAB).
Proof.
  assert (urlParamName binderA ∈ names codecAB) as Hin.
  { apply elem_of_cons. by left. }
  split; [exact Hin|].
  by apply (addParamBinder_spec codecAB).
Defined.

Lemma decode_model_is_object_witness :
  ∃ v r h1 h',
    own_model [] (JPrimitive "7") heap0 = Ok (v, h1) ∧
    is_object v = true ∧
    getModelFromUrlParams [] shuffled codecAB (Some 1) (JPrimitive "7") heap0
      = Ok (r, h') ∧
    unhandledRejections h' = unhandledRejections heap0.
Proof.
  destruct (decode_model_is_object [] shuffled codecAB (Some 1) (JPrimitive "7") heap0)
    as (Hown & _ & Hunhandled).
  eexists _, _, _, _. split; [reflexivity|]. split; [reflexivity|].
  split; [reflexivity|]. eapply Hunhandled. reflexivity.
Defined.

(** * Witnesses of the further properties *)

Import MoreExamples.

(** Settles a closed decidable proposition by evaluation. *)
Ltac decide_closed :=
  match goal with |- ?P => exact (bool_decide_unpack P I) end.

Lemma codecAB_constant_defaults : constant_defaults codecAB.
Proof. intros pb Hpb c. pick_member Hpb; done. Qed.

Lemma codecAB_validity_by_value : validity_by_value codecAB.
Proof. intros pb Hpb value c c'. pick_member Hpb; done. Qed.

Lemma newParamBinder_consistency_optional_witness :
  newParamBinder paramsA = Ok binderA ∧
  ∀ m, isModelConsistent binderA m = true.
Proof.
  split; [reflexivity|].
  apply (newParamBinder_consistency_optional paramsA binderA). reflexivity.
Defined.

Lemma parseUrlParamValue_valid_default_witness :
  isUrlParamValid binderB (getDefaultParamValue binderB (Some [])) (Some []) = true ∧
  isUrlParamValid binderB (parseUrlParamValue binderB "bad" (Some [])) (Some []) = true.
Proof.
  split; [reflexivity|].
  apply (parseUrlParamValue_valid_default binderB "bad" (Some [])). reflexivity.
Defined.

Lemma decode_without_binders_witness :
  paramObjects heap0 !! 1 = Some [("A", "x"); ("B", "5"); ("C", "unknown")] ∧
  getModelFromUrlParams [] shuffled newModelBinder (Some 1) (JObject 0) heap0 =
    Ok ({| model := Some (JObject 2); newParams := None |},
        Heap (objects heap0 ++ [[("a", "kept"); ("other", "1")]])
             (paramObjects heap0 ++ [[("A", "x"); ("B", "5"); ("C", "unknown")]]) []).
Proof.
  split; [reflexivity|].
  apply (decode_without_binders [] shuffled 1 (JObject 0) heap0);
    [reflexivity | by eexists].
Defined.

Lemma decode_without_checks_witness :
  (paramObjects heap0 !! 0 = Some [("A", "x"); ("B", "bad")] ∧
   ∀ pb, pb ∈ paramBinders codecAB → isModelConsistentFunc pb = None) ∧
  ∃ r h',
    getModelFromUrlParams [] shuffled codecAB (Some 0) JNull heap0 = Ok (r, h') ∧
    ((∃ lm, r = {| model := Some (JObject lm); newParams := None |}) ↔
     (∀ key, key ∈ usp_keys [("A", "x"); ("B", "bad")] →
        key_invalid codecAB [("A", "x"); ("B", "bad")] key = false)).
Proof.
  assert (∀ pb, pb ∈ paramBinders codecAB → isModelConsistentFunc pb = None) as Hnone.
  { intros pb Hpb. pick_member Hpb; reflexivity. }
  split; [split; [reflexivity | exact Hnone]|].
  apply (decode_without_checks [] shuffled codecAB 0 JNull heap0);
    [reflexivity | exact I | exact Hnone].
Defined.

Lemma decode_newParams_keeps_unregistered_witness :
  ∃ h',
    (getModelFromUrlParams [] shuffled codecAB (Some 0) JUndefined heap1
       = Ok ({| model := None; newParams := Some 4 |}, h') ∧
     paramObjects heap1 !! 0 = Some [("C", "1"); ("B", "bad"); ("C", "2"); ("A", "x")] ∧
     paramObjects h' !! 4 = Some [("C", "1"); ("C", "2"); ("A", "x")]) ∧
    filter (λ p, p.1 ∉ names codecAB) [("C", "1"); ("C", "2"); ("A", "x")]
      = filter (λ p, p.1 ∉ names codecAB)
          [("C", "1"); ("B", "bad"); ("C", "2"); ("A", "x")].
Proof.
  eexists. split; [repeat split; reflexivity|].
  eapply (decode_newParams_keeps_unregistered [] shuffled codecAB 0 JUndefined heap1);
    reflexivity.
Defined.

Lemma decode_reset_once_witness :
  ∃ h',
    (getModelFromUrlParams [] shuffled codecXY (Some 1) JUndefined heap1
       = Ok ({| model := None; newParams := Some 4 |}, h') ∧
     paramObjects heap1 !! 1
       = Some [("fieldX", "7"); ("Z", "z"); ("fieldY", "7"); ("fieldX", "8")] ∧
     reachable codecXY ∧
     paramObjects h' !! 4 = Some [("fieldX", "0"); ("Z", "z"); ("fieldY", "9")]) ∧
    filter (λ p, p.1 = "fieldX") [("fieldX", "0"); ("Z", "z"); ("fieldY", "9")]
      = [("fieldX", "0")].
Proof.
  eexists. split.
  { split; [reflexivity|]. split; [reflexivity|].
    split; [apply codecXY_reachable | reflexivity]. }
  eapply (decode_reset_once [] shuffled codecXY 1 JUndefined heap1 _ _ _ 4 _
            ltac:(reflexivity) ltac:(reflexivity) codecXY_reachable
            ltac:(by apply no_key_invalid) ltac:(reflexivity) ltac:(reflexivity)
            binderX).
  apply elem_of_cons. by left.
Defined.

Lemma decode_again_after_invalid_witness :
  ∃ h',
    (validity_by_value codecAB ∧
     getModelFromUrlParams [] shuffled codecAB (Some 0) JUndefined heap1
       = Ok ({| model := None; newParams := Some 4 |}, h') ∧
     paramObjects heap1 !! 0 = Some [("C", "1"); ("B", "bad"); ("C", "2"); ("A", "x")] ∧
     key_invalid codecAB [("C", "1"); ("B", "bad"); ("C", "2"); ("A", "x")] "B" = true) ∧
    ∃ r' h'' m',
      getModelFromUrlParams [] in_order codecAB (Some 4) JUndefined h' = Ok (r', h'') ∧
      assembled_model [] in_order codecAB (Some 4) JUndefined h' = Ok m' ∧
      ((∃ lm, r' = {| model := Some (JObject lm); newParams := None |}) ↔
       (∀ pb, pb ∈ paramBinders codecAB → isModelConsistent pb m' = true)).
Proof.
  eexists. split.
  { split; [apply codecAB_validity_by_value|]. repeat split; reflexivity. }
  eapply (decode_again_after_invalid [] shuffled codecAB 0 JUndefined heap1 _ "B" _ _ 4
            codecAB_validity_by_value ltac:(reflexivity) ltac:(reflexivity));
    [|reflexivity|reflexivity|exact I].
  apply elem_of_cons. right. apply elem_of_cons. by left.
Defined.

Lemma decode_empty_params_witness :
  (paramObjects heap1 !! 2 = Some [] ∧ reachable codecXY) ∧
  ∃ r h',
    getModelFromUrlParams [] shuffled codecXY (Some 2) (JObject 0) heap1 = Ok (r, h') ∧
    ((∃ lm, r = {| model := Some (JObject lm); newParams := None |}) ∨
     (∃ ln nps, r = {| model := None; newParams := Some ln |} ∧
        paramObjects h' !! ln = Some nps ∧
        nps ≡ₚ (λ pb, (urlParamName pb, getDefaultParamValue pb (Some [])))
                 <$> paramBinders codecXY)).
Proof.
  split; [split; [reflexivity | apply codecXY_reachable]|].
  apply (decode_empty_params [] shuffled codecXY 2 (JObject 0) heap1);
    [reflexivity | by eexists | apply codecXY_reachable].
Defined.

Lemma decode_schedule_independent_witness :
  ∃ h1,
    (reachable codecAB ∧ accessors_lawful codecAB ∧ consistency_by_reads codecAB ∧
     getModelFromUrlParams [] shuffled codecAB (Some 1) (JObject 0) heap0
       = Ok ({| model := Some (JObject 2); newParams := None |}, h1)) ∧
    ∃ lm' h1' M M',
      getModelFromUrlParams [] in_order codecAB (Some 1) (JObject 0) heap0
        = Ok ({| model := Some (JObject lm'); newParams := None |}, h1') ∧
      objects h1 !! 2 = Some M ∧ objects h1' !! lm' = Some M' ∧
      ∀ pb, pb ∈ paramBinders codecAB → getUrlParamValue pb M' = getUrlParamValue pb M.
Proof.
  eexists. split.
  - split; [apply codecAB_reachable|]. split; [apply codecAB_lawful|].
    split; [apply codecAB_consistency | reflexivity].
  - apply (decode_schedule_independent [] shuffled in_order codecAB 1 (JObject 0) heap0);
      [apply codecAB_reachable | apply codecAB_lawful | apply codecAB_consistency
      | reflexivity].
Defined.

Lemma encode_keeps_unregistered_witness :
  (objects heap1 !! 0 = Some [("a", "kept"); ("other", "1")] ∧
   paramObjects heap1 !! 3
     = Some [("A", "old"); ("Q", "q"); ("A", "older"); ("B", "stale")]) ∧
  ∃ l h' nps,
    getUrlParamsFromModel [1; 0] codecAB (JObject 0) (Some 3) heap1 = Ok (l, h') ∧
    paramObjects h' !! l = Some nps ∧
    filter (λ p, p.1 ∉ names codecAB) nps
      = filter (λ p, p.1 ∉ names codecAB)
          [("A", "old"); ("Q", "q"); ("A", "older"); ("B", "stale")].
Proof.
  split; [split; reflexivity|].
  apply (encode_keeps_unregistered [1; 0] codecAB 0 (Some 3) heap1
           [("a", "kept"); ("other", "1")]); [reflexivity | by eexists].
Defined.

Lemma encode_keeps_default_key_witness :
  (objects heap1 !! 0 = Some [("a", "kept"); ("other", "1")] ∧
   ∀ pb allParams, pb ∈ paramBinders codecAB → urlParamName pb = "B" →
     getUrlParamValue pb [("a", "kept"); ("other", "1")]
       = getDefaultParamValue pb (Some allParams)) ∧
  ∃ l h' nps,
    getUrlParamsFromModel [1; 0] codecAB (JObject 0) (Some 3) heap1 = Ok (l, h') ∧
    paramObjects h' !! l = Some nps ∧
    filter (λ p, p.1 = "B") nps
      = filter (λ p, p.1 = "B")
          [("A", "old"); ("Q", "q"); ("A", "older"); ("B", "stale")].
Proof.
  assert (∀ pb allParams, pb ∈ paramBinders codecAB → urlParamName pb = "B" →
            getUrlParamValue pb [("a", "kept"); ("other", "1")]
              = getDefaultParamValue pb (Some allParams)) as Hdefault.
  { intros pb allParams Hpb Hname. pick_member Hpb; [done | reflexivity]. }
  split; [split; [reflexivity | exact Hdefault]|].
  apply (encode_keeps_default_key [1; 0] codecAB 0 (Some 3) heap1
           [("a", "kept"); ("other", "1")] "B");
    [reflexivity | by eexists | exact Hdefault].
Defined.

Lemma encode_unset_property_witness :
  (reachable codecAB ∧ defaultParamValue binderB = inl "5" ∧
   getUrlParamValueFunc binderB [("a", "kept"); ("other", "1")] = None) ∧
  ∃ l h' nps,
    getUrlParamsFromModel [1; 0] codecAB (JObject 0) (Some 3) heap1 = Ok (l, h') ∧
    paramObjects h' !! l = Some nps ∧
    filter (λ p, p.1 = "B") nps
      = filter (λ p, p.1 = "B")
          [("A", "old"); ("Q", "q"); ("A", "older"); ("B", "stale")].
Proof.
  split; [split; [apply codecAB_reachable | split; reflexivity]|].
  apply (encode_unset_property [1; 0] codecAB 0 (Some 3) heap1
           [("a", "kept"); ("other", "1")] binderB "5");
    [reflexivity | by eexists | apply codecAB_reachable | | reflexivity | reflexivity].
  apply elem_of_cons. right. apply elem_of_cons. by left.
Defined.

Lemma encode_sets_once_witness :
  (reachable codecAB ∧ constant_defaults codecAB ∧
   getUrlParamValue binderA [("a", "kept"); ("other", "1")]
     ≠ getDefaultParamValue binderA None) ∧
  ∃ l h' nps,
    getUrlParamsFromModel [1; 0] codecAB (JObject 0) (Some 3) heap1 = Ok (l, h') ∧
    paramObjects h' !! l = Some nps ∧
    filter (λ p, p.1 = "A") nps = [("A", "kept")].
Proof.
  split; [split; [apply codecAB_reachable | split; [apply codecAB_constant_defaults | done]]|].
  apply (encode_sets_once [1; 0] codecAB 0 (Some 3) heap1
           [("a", "kept"); ("other", "1")] binderA);
    [reflexivity | by eexists | apply codecAB_reachable
    | apply codecAB_constant_defaults | | done].
  apply elem_of_cons. by left.
Defined.

Lemma encode_fresh_content_witness :
  (reachable codecAB ∧ constant_defaults codecAB) ∧
  ∃ l h' nps,
    getUrlParamsFromModel [1; 0] codecAB (JObject 0) None heap0 = Ok (l, h') ∧
    paramObjects h' !! l = Some nps ∧
    nps ≡ₚ [("A", "kept")].
Proof.
  split; [split; [apply codecAB_reachable | apply codecAB_constant_defaults]|].
  apply (encode_fresh_content [1; 0] codecAB 0 heap0 [("a", "kept"); ("other", "1")]);
    [reflexivity | apply codecAB_reachable | apply codecAB_constant_defaults].
Defined.

Lemma encode_keys_NoDup_witness :
  NoDup (usp_keys [("A", "x"); ("B", "5"); ("C", "unknown")]) ∧
  ∃ l h' nps,
    getUrlParamsFromModel [1; 0] codecAB (JObject 0) (Some 1) heap0 = Ok (l, h') ∧
    paramObjects h' !! l = Some nps ∧
    NoDup (usp_keys nps).
Proof.
  assert (NoDup (usp_keys [("A", "x"); ("B", "5"); ("C", "unknown")])) as Hnodup.
  { decide_closed. }
  split; [exact Hnodup|].
  apply (encode_keys_NoDup [1; 0] codecAB 0 (Some 1) heap0
           [("a", "kept"); ("other", "1")]); [reflexivity | by eexists | exact Hnodup].
Defined.

Lemma encode_idempotent_witness :
  (reachable codecAB ∧ constant_defaults codecAB) ∧
  ∃ l h',
    getUrlParamsFromModel [1; 0] codecAB (JObject 0) (Some 3) heap1 = Ok (l, h') ∧
    getUrlParamsFromModel [0; 0; 1] codecAB (JObject 0) (Some l) h' = Ok (l, h').
Proof.
  split; [split; [apply codecAB_reachable | apply codecAB_constant_defaults]|].
  apply (encode_idempotent [1; 0] [0; 0; 1] codecAB 0 (Some 3) heap1
           [("a", "kept"); ("other", "1")]);
    [reflexivity | by eexists | apply codecAB_reachable
    | apply codecAB_constant_defaults].
Defined.

Lemma decode_keeps_unbound_properties_witness :
  ∃ h',
    ((∀ pb m value, pb ∈ paramBinders codecAB →
        usp_get "other" (setValueToModelFunc pb m value) = usp_get "other" m) ∧
     getModelFromUrlParams [] shuffled codecAB (Some 1) (JObject 0) heap0
       = Ok ({| model := Some (JObject 2); newParams := None |}, h')) ∧
    ∃ M, objects h' !! 2 = Some M ∧ usp_get "other" M = Some "1".
Proof.
  assert (∀ pb (m : object) value, pb ∈ paramBinders codecAB →
            usp_get "other" (setValueToModelFunc pb m value) = usp_get "other" m)
    as Hframe.
  { intros pb m value Hpb. pick_member Hpb; by apply usp_get_set_ne. }
  eexists. split; [split; [exact Hframe | reflexivity]|].
  apply (decode_keeps_unbound_properties [] (usp_get "other") shuffled codecAB 1
           (JObject 0) heap0 2 _ Hframe). reflexivity.
Defined.

Lemma decode_then_encode_in_place_witness :
  ∃ h1,
    (reachable codecAB ∧ accessors_lawful codecAB ∧ constant_defaults codecAB ∧
     paramObjects heap0 !! 1 = Some [("A", "x"); ("B", "5"); ("C", "unknown")] ∧
     NoDup (filter (λ key, key ∈ names codecAB)
              (usp_keys [("A", "x"); ("B", "5"); ("C", "unknown")])) ∧
     getModelFromUrlParams [] shuffled codecAB (Some 1) (JObject 0) heap0
       = Ok ({| model := Some (JObject 2); newParams := None |}, h1)) ∧
    getUrlParamsFromModel [1; 0] codecAB (JObject 2) (Some 1) h1 = Ok (1, h1).
Proof.
  assert (NoDup (filter (λ key, key ∈ names codecAB)
                   (usp_keys [("A", "x"); ("B", "5"); ("C", "unknown")]))) as Hnodup.
  { decide_closed. }
  eexists. split.
  - split; [apply codecAB_reachable|]. split; [apply codecAB_lawful|].
    split; [apply codecAB_constant_defaults|]. split; [reflexivity|].
    split; [exact Hnodup | reflexivity].
  - apply (decode_then_encode_in_place [] shuffled [1; 0] codecAB 1 (JObject 0) heap0
             [("A", "x"); ("B", "5"); ("C", "unknown")] 2 _
             codecAB_reachable codecAB_lawful codecAB_constant_defaults
             ltac:(reflexivity) Hnodup ltac:(reflexivity)).
Defined.

Lemma codecXY_constant_defaults : constant_defaults codecXY.
Proof. intros pb Hpb c. pick_member Hpb; done. Qed.

Lemma codecXY_defaults_valid : defaults_valid codecXY.
Proof. intros pb Hpb c c'. pick_member Hpb; done. Qed.

Lemma decode_again_after_reset_witness :
  ∃ h',
    (reachable codecXY ∧ constant_defaults codecXY ∧ defaults_valid codecXY ∧
     getModelFromUrlParams [] shuffled codecXY (Some 1) JUndefined heap1
       = Ok ({| model := None; newParams := Some 4 |}, h') ∧
     paramObjects heap1 !! 1
       = Some [("fieldX", "7"); ("Z", "z"); ("fieldY", "7"); ("fieldX", "8")] ∧
     paramObjects h' !! 4 = Some [("fieldX", "0"); ("Z", "z"); ("fieldY", "9")]) ∧
    ∃ r' h'',
      getModelFromUrlParams [] in_order codecXY (Some 4) JNull h' = Ok (r', h'') ∧
      ((∃ lm, r' = {| model := Some (JObject lm); newParams := None |}) ∨
       (∃ ln', r' = {| model := None; newParams := Some ln' |} ∧
               paramObjects h'' !! ln'
                 = Some [("fieldX", "0"); ("Z", "z"); ("fieldY", "9")])).
Proof.
  eexists. split.
  { split; [apply codecXY_reachable|]. split; [apply codecXY_constant_defaults|].
    split; [apply codecXY_defaults_valid|]. repeat split; reflexivity. }
  apply (decode_again_after_reset [] shuffled codecXY 1 JUndefined heap1 _ _ _ 4 _
           codecXY_reachable codecXY_constant_defaults codecXY_defaults_valid
           ltac:(reflexivity) ltac:(reflexivity) ltac:(by apply no_key_invalid)
           ltac:(reflexivity) ltac:(reflexivity) in_order JNull I).
Defined.
